(** * Flow-field navigation: a shallow embedding of package [navigation]

    The development follows [src/navigation/types.go], the configuration
    file of the same package and [src/navigation/flowfield.go]; of the
    callers it covers the building placement of [src/systems/building.go]
    and the start of [main] in [src/main.go].

    - Go's [int] is the 64-bit two's-complement integer: values are [Z],
      every addition the source performs goes through [add64].
    - Go's [float64] is IEEE-754 binary64, taken from the Standard
      Library's [SpecFloat] (precision 53, maximal exponent 1024).
    - Slices of slices are lists of lists, indexed [row][column] as in the
      source; a write is stdpp's list update.
    - Methods that mutate their receiver return the new receiver together
      with the error value ([None] is Go's [nil]). *)

From Stdlib Require Import ZArith Lia Bool SpecFloat.
From Stdlib Require Import String.
From stdpp Require Import prelude gmap.

Local Open Scope Z_scope.

(* stdpp's solvers clear hypotheses that may be absent. *)
#[local] Set Warnings "-clear-no-such-hyp".

(** ** Machine integers *)

Module GoInt.

Definition min_int64 : Z := - 2 ^ 63.
Definition max_int64 : Z := 2 ^ 63 - 1.

(** Two's-complement wrap-around of a mathematical integer into [int]. *)
Definition wrap64 (z : Z) : Z := (z + 2 ^ 63) mod 2 ^ 64 - 2 ^ 63.

Definition add64 (a b : Z) : Z := wrap64 (a + b).

(** [math.MaxInt32], the "infinite" distance of the source. *)
Definition MaxInt32 : Z := 2147483647.

Definition in_int64 (z : Z) : Prop := min_int64 <= z <= max_int64.

End GoInt.
Export GoInt.

(** ** binary64 *)

Module Float64.

Definition float64 : Type := spec_float.

Definition prec : Z := 53.
Definition emax : Z := 1024.

(** [float64(n)] for an [int] [n]: rounding to nearest, ties to even. *)
Definition of_int (n : Z) : float64 := binary_normalize prec emax n 0 false.

Definition mul (a b : float64) : float64 := SFmul prec emax a b.
Definition div (a b : float64) : float64 := SFdiv prec emax a b.

(** [a <= b] of Go: false as soon as one side is NaN. *)
Definition leb (a b : float64) : bool := SFleb a b.

(** [int(f)]: truncation toward zero.  When the truncated value is not an
    [int] (or [f] is an infinity or NaN) the language leaves the result to
    the implementation; amd64 yields the "integer indefinite" value
    [min_int64], which is what is modelled. *)
Definition to_int (f : float64) : Z :=
  match f with
  | S754_zero _ => 0
  | S754_finite s m e =>
      let mag := if 0 <=? e then Z.shiftl (Zpos m) e
                 else Z.shiftr (Zpos m) (- e) in
      let v := if s then - mag else mag in
      if (min_int64 <=? v) && (v <=? max_int64) then v else min_int64
  | S754_infinity _ | S754_nan => min_int64
  end.

Definition zero : float64 := S754_zero false.

(** The constant [1.4]: the binary64 number nearest to 14/10. *)
Definition lit_1_4 : float64 := S754_finite false 6305039478318694 (-52).

End Float64.
Export Float64.

(** ** types.go *)

Record Position := mkPos { PosX : Z; PosY : Z }.
Record Direction := mkDir { DirX : Z; DirY : Z }.

Inductive CellType := Passable | Obstacle | Goal | Building.

#[global] Instance Position_eq_dec : EqDecision Position.
Proof. solve_decision. Defined.
#[global] Instance Direction_eq_dec : EqDecision Direction.
Proof. solve_decision. Defined.
#[global] Instance CellType_eq_dec : EqDecision CellType.
Proof. solve_decision. Defined.

Definition FourWayDirections : list Direction :=
  [ mkDir 0 (-1); mkDir 0 1; mkDir (-1) 0; mkDir 1 0 ].

Definition EightWayDirections : list Direction :=
  [ mkDir 0 (-1); mkDir 0 1; mkDir (-1) 0; mkDir 1 0;
    mkDir (-1) (-1); mkDir (-1) 1; mkDir 1 (-1); mkDir 1 1 ].

(** errors.go, plus the two ad-hoc [errors.New] values of [UpdateCosts]
    and the three of [Validate]. *)
Inductive error :=
  | ErrInvalidPosition | ErrInvalidCost | ErrNoPath | ErrInvalidGoal
  | ErrEmptyGrid | ErrInvalidDirection
  | ErrNew (msg : string).

Record Grid := mkGrid {
  Width : Z;
  Height : Z;
  Costs : list (list Z);
  FlowField : list (list Direction);
  Distances : list (list Z);
  CellTypes : list (list CellType)
}.

(** *** Two-dimensional slices

    [m[y][x]] with [y], [x] of type [int].  Every read and write of the
    source is dominated by an [IsValidPosition] test, so the indices are
    non-negative where it matters; a read outside the slice (a panic in
    Go) yields the default [d], a write outside does nothing. *)

Section Slice2.
Context {A : Type}.

Definition get2 (d : A) (m : list (list A)) (y x : Z) : A :=
  default d ((m !! Z.to_nat y) ≫= (λ row, row !! Z.to_nat x)).

Definition set2 (m : list (list A)) (y x : Z) (v : A) : list (list A) :=
  alter (λ row, <[Z.to_nat x := v]> row) (Z.to_nat y) m.

(** [copy(dst, src)]: the first [min (len dst) (len src)] elements of
    [src] overwrite those of [dst]. *)
Definition copy (dst src : list A) : list A :=
  take (length dst) src ++ drop (length src) dst.

(** [rows] rows of [cols] columns. *)
Definition shape2 (rows cols : Z) (m : list (list A)) : Prop :=
  length m = Z.to_nat rows ∧ Forall (λ row, length row = Z.to_nat cols) m.

End Slice2.

Definition zeroDir : Direction := mkDir 0 0.

Definition costAt (g : Grid) (p : Position) : Z :=
  get2 0 (Costs g) (PosY p) (PosX p).
Definition distAt (g : Grid) (p : Position) : Z :=
  get2 0 (Distances g) (PosY p) (PosX p).
Definition flowAt (g : Grid) (p : Position) : Direction :=
  get2 zeroDir (FlowField g) (PosY p) (PosX p).
Definition typeAt (g : Grid) (p : Position) : CellType :=
  get2 Passable (CellTypes g) (PosY p) (PosX p).

Definition withCosts (g : Grid) (c : list (list Z)) : Grid :=
  mkGrid (Width g) (Height g) c (FlowField g) (Distances g) (CellTypes g).
Definition withFlowField (g : Grid) (f : list (list Direction)) : Grid :=
  mkGrid (Width g) (Height g) (Costs g) f (Distances g) (CellTypes g).
Definition withDistances (g : Grid) (d : list (list Z)) : Grid :=
  mkGrid (Width g) (Height g) (Costs g) (FlowField g) d (CellTypes g).
Definition withCellTypes (g : Grid) (t : list (list CellType)) : Grid :=
  mkGrid (Width g) (Height g) (Costs g) (FlowField g) (Distances g) t.

Definition setCost (g : Grid) (p : Position) (c : Z) : Grid :=
  withCosts g (set2 (Costs g) (PosY p) (PosX p) c).
Definition setDistance (g : Grid) (p : Position) (d : Z) : Grid :=
  withDistances g (set2 (Distances g) (PosY p) (PosX p) d).
Definition setFlow (g : Grid) (p : Position) (d : Direction) : Grid :=
  withFlowField g (set2 (FlowField g) (PosY p) (PosX p) d).
Definition setCellType (g : Grid) (p : Position) (t : CellType) : Grid :=
  withCellTypes g (set2 (CellTypes g) (PosY p) (PosX p) t).

(** [make([][]T, height)] followed by [make([]T, width)] per row: every
    element is the zero value [z]. *)
Definition make2 {A} (z : A) (width height : Z) : list (list A) :=
  replicate (Z.to_nat height) (replicate (Z.to_nat width) z).

Definition NewGrid (width height : Z) : Grid :=
  {| Width := width;
     Height := height;
     Costs := make2 1 width height;
     FlowField := make2 zeroDir width height;
     Distances := make2 0 width height;
     CellTypes := make2 Passable width height |}.

Definition IsValidPosition (g : Grid) (pos : Position) : bool :=
  (0 <=? PosX pos) && (PosX pos <? Width g) &&
  (0 <=? PosY pos) && (PosY pos <? Height g).

Definition IsPassable (g : Grid) (pos : Position) : bool :=
  if negb (IsValidPosition g pos) then false
  else negb (costAt g pos =? -1).

Definition SetObstacle (g : Grid) (pos : Position) : Grid * option error :=
  if negb (IsValidPosition g pos) then (g, Some ErrInvalidPosition)
  else (setCellType (setCost g pos (-1)) pos Obstacle, None).

Definition SetBuilding (g : Grid) (pos : Position) : Grid * option error :=
  if negb (IsValidPosition g pos) then (g, Some ErrInvalidPosition)
  else (setCellType (setCost g pos (-1)) pos Building, None).

Definition SetCost (g : Grid) (pos : Position) (cost : Z)
  : Grid * option error :=
  if negb (IsValidPosition g pos) then (g, Some ErrInvalidPosition)
  else if cost <? 0 then (g, Some ErrInvalidCost)
  else (setCost g pos cost, None).

Definition Grid_GetFlowDirection (g : Grid) (pos : Position)
  : Direction * option error :=
  if negb (IsValidPosition g pos) then (zeroDir, Some ErrInvalidPosition)
  else (flowAt g pos, None).

(** ** The configuration *)

Record Config := mkConfig {
  GridWidth : Z;
  GridHeight : Z;
  Directions : list Direction;
  DiagonalCost : float64;
  AllowCornerCutting : bool
}.

Definition EightWayConfig (width height : Z) : Config :=
  {| GridWidth := width;
     GridHeight := height;
     Directions := EightWayDirections;
     DiagonalCost := lit_1_4;
     AllowCornerCutting := true |}.

Definition Validate (c : Config) : option error :=
  if (GridWidth c <=? 0) || (GridHeight c <=? 0)
  then Some (ErrNew "grid dimensions must be positive")
  else if (length (Directions c) =? 0)%nat
  then Some (ErrNew "must have at least one direction")
  else if Float64.leb (DiagonalCost c) Float64.zero
  then Some (ErrNew "diagonal cost must be positive")
  else None.

(** ** flowfield.go *)

Record FlowFieldNavigator := mkNav {
  config : Config;
  grid : Grid;
  goal : Position;
  isGoalSet : bool
}.

Definition withGrid (f : FlowFieldNavigator) (g : Grid) : FlowFieldNavigator :=
  mkNav (config f) g (goal f) (isGoalSet f).

Definition NewFlowFieldNavigator (cfg : Config)
  : option FlowFieldNavigator * option error :=
  match Validate cfg with
  | Some err => (None, Some err)
  | None =>
      (Some {| config := cfg;
               grid := NewGrid (GridWidth cfg) (GridHeight cfg);
               goal := mkPos 0 0;
               isGoalSet := false |}, None)
  end.

Definition isDiagonal (dir : Direction) : bool :=
  negb (DirX dir =? 0) && negb (DirY dir =? 0).

(** [current + dir] on [int] coordinates. *)
Definition stepPos (current : Position) (dir : Direction) : Position :=
  {| PosX := add64 (PosX current) (DirX dir);
     PosY := add64 (PosY current) (DirY dir) |}.

(** The cost of a step along [dir] into a cell of cost [cost]:
    [int(float64(cost) * DiagonalCost)] on a diagonal, [cost] otherwise. *)
Definition moveCost (cfg : Config) (dir : Direction) (cost : Z) : Z :=
  if isDiagonal dir
  then Float64.to_int (Float64.mul (Float64.of_int cost) (DiagonalCost cfg))
  else cost.

(** *** Phase 1: distance propagation

    The state of the [for len(queue) > 0] loop is the grid (of which only
    [Distances] changes) and the queue. *)

Definition RelaxState : Type := Grid * list Position.

(** Body of [for _, dir := range f.config.Directions]. *)
Definition relaxDir (cfg : Config) (current : Position) (currentDist : Z)
    (st : RelaxState) (dir : Direction) : RelaxState :=
  let '(g, queue) := st in
  let next := stepPos current dir in
  if negb (IsValidPosition g next) || negb (IsPassable g next) then st
  else
    let newDist := add64 currentDist (moveCost cfg dir (costAt g next)) in
    if newDist <? distAt g next
    then (setDistance g next newDist, queue ++ [next])
    else st.

(** One iteration of the outer loop; the identity once the queue is
    empty. *)
Definition relaxStep (cfg : Config) (st : RelaxState) : RelaxState :=
  match st with
  | (g, []) => st
  | (g, current :: queue) =>
      fold_left (relaxDir cfg current (distAt g current))
                (Directions cfg) (g, queue)
  end.

Definition queueEmpty (st : RelaxState) : bool :=
  match snd st with [] => true | _ => false end.

(** At most [2 ^ n] iterations of the loop, stopping as soon as the queue
    is empty. *)
Fixpoint relaxLoop (cfg : Config) (n : nat) (st : RelaxState) : RelaxState :=
  if queueEmpty st then st
  else match n with
       | O => relaxStep cfg st
       | S n' => relaxLoop cfg n' (relaxLoop cfg n' st)
       end.

(** An exponent [n] such that [2 ^ n] iterations exhaust every run from a
    freshly reset field: each cell holds an [int] of 64 bits. *)
Definition relaxFuel (g : Grid) : nat :=
  Z.to_nat (Z.log2_up (Width g * Height g * 2 ^ 64 + 2)).

Definition propagate (cfg : Config) (g : Grid) (start : Position) : Grid :=
  fst (relaxLoop cfg (relaxFuel g) (g, [start])).

(** *** Phase 2: flow directions *)

(** Body of the inner [for _, dir := range f.config.Directions]; the
    state is [(bestDist, bestDir)]. *)
Definition bestStep (g : Grid) (pos : Position) (best : Z * Direction)
    (dir : Direction) : Z * Direction :=
  let neighbor := stepPos pos dir in
  if IsValidPosition g neighbor then
    let neighborDist := distAt g neighbor in
    if neighborDist <? fst best then (neighborDist, dir) else best
  else best.

Definition bestDirection (cfg : Config) (g : Grid) (pos : Position)
  : Direction :=
  snd (fold_left (bestStep g pos) (Directions cfg) (distAt g pos, zeroDir)).

(** Body of the [for x := range f.grid.Width] loop. *)
Definition flowCell (cfg : Config) (goalPos : Position) (g : Grid)
    (pos : Position) : Grid :=
  if negb (IsPassable g pos) ||
     ((PosX pos =? PosX goalPos) && (PosY pos =? PosY goalPos))
  then g
  else setFlow g pos (bestDirection cfg g pos).

(** The cells in the order of [for y := range Height; for x := range
    Width]. *)
Definition allPositions (width height : Z) : list Position :=
  y ← seqZ 0 height; x ← seqZ 0 width; [mkPos x y].

(** The two reset loops at the head of [computeFlowField]. *)
Definition resetCell (g : Grid) (pos : Position) : Grid :=
  setFlow (setDistance g pos MaxInt32) pos zeroDir.

Definition resetField (g : Grid) : Grid :=
  fold_left resetCell (allPositions (Width g) (Height g)) g.

Definition computeFlowField (f : FlowFieldNavigator)
  : FlowFieldNavigator * option error :=
  let g := resetField (grid f) in
  let g := setDistance g (goal f) 0 in
  let g := propagate (config f) g (goal f) in
  let g := fold_left (flowCell (config f) (goal f))
                     (allPositions (Width g) (Height g)) g in
  (withGrid f g, None).

#[global] Arguments computeFlowField : simpl never.

Definition SetGoal (f : FlowFieldNavigator) (goalPos : Position)
  : FlowFieldNavigator * option error :=
  if negb (IsValidPosition (grid f) goalPos) then (f, Some ErrInvalidPosition)
  else if negb (IsPassable (grid f) goalPos) then (f, Some ErrInvalidGoal)
  else computeFlowField (mkNav (config f) (grid f) goalPos true).

Definition GetFlowDirection (f : FlowFieldNavigator) (pos : Position)
  : Direction * option error :=
  if negb (isGoalSet f) then (zeroDir, Some ErrInvalidGoal)
  else if negb (IsValidPosition (grid f) pos)
  then (zeroDir, Some ErrInvalidPosition)
  else if (PosX pos =? PosX (goal f)) && (PosY pos =? PosY (goal f))
  then (mkDir 0 0, None)
  else
    let direction := flowAt (grid f) pos in
    if (DirX direction =? 0) && (DirY direction =? 0) &&
       (negb (PosX pos =? PosX (goal f)) || negb (PosY pos =? PosY (goal f)))
    then (zeroDir, Some ErrNoPath)
    else (direction, None).

(** The row loop of [UpdateCosts]: rows [y, y+1, ...] are checked and
    copied one after the other; a row of the wrong width stops the loop
    with the rows before it already copied.  [rows] is the list of row
    indices still to visit. *)
Fixpoint copyRows (g : Grid) (costs : list (list Z)) (rows : list Z)
  : Grid * option error :=
  match rows with
  | [] => (g, None)
  | y :: rows' =>
      let src := default [] (costs !! Z.to_nat y) in
      if negb (Z.of_nat (length src) =? Width g)
      then (g, Some (ErrNew "cost grid width doesn't match navigator grid"))
      else
        let dst := default [] (Costs g !! Z.to_nat y) in
        copyRows (withCosts g (<[Z.to_nat y := copy dst src]> (Costs g)))
                 costs rows'
  end.

Definition UpdateCosts (f : FlowFieldNavigator) (costs : list (list Z))
  : FlowFieldNavigator * option error :=
  if negb (Z.of_nat (length costs) =? Height (grid f))
  then (f, Some (ErrNew "cost grid height doesn't match navigator grid"))
  else
    match copyRows (grid f) costs (seqZ 0 (Height (grid f))) with
    | (g, Some err) => (withGrid f g, Some err)
    | (g, None) =>
        let f := withGrid f g in
        if isGoalSet f then
          if negb (IsPassable (grid f) (goal f))
          then (mkNav (config f) (grid f) (goal f) false, Some ErrInvalidGoal)
          else computeFlowField f
        else (f, None)
    end.

Definition GetGoal (f : FlowFieldNavigator) : Position := goal f.

(** [GetGrid]: a fresh grid, into whose rows the costs, the flow field
    and the distances are copied; [CellTypes] is not. *)
Definition copyRow3 (src : Grid) (dst : Grid) (y : Z) : Grid :=
  let i := Z.to_nat y in
  let row {A} (m : list (list A)) := default [] (m !! i) in
  mkGrid (Width dst) (Height dst)
    (<[i := copy (row (Costs dst)) (row (Costs src))]> (Costs dst))
    (<[i := copy (row (FlowField dst)) (row (FlowField src))]> (FlowField dst))
    (<[i := copy (row (Distances dst)) (row (Distances src))]> (Distances dst))
    (CellTypes dst).

Definition GetGrid (f : FlowFieldNavigator) : Grid :=
  fold_left (copyRow3 (grid f))
            (seqZ 0 (Height (grid f)))
            (NewGrid (Width (grid f)) (Height (grid f))).

(** ** Scenario checks *)

Definition nav5 : FlowFieldNavigator :=
  {| config := EightWayConfig 5 5; grid := NewGrid 5 5;
     goal := mkPos 0 0; isGoalSet := false |}.

(** ** Predicates used by the statements *)

(** The four slices of a grid have [Height] rows of [Width] cells, which
    is how [NewGrid] builds them and how every operation keeps them. *)
Definition wf_grid (g : Grid) : Prop :=
  shape2 (Height g) (Width g) (Costs g) ∧
  shape2 (Height g) (Width g) (FlowField g) ∧
  shape2 (Height g) (Width g) (Distances g) ∧
  shape2 (Height g) (Width g) (CellTypes g).

Definition inBounds (g : Grid) (p : Position) : Prop :=
  0 <= PosX p < Width g ∧ 0 <= PosY p < Height g.

(** No addition of the propagation overflows: every step into a passable
    cell costs at least 0 and at most [max_int64 - MaxInt32]. *)
Definition stepCostsOK (cfg : Config) (g : Grid) : Prop :=
  ∀ dir pos, dir ∈ Directions cfg → IsPassable g pos = true →
    0 <= moveCost cfg dir (costAt g pos) <= max_int64 - MaxInt32.

(** The same, as a test over the cells and the directions. *)
Definition stepCostsOKb (cfg : Config) (g : Grid) : bool :=
  forallb (λ pos,
    negb (IsPassable g pos) ||
    forallb (λ dir,
      let c := moveCost cfg dir (costAt g pos) in
      (0 <=? c) && (c <=? max_int64 - MaxInt32)) (Directions cfg))
    (allPositions (Width g) (Height g)).

(** ** Invariants of the propagation loop *)

(** Everything but [Distances] is as in [g0]. *)
Definition sameFrame (g0 g : Grid) : Prop :=
  Width g = Width g0 ∧ Height g = Height g0 ∧ Costs g = Costs g0 ∧
  FlowField g = FlowField g0 ∧ CellTypes g = CellTypes g0.

(** What holds of every state of the loop, whatever the costs: recorded
    distances are [int]s no larger than [MaxInt32], an impassable cell
    still holds [MaxInt32], and a queued cell is passable and has been
    given a distance below [MaxInt32]. *)
Definition relaxInv (st : RelaxState) : Prop :=
  let '(g, queue) := st in
  wf_grid g ∧
  (∀ p, inBounds g p → min_int64 <= distAt g p <= MaxInt32) ∧
  (∀ p, inBounds g p → IsPassable g p = false → distAt g p = MaxInt32) ∧
  (∀ p, p ∈ queue → IsPassable g p = true ∧ distAt g p < MaxInt32).

Definition nonNegative (g : Grid) : Prop :=
  ∀ p, inBounds g p → 0 <= distAt g p.

Definition sumZ (l : list Z) : Z := foldr Z.add 0 l.

(** The variant of the loop: the distance of every cell above the least
    [int], summed, plus the length of the queue. *)
Definition cellSum (m : list (list Z)) : Z :=
  sumZ (map (λ row, sumZ (map (λ d, d - min_int64) row)) m).

Definition relaxMeasure (st : RelaxState) : Z :=
  cellSum (Distances (fst st)) + Z.of_nat (length (snd st)).

(** What holds in addition when no addition overflows: distances are
    non-negative and the goal keeps distance 0. *)
Definition costInv (cfg : Config) (goalPos : Position) (st : RelaxState)
  : Prop :=
  stepCostsOK cfg (fst st) ∧ nonNegative (fst st) ∧
  distAt (fst st) goalPos = 0.

(** The grid on entry to the propagation loop of [computeFlowField], and
    on exit from it. *)
Definition fieldStart (f : FlowFieldNavigator) : Grid :=
  setDistance (resetField (grid f)) (goal f) 0.

Definition propagated (f : FlowFieldNavigator) : Grid :=
  propagate (config f) (fieldStart f) (goal f).

(** ** Concrete navigators *)

(** The navigator [NewFlowFieldNavigator (EightWayConfig 2 1)] returns:
    one row of two cells of cost 1. *)
Definition nav2 : FlowFieldNavigator :=
  {| config := EightWayConfig 2 1; grid := NewGrid 2 1;
     goal := mkPos 0 0; isGoalSet := false |}.

(** [nav2] after [UpdateCosts([][]int{{math.MaxInt64, 1}})]. *)
Definition navHuge : FlowFieldNavigator :=
  fst (UpdateCosts nav2 [[max_int64; 1]]).

(** [navHuge] once the goal (0,0) has been recorded. *)
Definition navHugeGoal : FlowFieldNavigator :=
  mkNav (config navHuge) (grid navHuge) (mkPos 0 0) true.

(** What the body of the direction loop does to a state: nothing, or one
    enqueue of a cell whose recorded distance, still at least [low], has
    just strictly decreased while every other cell kept its own. *)
Definition enqueueDecreases (low : Z) (st st' : RelaxState) : Prop :=
  st' = st ∨
  ∃ next, snd st' = snd st ++ [next] ∧ inBounds (fst st) next ∧
    low <= distAt (fst st') next < distAt (fst st) next ∧
    ∀ p, inBounds (fst st) p → p ≠ next →
         distAt (fst st') p = distAt (fst st) p.

(** [nav2] once the goal (1,0) has been recorded. *)
Definition nav2Goal : FlowFieldNavigator :=
  mkNav (config nav2) (grid nav2) (mkPos 1 0) true.

(** The test [UpdateCosts] applies to its argument: as many rows as the
    grid is high, each as long as the grid is wide. *)
Definition dimsMatch (g : Grid) (costs : list (list Z)) : Prop :=
  Z.of_nat (length costs) = Height g ∧
  Forall (λ row, Z.of_nat (length row) = Width g) costs.

(** [f'] is a navigator as a successful field recomputation leaves it:
    the result of a successful [SetGoal], or of a successful
    [UpdateCosts] while a goal is set. *)
Definition recomputed (f' : FlowFieldNavigator) : Prop :=
  ∃ f, wf_grid (grid f) ∧
    ((∃ goalPos, SetGoal f goalPos = (f', None)) ∨
     (isGoalSet f = true ∧ ∃ costs, UpdateCosts f costs = (f', None))).

(** One row of three cells, the middle one impassable: the navigator of
    [EightWayConfig 3 1] after [UpdateCosts([][]int{{1, -1, 1}})], and
    the same after [SetGoal] at (0,0). *)
Definition navWall : FlowFieldNavigator :=
  fst (UpdateCosts {| config := EightWayConfig 3 1; grid := NewGrid 3 1;
                      goal := mkPos 0 0; isGoalSet := false |}
                   [[1; -1; 1]]).

Definition navWallGoal : FlowFieldNavigator :=
  fst (SetGoal navWall (mkPos 0 0)).

(** [nav2] after [UpdateCosts([][]int{{1, -5}})], with the goal (0,0)
    recorded. *)
Definition navNeg : FlowFieldNavigator :=
  let f := fst (UpdateCosts nav2 [[1; -5]]) in
  mkNav (config f) (grid f) (mkPos 0 0) true.

(** The navigator of [EightWayConfig 2 2]: two rows of two cells of
    cost 1. *)
Definition nav22 : FlowFieldNavigator :=
  {| config := EightWayConfig 2 2; grid := NewGrid 2 2;
     goal := mkPos 0 0; isGoalSet := false |}.

(** ** Sequences of grid mutations *)

Inductive GridOp :=
  | OpSetObstacle (pos : Position)
  | OpSetBuilding (pos : Position)
  | OpSetCost (pos : Position) (cost : Z)
  | OpUpdateCosts (costs : list (list Z)).

Definition applyOp (f : FlowFieldNavigator) (op : GridOp)
  : FlowFieldNavigator :=
  match op with
  | OpSetObstacle pos => withGrid f (fst (SetObstacle (grid f) pos))
  | OpSetBuilding pos => withGrid f (fst (SetBuilding (grid f) pos))
  | OpSetCost pos cost => withGrid f (fst (SetCost (grid f) pos cost))
  | OpUpdateCosts costs => fst (UpdateCosts f costs)
  end.

Definition applyOps (f : FlowFieldNavigator) (ops : list GridOp)
  : FlowFieldNavigator :=
  fold_left applyOp ops f.

(** The single-cell setters of [Grid]. *)
Definition isSetter (op : GridOp) : Prop :=
  match op with OpUpdateCosts _ => False | _ => True end.

Definition blockedType (t : CellType) : Prop := t = Obstacle ∨ t = Building.

(** The invariant of the data model, at one cell. *)
Definition costMatchesType (g : Grid) (p : Position) : Prop :=
  costAt g p = -1 ↔ blockedType (typeAt g p).

(** ** Slices as references

    A slice of Go refers to a backing array; two slices may share one.
    To state what [GetGrid] shares with the navigator's grid, the grids
    are laid out in a store of backing arrays: the four outer slices of a
    grid refer to arrays of row references, each row reference to an
    array of cells. *)

Definition loc : Type := nat.

Inductive Cells :=
  | IntCells (l : list Z)
  | DirCells (l : list Direction)
  | TypeCells (l : list CellType)
  | RowCells (l : list loc).

Abbreviation Store := (gmap loc Cells).

(** The [Grid] struct with its slices as references. *)
Record GridRef := mkGridRef {
  refWidth : Z;
  refHeight : Z;
  refCosts : loc;
  refFlowField : loc;
  refDistances : loc;
  refCellTypes : loc
}.

Definition asInts (c : Cells) : option (list Z) :=
  match c with IntCells l => Some l | _ => None end.
Definition asDirs (c : Cells) : option (list Direction) :=
  match c with DirCells l => Some l | _ => None end.
Definition asTypes (c : Cells) : option (list CellType) :=
  match c with TypeCells l => Some l | _ => None end.
Definition asRows (c : Cells) : option (list loc) :=
  match c with RowCells l => Some l | _ => None end.

(** The rows an outer slice refers to, and their contents. *)
Definition rowLocs (s : Store) (outer : loc) : option (list loc) :=
  s !! outer ≫= asRows.

Definition readRows {A} (as_ : Cells → option (list A)) (s : Store)
    (outer : loc) : option (list (list A)) :=
  rows ← rowLocs s outer; mapM (λ l, s !! l ≫= as_) rows.

(** The grid a reference denotes in a store. *)
Definition readGrid (s : Store) (r : GridRef) : option Grid :=
  costs ← readRows asInts s (refCosts r);
  flow ← readRows asDirs s (refFlowField r);
  dists ← readRows asInts s (refDistances r);
  types ← readRows asTypes s (refCellTypes r);
  Some (mkGrid (refWidth r) (refHeight r) costs flow dists types).

(** The locations a grid occupies: its outer arrays and its rows. *)
Definition sliceFootprint (s : Store) (outer : loc) : gset loc :=
  {[outer]} ∪ list_to_set (default [] (rowLocs s outer)).

Definition footprint (s : Store) (r : GridRef) : gset loc :=
  sliceFootprint s (refCosts r) ∪ sliceFootprint s (refFlowField r) ∪
  sliceFootprint s (refDistances r) ∪ sliceFootprint s (refCellTypes r).

(** [make]: a new backing array at a location not in use. *)
Definition alloc (c : Cells) (s : Store) : loc * Store :=
  let l := fresh (dom s) in (l, <[l := c]> s).

Fixpoint allocRows (c : Cells) (n : nat) (s : Store) : list loc * Store :=
  match n with
  | O => ([], s)
  | S n' =>
      let '(l, s1) := alloc c s in
      let '(ls, s2) := allocRows c n' s1 in
      (l :: ls, s2)
  end.

(** [make([][]T, height)] and the [make([]T, width)] of every row, the
    rows holding [z]. *)
Definition allocSlice2 (row : Cells) (height : Z) (s : Store) : loc * Store :=
  let '(rows, s1) := allocRows row (Z.to_nat height) s in
  alloc (RowCells rows) s1.

(** [NewGrid] on the store: rows are created with the values the
    initialisation loop gives them. *)
Definition storeNewGrid (width height : Z) (s : Store) : GridRef * Store :=
  let w := Z.to_nat width in
  let '(costs, s) := allocSlice2 (IntCells (replicate w 1)) height s in
  let '(flow, s) := allocSlice2 (DirCells (replicate w zeroDir)) height s in
  let '(dists, s) := allocSlice2 (IntCells (replicate w 0)) height s in
  let '(types, s) := allocSlice2 (TypeCells (replicate w Passable)) height s in
  (mkGridRef width height costs flow dists types, s).

Definition copyCells (dst src : Cells) : Cells :=
  match dst, src with
  | IntCells d, IntCells c => IntCells (copy d c)
  | DirCells d, DirCells c => DirCells (copy d c)
  | TypeCells d, TypeCells c => TypeCells (copy d c)
  | RowCells d, RowCells c => RowCells (copy d c)
  | _, _ => dst
  end.

(** [copy(dst[y], src[y])] for two outer slices. *)
Definition storeCopyRow (dstOuter srcOuter : loc) (y : Z) (s : Store) : Store :=
  match rowLocs s dstOuter ≫= (.!! Z.to_nat y),
        rowLocs s srcOuter ≫= (.!! Z.to_nat y) with
  | Some dl, Some sl =>
      match s !! dl, s !! sl with
      | Some d, Some c => <[dl := copyCells d c]> s
      | _, _ => s
      end
  | _, _ => s
  end.

(** Body of the loop of [GetGrid]. *)
Definition storeCopyRow3 (src dst : GridRef) (s : Store) (y : Z) : Store :=
  let s := storeCopyRow (refCosts dst) (refCosts src) y s in
  let s := storeCopyRow (refFlowField dst) (refFlowField src) y s in
  storeCopyRow (refDistances dst) (refDistances src) y s.

(** [GetGrid] on the store, for a navigator whose grid is [r]. *)
Definition storeGetGrid (r : GridRef) (s : Store) : GridRef * Store :=
  let '(gridCopy, s1) := storeNewGrid (refWidth r) (refHeight r) s in
  (gridCopy, fold_left (storeCopyRow3 r gridCopy) (seqZ 0 (refHeight r)) s1).

(** The store that holds the navigator grid [g] and nothing else, laid
    out by [NewGrid]'s allocation followed by the cell contents of [g];
    used to exhibit concrete stores. *)
Definition storeOfGrid (g : Grid) : GridRef * Store :=
  let '(r, s) := storeNewGrid (Width g) (Height g) ∅ in
  let put {A} (mk : list A → Cells) (outer : loc) (m : list (list A))
          (s : Store) : Store :=
    fold_left (λ s '(l, row), <[l := mk row]> s)
              (zip (default [] (rowLocs s outer)) m) s in
  (r, put TypeCells (refCellTypes r) (CellTypes g)
        (put IntCells (refDistances r) (Distances g)
           (put DirCells (refFlowField r) (FlowField g)
              (put IntCells (refCosts r) (Costs g) s)))).

(** [copy(dst[y], src[y])] on values. *)
Definition copyRowAt {A} (src dst : list (list A)) (y : Z) : list (list A) :=
  <[Z.to_nat y := copy (default [] (dst !! Z.to_nat y))
                       (default [] (src !! Z.to_nat y))]> dst.

(** In store [s] the outer slice at [outer] refers to the rows [rows],
    which hold the contents [m]. *)
Definition sliceAt {A} (mk : list A → Cells) (s : Store) (outer : loc)
    (rows : list loc) (m : list (list A)) : Prop :=
  s !! outer = Some (RowCells rows) ∧
  Forall2 (λ l row, s !! l = Some (mk row)) rows m.

(** A grid with a classified cell: [NewGrid 2 1] after [SetObstacle] at
    (1,0), as the grid of a navigator, and a store that holds it. *)
Definition navTyped : FlowFieldNavigator :=
  applyOps nav2 [OpSetObstacle (mkPos 1 0)].

Definition storeTyped : GridRef * Store := storeOfGrid (grid navTyped).

(** ** Walks from the goal

    [reach cfg g0 goalPos p L]: some walk from the goal to [p] along
    configured directions, through passable cells of [g0], costs [L] in
    all (as a mathematical integer). *)
Inductive reach (cfg : Config) (g0 : Grid) (goalPos : Position)
  : Position → Z → Prop :=
  | reach_goal : reach cfg g0 goalPos goalPos 0
  | reach_step u L dir :
      reach cfg g0 goalPos u L →
      dir ∈ Directions cfg →
      IsPassable g0 (stepPos u dir) = true →
      reach cfg g0 goalPos (stepPos u dir)
            (L + moveCost cfg dir (costAt g0 (stepPos u dir))).

Definition sameCosts (g0 g : Grid) : Prop :=
  Width g = Width g0 ∧ Height g = Height g0 ∧ Costs g = Costs g0.

(** No step out of [u] would lower a recorded distance. *)
Definition relaxedAt (cfg : Config) (g0 g : Grid) (u : Position) : Prop :=
  ∀ dir, dir ∈ Directions cfg → IsPassable g0 (stepPos u dir) = true →
    distAt g (stepPos u dir)
      <= distAt g u + moveCost cfg dir (costAt g0 (stepPos u dir)).

(** Every distance below [MaxInt32] is the cost of a walk, and its cell
    is either still queued or has all its steps relaxed. *)
Definition settledInv (cfg : Config) (g0 : Grid) (goalPos : Position)
    (st : RelaxState) : Prop :=
  sameCosts g0 (fst st) ∧
  (∀ p, inBounds g0 p → distAt (fst st) p < MaxInt32 →
        reach cfg g0 goalPos p (distAt (fst st) p)) ∧
  (∀ p, inBounds g0 p → distAt (fst st) p < MaxInt32 →
        p ∈ snd st ∨ relaxedAt cfg g0 (fst st) p).

(** [nav2] with the goal (0,0) set by [SetGoal]. *)
Definition nav2Set : FlowFieldNavigator := fst (SetGoal nav2 (mkPos 0 0)).

(** ** Dyadic numbers

    The finite binary64 numbers are the dyadic numbers [m * 2 ^ e]; to
    compare the results of rounding they are handled as pairs [(m, e)]
    of integers. *)

(** [m1 * 2 ^ e1 <= m2 * 2 ^ e2], over the common exponent. *)
Definition dle (m1 e1 m2 e2 : Z) : Prop :=
  m1 * 2 ^ (e1 - Z.min e1 e2) <= m2 * 2 ^ (e2 - Z.min e1 e2).

(** The integer part of [m * 2 ^ e] for [0 <= m]. *)
Definition dfloor (m e : Z) : Z :=
  if 0 <=? e then m * 2 ^ e else m / 2 ^ (- e).

(** [m / 2 ^ n] rounded to the nearest integer, ties to even. *)
Definition rne (m n : Z) : Z :=
  let q := m / 2 ^ n in
  match 2 * (m mod 2 ^ n) ?= 2 ^ n with
  | Lt => q
  | Gt => q + 1
  | Eq => if Z.even q then q else q + 1
  end.

(** [m * 2 ^ e / 2 ^ E] rounded to the nearest integer, ties to even. *)
Definition rneAt (E m e : Z) : Z :=
  if E <=? e then m * 2 ^ (e - E) else rne m (E - e).

(** The exponent binary64 gives to a number of magnitude [mag], i.e. in
    [[2 ^ (mag - 1), 2 ^ mag)]. *)
Definition fexp64 (mag : Z) : Z := Z.max (mag - 53) (-1074).

Definition magnitude (m : positive) (e : Z) : Z := Z.pos (Pos.size m) + e.

(** The rounding of the positive dyadic [(m, e)] to binary64, as a
    dyadic: mantissa and exponent. *)
Definition roundMant (m : positive) (e : Z) : Z :=
  rneAt (fexp64 (magnitude m e)) (Z.pos m) e.
Definition roundExp (m : positive) (e : Z) : Z := fexp64 (magnitude m e).

(** A non-negative finite binary64 number [x] is the dyadic
    [m * 2 ^ e]. *)
Definition represents (x : spec_float) (m e : Z) : Prop :=
  match x with
  | S754_zero false => m = 0
  | S754_finite false mr er => e <= er ∧ Z.pos mr * 2 ^ (er - e) = m
  | _ => False
  end.

(** [int(float64(c) * d)], the scaling of [computeFlowField]. *)
Definition scaleCost (d : Float64.float64) (c : Z) : Z :=
  Float64.to_int (Float64.mul (Float64.of_int c) d).

(** ** Following the flow

    One move of an agent that asks [GetFlowDirection] where to go from
    [p] and steps there; it stays where it is when the answer is an
    error. *)
Definition flowStep (f : FlowFieldNavigator) (p : Position) : Position :=
  match GetFlowDirection f p with
  | (d, None) => stepPos p d
  | (_, Some _) => p
  end.

Definition followFlow (f : FlowFieldNavigator) (n : nat) (p : Position)
  : Position :=
  Nat.iter n (flowStep f) p.

(** Every step into a passable cell costs at least 1 and at most
    [max_int64 - MaxInt32]. *)
Definition stepCostsPositive (cfg : Config) (g : Grid) : Prop :=
  ∀ dir pos, dir ∈ Directions cfg → IsPassable g pos = true →
    1 <= moveCost cfg dir (costAt g pos) <= max_int64 - MaxInt32.

Definition stepCostsPositiveb (cfg : Config) (g : Grid) : bool :=
  forallb (λ pos,
    negb (IsPassable g pos) ||
    forallb (λ dir,
      let c := moveCost cfg dir (costAt g pos) in
      (1 <=? c) && (c <=? max_int64 - MaxInt32)) (Directions cfg))
    (allPositions (Width g) (Height g)).

Definition oppositeDir (d : Direction) : Direction :=
  mkDir (- DirX d) (- DirY d).

(** With every configured direction its opposite is configured, as in
    [FourWayDirections] and [EightWayDirections]. *)
Definition symmetricDirections (cfg : Config) : Prop :=
  ∀ dir, dir ∈ Directions cfg → oppositeDir dir ∈ Directions cfg.

(** The dimensions are values of type [int]. *)
Definition intDims (g : Grid) : Prop :=
  Width g <= max_int64 ∧ Height g <= max_int64.

(** The binary64 values that are not [<= 0]: the positive ones, finite
    or infinite, and NaN, which compares false with everything. *)
Definition positiveOrNaN (x : float64) : Prop :=
  match x with
  | S754_nan | S754_infinity false | S754_finite false _ _ => True
  | _ => False
  end.

(** ** systems/building.go

    The turrets and the building system, as far as the navigation is
    concerned.  Of [TurretSystem] only the field [Turrets] is kept, and
    of [BuildingSystem] the fields [turretSystem] and [navigator]: the
    others are read by the drawing and shooting code only. *)

Record Turret := mkTurret {
  PositionX : Z;
  PositionY : Z;
  AttackRange : Z;
  AttackSpeed : float64
}.

(** The constant [1.0]. *)
Definition lit_1_0 : float64 := S754_finite false 4503599627370496 (-52).

Record TurretSystem := mkTurretSystem { Turrets : list Turret }.

Record BuildingSystem := mkBuildingSystem {
  turretSystem : TurretSystem;
  navigator : FlowFieldNavigator
}.

(** [make([][]int, grid.Height)], each row made of [grid.Width] zeros and
    then overwritten by [copy(costs[y], grid.Costs[y])]. *)
Definition copiedCosts (g : Grid) : list (list Z) :=
  map (λ y, copy (replicate (Z.to_nat (Width g)) 0)
                 (default [] (Costs g !! Z.to_nat y)))
      (seqZ 0 (Height g)).

(** Body of the turret loop of [updateNavigationCosts], on the local
    cost matrix and the grid copy.  The test of the source has no lower
    bound: a negative coordinate passes it and the index expression then
    panics, which is [None]. *)
Definition markTurret (st : list (list Z) * Grid) (t : Turret)
  : option (list (list Z) * Grid) :=
  let '(costs, g) := st in
  if (PositionX t <? Width g) && (PositionY t <? Height g) then
    if (PositionX t <? 0) || (PositionY t <? 0) then None
    else Some (set2 costs (PositionY t) (PositionX t) (-1),
               fst (SetBuilding g (mkPos (PositionX t) (PositionY t))))
  else Some st.

Fixpoint markTurrets (ts : list Turret) (st : list (list Z) * Grid)
  : option (list (list Z) * Grid) :=
  match ts with
  | [] => Some st
  | t :: ts' =>
      match markTurret st t with
      | Some st' => markTurrets ts' st'
      | None => None
      end
  end.

(** [updateNavigationCosts]; the error of [UpdateCosts] is dropped, as
    in the source. *)
Definition updateNavigationCosts (bs : BuildingSystem)
  : option BuildingSystem :=
  let g := GetGrid (navigator bs) in
  match markTurrets (Turrets (turretSystem bs)) (copiedCosts g, g) with
  | Some (costs, _) =>
      Some (mkBuildingSystem (turretSystem bs)
              (fst (UpdateCosts (navigator bs) costs)))
  | None => None
  end.

(** The loop of [PlaceBuilding] over the turrets: is there one at
    ([gridX], [gridY])? *)
Definition turretAt (ts : list Turret) (gridX gridY : Z) : bool :=
  existsb (λ t, (PositionX t =? gridX) && (PositionY t =? gridY)) ts.

Definition PlaceBuilding (bs : BuildingSystem) (gridX gridY : Z)
  : option (bool * BuildingSystem) :=
  let pos := mkPos gridX gridY in
  if negb (IsValidPosition (GetGrid (navigator bs)) pos)
  then Some (false, bs)
  else if negb (IsPassable (GetGrid (navigator bs)) pos)
  then Some (false, bs)
  else if turretAt (Turrets (turretSystem bs)) gridX gridY
  then Some (false, bs)
  else
    let turret := mkTurret gridX gridY 3 lit_1_0 in
    let bs1 := mkBuildingSystem
                 (mkTurretSystem (Turrets (turretSystem bs) ++ [turret]))
                 (navigator bs) in
    match updateNavigationCosts bs1 with
    | Some bs2 => Some (true, bs2)
    | None => None
    end.

(** Every turret stands on a cell of the navigator's grid. *)
Definition turretsOnGrid (bs : BuildingSystem) : Prop :=
  ∀ t, t ∈ Turrets (turretSystem bs) →
    inBounds (grid (navigator bs)) (mkPos (PositionX t) (PositionY t)).

(** ** main.go: start-up

    [Width] and [Height] are the package variables of [main]; the
    navigator is the package variable [navigator]. *)

(** The cells visited by [for x := 4; x <= 6; x++ { for y := 4; y <= 6;
    y++ {...} }], in order. *)
Definition wallCells : list Position :=
  x ← seqZ 4 3; y ← seqZ 4 3; [mkPos x y].

(** [setupObstacles].  [None] is a panic: [make] with a negative
    length, or [grid.Costs[y]] read past the rows of the grid.  An error
    of [UpdateCosts] is logged and otherwise ignored. *)
Definition setupObstacles (Width Height : Z) (navigator : FlowFieldNavigator)
  : option FlowFieldNavigator :=
  let g := GetGrid navigator in
  if (Height <? 0) || ((0 <? Height) && (Width <? 0)) then None
  else if Z.of_nat (length (Costs g)) <? Height then None
  else
    let costs :=
      map (λ y, copy (replicate (Z.to_nat Width) 0)
                     (default [] (Costs g !! Z.to_nat y)))
          (seqZ 0 Height) in
    let costs :=
      fold_left (λ costs p,
                   if (PosX p <? Width) && (PosY p <? Height)
                   then set2 costs (PosY p) (PosX p) (-1) else costs)
                wallCells costs in
    Some (fst (UpdateCosts navigator costs)).

(** How the start of [main] ends: with the navigator the main loop runs
    on, in [log.Fatal], or in a panic. *)
Inductive Startup :=
  | Running (navigator : FlowFieldNavigator)
  | Fatal (err : error)
  | Panicked.

(** [main] up to the creation of the window. *)
Definition startup (Width Height : Z) : Startup :=
  match NewFlowFieldNavigator (EightWayConfig Width Height) with
  | (_, Some err) => Fatal err
  | (None, None) => Panicked
  | (Some navigator, None) =>
      match setupObstacles Width Height navigator with
      | None => Panicked
      | Some navigator =>
          match SetGoal navigator (mkPos 7 2) with
          | (_, Some err) => Fatal err
          | (navigator, None) => Running navigator
          end
      end
  end.

Definition inWall (p : Position) : bool :=
  (4 <=? PosX p) && (PosX p <=? 6) && (4 <=? PosY p) && (PosY p <=? 6).

(** The navigator the main loop runs on with the package variables as
    the source sets them: [Width, Height = 10, 10]. *)
Definition navShipped : FlowFieldNavigator :=
  match startup 10 10 with Running nav => nav | _ => nav5 end.

(** The navigator [f] with the field [AllowCornerCutting] of its
    configuration set to [b]. *)
Definition withCornerCutting (f : FlowFieldNavigator) (b : bool)
  : FlowFieldNavigator :=
  mkNav (mkConfig (GridWidth (config f)) (GridHeight (config f))
                  (Directions (config f)) (DiagonalCost (config f)) b)
        (grid f) (goal f) (isGoalSet f).

(** Two rows of two cells with the costs [[1, -1], [-1, 1]], so that
    (0,0) and (1,1) touch by a corner between two impassable cells;
    corner cutting is switched off in the configuration. *)
Definition navCorner : FlowFieldNavigator :=
  withCornerCutting (fst (UpdateCosts nav22 [[1; -1]; [-1; 1]])) false.

(** [nav2] with the costs [[1, 0]] and the goal (0,0) set: the cell next
    to the goal is free to enter. *)
Definition navFree : FlowFieldNavigator :=
  fst (SetGoal (fst (UpdateCosts nav2 [[1; 0]])) (mkPos 0 0)).

(** Building systems on [nav2Set]: one without turrets, and one whose
    only turret has a negative coordinate. *)
Definition bsFresh : BuildingSystem :=
  mkBuildingSystem (mkTurretSystem []) nav2Set.

Definition bsNegative : BuildingSystem :=
  mkBuildingSystem (mkTurretSystem [mkTurret (-1) 0 3 lit_1_0]) nav2Set.

(* ================================================================== *)
(** * Properties *)
(* ================================================================== *)

(** ** Two-dimensional slices *)

Section Slice2Facts.
Context {A : Type}.
Implicit Types (m : list (list A)) (y x : Z) (v d : A).

Lemma get2_set2_eq d m y x v rows cols :
  shape2 rows cols m → 0 <= y < rows → 0 <= x < cols →
  get2 d (set2 m y x v) y x = v.
Proof.
  intros [Hlen Hrows] Hy Hx. unfold get2, set2.
  rewrite list_lookup_alter_eq.
  destruct (m !! Z.to_nat y) as [row|] eqn:Hrow; simpl.
  - rewrite list_lookup_insert_eq; [done|].
    rewrite Forall_lookup in Hrows. rewrite (Hrows _ _ Hrow). lia.
  - apply lookup_ge_None in Hrow. lia.
Qed.

Lemma get2_set2_ne d m y x v y' x' :
  0 <= y → 0 <= x → 0 <= y' → 0 <= x' → (y, x) ≠ (y', x') →
  get2 d (set2 m y x v) y' x' = get2 d m y' x'.
Proof.
  intros Hy Hx Hy' Hx' Hne. unfold get2, set2.
  destruct (decide (Z.to_nat y = Z.to_nat y')) as [Heq|Hney].
  - rewrite <- Heq, list_lookup_alter_eq.
    destruct (m !! Z.to_nat y) as [row|]; simpl; [|done].
    rewrite list_lookup_insert_ne; [done|].
    intros Hx2. apply Hne. f_equal; lia.
  - by rewrite list_lookup_alter_ne.
Qed.

Lemma shape2_set2 m y x v rows cols :
  shape2 rows cols m → shape2 rows cols (set2 m y x v).
Proof.
  intros [Hlen Hrows]. split; unfold set2.
  - by rewrite length_alter.
  - apply Forall_alter; [done|]. intros row _ Hrow. by rewrite length_insert.
Qed.

Lemma shape2_make2 (z : A) width height :
  shape2 height width (make2 z width height).
Proof.
  split; unfold make2.
  - by rewrite length_replicate.
  - apply Forall_replicate. by rewrite length_replicate.
Qed.

Lemma get2_make2 d (z : A) width height y x :
  0 <= y < height → 0 <= x < width → get2 d (make2 z width height) y x = z.
Proof.
  intros Hy Hx. unfold get2, make2.
  rewrite lookup_replicate_2 by lia. simpl.
  by rewrite lookup_replicate_2 by lia.
Qed.

(** Two slices of the same shape that agree cell by cell are equal. *)
Lemma shape2_ext d m m' rows cols :
  shape2 rows cols m → shape2 rows cols m' →
  (∀ y x, 0 <= y < rows → 0 <= x < cols → get2 d m y x = get2 d m' y x) →
  m = m'.
Proof.
  intros [Hlen Hrows] [Hlen' Hrows'] Hget.
  apply list_eq_same_length with (n := length m); [congruence|done|].
  intros i r r' Hi Hr Hr'.
  rewrite Forall_lookup in Hrows. rewrite Forall_lookup in Hrows'.
  apply list_eq_same_length with (n := length r);
    [rewrite (Hrows _ _ Hr), (Hrows' _ _ Hr'); done|done|].
  intros j a a' Hj Ha Ha'.
  specialize (Hget (Z.of_nat i) (Z.of_nat j)).
  unfold get2 in Hget. rewrite !Nat2Z.id, Hr, Hr' in Hget. simpl in Hget.
  rewrite Ha, Ha' in Hget. simpl in Hget. apply Hget.
  - lia.
  - rewrite (Hrows _ _ Hr) in Hj. lia.
Qed.

Lemma copy_same_length (dst src : list A) :
  length dst = length src → copy dst src = src.
Proof.
  intros Hlen. unfold copy.
  rewrite Hlen, firstn_all, drop_ge by lia. by rewrite app_nil_r.
Qed.

Lemma length_copy (dst src : list A) : length (copy dst src) = length dst.
Proof. unfold copy. rewrite length_app, length_take, length_drop. lia. Qed.

End Slice2Facts.

(** ** Grids: bounds, reads after writes, well-formedness *)

Lemma IsValidPosition_inBounds g p :
  IsValidPosition g p = true ↔ inBounds g p.
Proof. unfold IsValidPosition, inBounds. rewrite !andb_true_iff. lia. Qed.

Lemma IsValidPosition_false g p :
  IsValidPosition g p = false ↔ ¬ inBounds g p.
Proof. rewrite <- IsValidPosition_inBounds. by destruct (IsValidPosition g p). Qed.

Lemma IsPassable_spec g p :
  IsPassable g p = true ↔ inBounds g p ∧ costAt g p ≠ -1.
Proof.
  unfold IsPassable. rewrite <- IsValidPosition_inBounds.
  destruct (IsValidPosition g p); simpl; [|intuition congruence].
  rewrite negb_true_iff, Z.eqb_neq. tauto.
Qed.

Lemma IsPassable_inBounds g p : IsPassable g p = true → inBounds g p.
Proof. intros H. by apply IsPassable_spec in H as [? _]. Qed.

Lemma position_eq p q : PosX p = PosX q → PosY p = PosY q → p = q.
Proof. destruct p, q; simpl; congruence. Qed.

Lemma elem_of_allPositions p w h :
  p ∈ allPositions w h ↔ 0 <= PosX p < w ∧ 0 <= PosY p < h.
Proof.
  unfold allPositions. rewrite list_elem_of_bind. split.
  - intros (y & Hx & Hy). apply list_elem_of_bind in Hx as (x & Hp & Hx).
    apply list_elem_of_singleton in Hp as ->. simpl.
    apply elem_of_seqZ in Hx. apply elem_of_seqZ in Hy. lia.
  - intros [Hx Hy]. exists (PosY p). split; [|apply elem_of_seqZ; lia].
    apply list_elem_of_bind. exists (PosX p).
    split; [|apply elem_of_seqZ; lia].
    apply list_elem_of_singleton. by destruct p.
Qed.

Lemma wf_NewGrid w h : wf_grid (NewGrid w h).
Proof. unfold wf_grid; simpl. split_and!; apply shape2_make2. Qed.

Lemma wf_setDistance g p v : wf_grid g → wf_grid (setDistance g p v).
Proof.
  intros (?&?&?&?). unfold wf_grid; simpl.
  split_and!; try apply shape2_set2; done.
Qed.

Lemma wf_setFlow g p v : wf_grid g → wf_grid (setFlow g p v).
Proof.
  intros (?&?&?&?). unfold wf_grid; simpl.
  split_and!; try apply shape2_set2; done.
Qed.

Lemma wf_setCost g p v : wf_grid g → wf_grid (setCost g p v).
Proof.
  intros (?&?&?&?). unfold wf_grid; simpl.
  split_and!; try apply shape2_set2; done.
Qed.

Lemma wf_setCellType g p v : wf_grid g → wf_grid (setCellType g p v).
Proof.
  intros (?&?&?&?). unfold wf_grid; simpl.
  split_and!; try apply shape2_set2; done.
Qed.

Lemma position_neq p q : p ≠ q → (PosY p, PosX p) ≠ (PosY q, PosX q).
Proof. intros Hne [=]. apply Hne. by apply position_eq. Qed.

Lemma distAt_setDistance_eq g p v :
  wf_grid g → inBounds g p → distAt (setDistance g p v) p = v.
Proof.
  intros (_&_&Hd&_) [Hx Hy]. unfold distAt, setDistance. simpl.
  by eapply get2_set2_eq.
Qed.

Lemma distAt_setDistance_ne g p q v :
  inBounds g p → inBounds g q → p ≠ q →
  distAt (setDistance g p v) q = distAt g q.
Proof.
  intros [Hx Hy] [Hx' Hy'] Hne. unfold distAt, setDistance. simpl.
  apply get2_set2_ne; try lia. by apply position_neq.
Qed.

Lemma flowAt_setFlow_eq g p v :
  wf_grid g → inBounds g p → flowAt (setFlow g p v) p = v.
Proof.
  intros (_&Hf&_&_) [Hx Hy]. unfold flowAt, setFlow. simpl.
  by eapply get2_set2_eq.
Qed.

Lemma flowAt_setFlow_ne g p q v :
  inBounds g p → inBounds g q → p ≠ q →
  flowAt (setFlow g p v) q = flowAt g q.
Proof.
  intros [Hx Hy] [Hx' Hy'] Hne. unfold flowAt, setFlow. simpl.
  apply get2_set2_ne; try lia. by apply position_neq.
Qed.

Lemma costAt_setCost_eq g p v :
  wf_grid g → inBounds g p → costAt (setCost g p v) p = v.
Proof.
  intros (Hc&_&_&_) [Hx Hy]. unfold costAt, setCost. simpl.
  by eapply get2_set2_eq.
Qed.

Lemma costAt_setCost_ne g p q v :
  inBounds g p → inBounds g q → p ≠ q →
  costAt (setCost g p v) q = costAt g q.
Proof.
  intros [Hx Hy] [Hx' Hy'] Hne. unfold costAt, setCost. simpl.
  apply get2_set2_ne; try lia. by apply position_neq.
Qed.

Lemma typeAt_setCellType_eq g p v :
  wf_grid g → inBounds g p → typeAt (setCellType g p v) p = v.
Proof.
  intros (_&_&_&Ht) [Hx Hy]. unfold typeAt, setCellType. simpl.
  by eapply get2_set2_eq.
Qed.

Lemma typeAt_setCellType_ne g p q v :
  inBounds g p → inBounds g q → p ≠ q →
  typeAt (setCellType g p v) q = typeAt g q.
Proof.
  intros [Hx Hy] [Hx' Hy'] Hne. unfold typeAt, setCellType. simpl.
  apply get2_set2_ne; try lia. by apply position_neq.
Qed.

Lemma stepCostsOKb_sound cfg g : stepCostsOKb cfg g = true → stepCostsOK cfg g.
Proof.
  unfold stepCostsOKb. rewrite forallb_forall. intros H dir pos Hdir Hpass.
  assert (Hin : In pos (allPositions (Width g) (Height g))).
  { apply list_elem_of_In, elem_of_allPositions.
    apply IsPassable_inBounds in Hpass. destruct Hpass. split; lia. }
  specialize (H pos Hin). rewrite Hpass in H. simpl in H.
  rewrite forallb_forall in H.
  specialize (H dir (proj1 (list_elem_of_In _ _) Hdir)).
  simpl in H. lia.
Qed.

(** ** Machine arithmetic *)

Lemma wrap64_range z : min_int64 <= wrap64 z <= max_int64.
Proof.
  unfold wrap64, min_int64, max_int64.
  pose proof (Z.mod_pos_bound (z + 2 ^ 63) (2 ^ 64)). lia.
Qed.

Lemma wrap64_id z : min_int64 <= z <= max_int64 → wrap64 z = z.
Proof.
  unfold wrap64, min_int64, max_int64. intros H.
  rewrite Z.mod_small; lia.
Qed.

Lemma add64_exact a b :
  0 <= a <= MaxInt32 → 0 <= b <= max_int64 - MaxInt32 → add64 a b = a + b.
Proof.
  intros Ha Hb. apply wrap64_id. unfold min_int64, max_int64, MaxInt32 in *. lia.
Qed.

(** ** Loops as folds *)

Lemma fold_left_prefix_ind {A B} (f : A → B → A) (P : list B → A → Prop)
    (l : list B) (a : A) :
  P [] a →
  (∀ pre x suf a', l = pre ++ x :: suf → P pre a' → P (pre ++ [x]) (f a' x)) →
  P l (fold_left f l a).
Proof.
  intros Hnil Hstep.
  enough (H : ∀ suf pre a', l = pre ++ suf → P pre a' →
                            P (pre ++ suf) (fold_left f suf a')).
  { apply (H l [] a); done. }
  induction suf as [|x suf IH]; intros pre a' Hl Hpre; simpl.
  - by rewrite app_nil_r.
  - replace (pre ++ x :: suf) with ((pre ++ [x]) ++ suf)
      by (by rewrite <- app_assoc).
    apply IH; [by rewrite <- app_assoc|]. by eapply Hstep.
Qed.

Lemma fold_left_ind {A B} (f : A → B → A) (P : A → Prop) (l : list B) (a : A) :
  P a → (∀ x a', x ∈ l → P a' → P (f a' x)) → P (fold_left f l a).
Proof.
  intros Ha Hstep.
  apply (fold_left_prefix_ind f (λ _, P)); [done|].
  intros pre x suf a' -> Hp. apply Hstep; [|done].
  apply elem_of_app. right. left.
Qed.

(** ** Phase 1 *)

Section Phase1.
Variable cfg : Config.

(** The two outcomes of the body of the direction loop. *)
Lemma relaxDir_cases current currentDist g queue dir :
  let next := stepPos current dir in
  let newDist := add64 currentDist (moveCost cfg dir (costAt g next)) in
  (relaxDir cfg current currentDist (g, queue) dir = (g, queue) ∧
   (IsPassable g next = false ∨ distAt g next <= newDist)) ∨
  (relaxDir cfg current currentDist (g, queue) dir
     = (setDistance g next newDist, queue ++ [next]) ∧
   IsPassable g next = true ∧ newDist < distAt g next).
Proof.
  intros next newDist. unfold relaxDir. fold next.
  destruct (IsPassable g next) eqn:Hpass.
  - assert (IsValidPosition g next = true) as ->.
    { by apply IsValidPosition_inBounds, IsPassable_inBounds. }
    simpl. fold newDist.
    destruct (Z.ltb_spec newDist (distAt g next)); [right|left]; auto.
  - left. split; [|auto]. by rewrite orb_true_r.
Qed.

Lemma IsPassable_setDistance g p v q :
  IsPassable (setDistance g p v) q = IsPassable g q.
Proof. reflexivity. Qed.

Lemma relaxDir_inv current currentDist st dir :
  relaxInv st → relaxInv (relaxDir cfg current currentDist st dir).
Proof.
  destruct st as [g queue]. intros Hinv.
  destruct (relaxDir_cases current currentDist g queue dir)
    as [[-> _]|(-> & Hpass & Hlt)]; [done|].
  destruct Hinv as (Hwf & Hrange & Himp & Hq).
  set (next := stepPos current dir) in *.
  set (newDist := add64 _ _) in *.
  pose proof (IsPassable_inBounds _ _ Hpass) as Hnb.
  assert (Hget : ∀ p, inBounds g p →
    distAt (setDistance g next newDist) p
      = if decide (p = next) then newDist else distAt g p).
  { intros p Hp. case_decide as Heq.
    - subst p. by apply distAt_setDistance_eq.
    - apply distAt_setDistance_ne; auto. }
  split_and!.
  - by apply wf_setDistance.
  - intros p Hp. rewrite (Hget p Hp). case_decide; [|auto].
    pose proof (wrap64_range (currentDist + moveCost cfg dir (costAt g next))).
    specialize (Hrange next Hnb). unfold newDist, add64 in *. lia.
  - intros p Hp Hpp. rewrite (Hget p Hp). case_decide; [|auto].
    subst p. rewrite IsPassable_setDistance in Hpp. congruence.
  - intros p Hp. rewrite IsPassable_setDistance.
    apply elem_of_app in Hp as [Hp|Hp].
    + destruct (Hq p Hp) as [Hpp Hd]. split; [done|].
      rewrite (Hget p (IsPassable_inBounds _ _ Hpp)).
      case_decide; [|done]. subst p. lia.
    + apply list_elem_of_singleton in Hp as ->. split; [done|].
      rewrite (Hget next Hnb). rewrite decide_True by done.
      specialize (Hrange next Hnb). lia.
Qed.

Lemma relaxInv_pop g current queue :
  relaxInv (g, current :: queue) → relaxInv (g, queue).
Proof.
  intros (?&?&?&Hq). split_and!; try done.
  intros p Hp. apply Hq. by right.
Qed.

Lemma relaxStep_inv st : relaxInv st → relaxInv (relaxStep cfg st).
Proof.
  destruct st as [g [|current queue]]; [done|]. intros Hinv. simpl.
  apply fold_left_ind; [by eapply relaxInv_pop|].
  intros dir st' _. apply relaxDir_inv.
Qed.

(** Whatever one iteration preserves, the whole loop preserves. *)
Lemma relaxLoop_ind (P : RelaxState → Prop) :
  (∀ st, P st → P (relaxStep cfg st)) →
  ∀ n st, P st → P (relaxLoop cfg n st).
Proof.
  intros Hstep. induction n as [|n IH]; intros st Hst; simpl.
  - destruct (queueEmpty st); auto.
  - destruct (queueEmpty st); auto.
Qed.

End Phase1.

Section Phase1Costs.
Variable cfg : Config.
Variable goalPos : Position.

Lemma distAt_setDistance g p v q :
  wf_grid g → inBounds g p → inBounds g q →
  distAt (setDistance g p v) q = if decide (q = p) then v else distAt g q.
Proof.
  intros Hwf Hp Hq. case_decide as Heq.
  - subst q. by apply distAt_setDistance_eq.
  - apply distAt_setDistance_ne; auto.
Qed.

Lemma relaxDir_sameFrame g0 current currentDist st dir :
  sameFrame g0 (fst st) →
  sameFrame g0 (fst (relaxDir cfg current currentDist st dir)).
Proof.
  destruct st as [g queue].
  destruct (relaxDir_cases cfg current currentDist g queue dir)
    as [[-> _]|(-> & _)]; done.
Qed.

Lemma relaxStep_sameFrame g0 st :
  sameFrame g0 (fst st) → sameFrame g0 (fst (relaxStep cfg st)).
Proof.
  destruct st as [g [|current queue]]; [done|]. intros Hfr. simpl.
  apply (fold_left_ind _ (λ st, sameFrame g0 (fst st))); [done|].
  intros dir st' _. apply relaxDir_sameFrame.
Qed.

Lemma relaxDir_costInv current currentDist st dir :
  dir ∈ Directions cfg → inBounds (fst st) goalPos →
  0 <= currentDist <= MaxInt32 →
  relaxInv st → costInv cfg goalPos st →
  costInv cfg goalPos (relaxDir cfg current currentDist st dir).
Proof.
  destruct st as [g queue]. intros Hdir Hgoal Hd Hinv Hcost.
  destruct (relaxDir_cases cfg current currentDist g queue dir)
    as [[-> _]|(-> & Hpass & Hlt)]; [done|].
  destruct Hinv as (Hwf & _). destruct Hcost as (Hok & Hnn & Hg).
  simpl in *.
  set (next := stepPos current dir) in *.
  pose proof (IsPassable_inBounds _ _ Hpass) as Hnb.
  pose proof (Hok dir next Hdir Hpass) as Hw.
  rewrite add64_exact in * by done.
  unfold costInv; simpl. split_and!.
  - exact Hok.
  - intros p Hp. rewrite distAt_setDistance by done.
    case_decide; [lia|by apply Hnn].
  - rewrite distAt_setDistance by done.
    case_decide as Heq; [|done]. rewrite Heq in Hg. lia.
Qed.

Lemma relaxStep_costInv st :
  inBounds (fst st) goalPos →
  relaxInv st → costInv cfg goalPos st →
  relaxInv (relaxStep cfg st) ∧ costInv cfg goalPos (relaxStep cfg st) ∧
  inBounds (fst (relaxStep cfg st)) goalPos.
Proof.
  destruct st as [g [|current queue]]; [done|]. simpl.
  intros Hgoal Hinv Hcost.
  assert (Hd : 0 <= distAt g current <= MaxInt32).
  { destruct Hinv as (_ & Hrange & _ & Hq).
    destruct (Hq current) as [Hp _]; [by left|].
    apply IsPassable_inBounds in Hp. destruct Hcost as (_ & Hnn & _).
    specialize (Hrange _ Hp). specialize (Hnn _ Hp). simpl in *. lia. }
  apply (fold_left_ind _
    (λ st, relaxInv st ∧ costInv cfg goalPos st ∧ inBounds (fst st) goalPos)).
  - split_and!; [by eapply relaxInv_pop|done|done].
  - intros dir st' Hdir (Hi & Hc & Hb). split_and!.
    + by apply relaxDir_inv.
    + by apply relaxDir_costInv.
    + destruct (relaxDir_sameFrame (fst st') current (distAt g current) st' dir)
        as (HW & HH & _); [done|].
      unfold inBounds in *. rewrite HW, HH. done.
Qed.

End Phase1Costs.

(** ** The variant of the propagation loop *)

Lemma sumZ_insert (f : Z → Z) (l : list Z) i old v :
  l !! i = Some old →
  sumZ (map f (<[i:=v]> l)) = sumZ (map f l) - f old + f v.
Proof.
  revert i. induction l as [|a l IH]; intros [|i] Hi; simplify_eq/=.
  - unfold sumZ; simpl. lia.
  - unfold sumZ in *; simpl. rewrite (IH i Hi). lia.
Qed.

Lemma sumZ_alter {A} (F : A → Z) (h : A → A) (m : list A) i row :
  m !! i = Some row →
  sumZ (map F (alter h i m)) = sumZ (map F m) - F row + F (h row).
Proof.
  revert i. induction m as [|a m IH]; intros [|i] Hi; simplify_eq/=.
  - unfold sumZ; simpl. lia.
  - unfold sumZ in *; simpl. rewrite (IH i Hi). lia.
Qed.

Lemma sumZ_nonneg l : Forall (λ z, 0 <= z) l → 0 <= sumZ l.
Proof. induction 1; unfold sumZ in *; simpl; lia. Qed.

Lemma sumZ_le_const l b :
  Forall (λ z, z <= b) l → sumZ l <= Z.of_nat (length l) * b.
Proof. induction 1; unfold sumZ in *; simpl length; simpl foldr; lia. Qed.

Lemma shape2_lookup {A} (d : A) (m : list (list A)) rows cols i j row a :
  shape2 rows cols m → m !! i = Some row → row !! j = Some a →
  0 <= Z.of_nat i < rows ∧ 0 <= Z.of_nat j < cols ∧
  get2 d m (Z.of_nat i) (Z.of_nat j) = a.
Proof.
  intros [Hlen Hrows] Hr Ha.
  pose proof (lookup_lt_Some _ _ _ Hr). pose proof (lookup_lt_Some _ _ _ Ha).
  rewrite Forall_lookup in Hrows. rewrite (Hrows _ _ Hr) in *.
  split_and!; try lia.
  unfold get2. rewrite !Nat2Z.id, Hr. simpl. by rewrite Ha.
Qed.

Lemma shape2_Forall {A} (d : A) (P : A → Prop) (m : list (list A)) rows cols :
  shape2 rows cols m →
  (∀ y x, 0 <= y < rows → 0 <= x < cols → P (get2 d m y x)) →
  Forall (Forall P) m.
Proof.
  intros Hsh HP. apply Forall_lookup. intros i row Hr.
  apply Forall_lookup. intros j a Ha.
  destruct (shape2_lookup d m rows cols i j row a) as (Hi & Hj & <-); auto.
Qed.

Lemma get2_lookup {A} (d : A) (m : list (list A)) rows cols y x :
  shape2 rows cols m → 0 <= y < rows → 0 <= x < cols →
  ∃ row, m !! Z.to_nat y = Some row ∧
         row !! Z.to_nat x = Some (get2 d m y x).
Proof.
  intros [Hlen Hrows] Hy Hx.
  destruct (lookup_lt_is_Some_2 m (Z.to_nat y)) as [row Hr]; [lia|].
  rewrite Forall_lookup in Hrows. pose proof (Hrows _ _ Hr) as Hl.
  destruct (lookup_lt_is_Some_2 row (Z.to_nat x)) as [a Ha]; [lia|].
  exists row. split; [done|]. unfold get2. rewrite Hr. simpl. by rewrite Ha.
Qed.

Section Variant.
Variable cfg : Config.

Lemma cellSum_set2 m rows cols y x v :
  shape2 rows cols m → 0 <= y < rows → 0 <= x < cols →
  cellSum (set2 m y x v) = cellSum m - get2 0 m y x + v.
Proof.
  intros Hsh Hy Hx.
  destruct (get2_lookup 0 m rows cols y x) as (row & Hr & Ha); auto.
  unfold cellSum, set2.
  rewrite (sumZ_alter _ _ _ _ _ Hr), (sumZ_insert _ _ _ _ _ Ha). lia.
Qed.

Lemma cellSum_nonneg g :
  wf_grid g → (∀ p, inBounds g p → min_int64 <= distAt g p) →
  0 <= cellSum (Distances g).
Proof.
  intros (_&_&Hsh&_) Hlow. apply sumZ_nonneg, Forall_map.
  eapply Forall_impl.
  - apply (shape2_Forall 0 (λ d, min_int64 <= d) _ _ _ Hsh).
    intros y x Hy Hx. apply (Hlow (mkPos x y)). split; simpl; lia.
  - simpl. intros row Hrow. apply sumZ_nonneg, Forall_map.
    eapply Forall_impl; [exact Hrow|]. simpl. intros; lia.
Qed.

Lemma cellSum_upper g b :
  wf_grid g → 0 <= Width g → 0 <= Height g →
  (∀ p, inBounds g p → distAt g p <= b) →
  cellSum (Distances g) <= Height g * (Width g * (b - min_int64)).
Proof.
  intros (_&_&Hsh&_) HW HH Hup. unfold cellSum.
  etrans; [apply sumZ_le_const with (b := Width g * (b - min_int64))|].
  - apply Forall_map.
    assert (Hall := shape2_Forall 0 (λ d, d <= b) _ _ _ Hsh).
    destruct Hsh as [_ Hrows].
    eapply Forall_impl.
    + apply Forall_and. split; [exact Hrows|]. apply Hall.
      intros y x Hy Hx. apply (Hup (mkPos x y)). split; simpl; lia.
    + simpl. intros row [Hlen Hrow].
      etrans; [apply sumZ_le_const with (b := b - min_int64)|].
      * apply Forall_map. eapply Forall_impl; [exact Hrow|]. simpl. intros; lia.
      * rewrite length_map, Hlen, Z2Nat.id by lia. done.
  - rewrite length_map. destruct Hsh as [-> _]. rewrite Z2Nat.id by lia. done.
Qed.

Lemma relaxDir_measure current currentDist st dir :
  relaxInv st →
  relaxMeasure (relaxDir cfg current currentDist st dir) <= relaxMeasure st.
Proof.
  destruct st as [g queue]. intros (Hwf & _).
  destruct (relaxDir_cases cfg current currentDist g queue dir)
    as [[-> _]|(-> & Hpass & Hlt)]; [done|].
  apply IsPassable_inBounds in Hpass as [Hx Hy].
  destruct Hwf as (_&_&Hsh&_).
  unfold relaxMeasure, setDistance. simpl.
  rewrite (cellSum_set2 _ _ _ _ _ _ Hsh Hy Hx).
  rewrite length_app. simpl length. unfold distAt in Hlt. lia.
Qed.

Lemma relaxStep_measure st :
  relaxInv st → queueEmpty st = false →
  relaxMeasure (relaxStep cfg st) + 1 <= relaxMeasure st.
Proof.
  destruct st as [g [|current queue]]; [done|]. intros Hinv _. simpl.
  assert (H : relaxInv (fold_left (relaxDir cfg current (distAt g current))
                          (Directions cfg) (g, queue)) ∧
    relaxMeasure (fold_left (relaxDir cfg current (distAt g current))
                    (Directions cfg) (g, queue)) <= relaxMeasure (g, queue)).
  { apply (fold_left_ind _
      (λ st, relaxInv st ∧ relaxMeasure st <= relaxMeasure (g, queue))).
    - split; [by eapply relaxInv_pop|done].
    - intros dir st' _ [Hi Hm]. split; [by apply relaxDir_inv|].
      etrans; [by apply relaxDir_measure|done]. }
  destruct H as [_ H]. unfold relaxMeasure in *. simpl in *. lia.
Qed.

Lemma relaxMeasure_nonneg st : relaxInv st → 0 <= relaxMeasure st.
Proof.
  destruct st as [g queue]. intros (Hwf & Hrange & _).
  unfold relaxMeasure. simpl.
  pose proof (cellSum_nonneg g Hwf (λ p Hp, proj1 (Hrange p Hp))). lia.
Qed.

Lemma relaxLoop_done_id n st :
  queueEmpty st = true → relaxLoop cfg n st = st.
Proof. intros H. destruct n; simpl; by rewrite H. Qed.

Lemma relaxLoop_progress n st :
  relaxInv st →
  queueEmpty (relaxLoop cfg n st) = true ∨
  relaxMeasure (relaxLoop cfg n st) + 2 ^ Z.of_nat n <= relaxMeasure st.
Proof.
  revert st. induction n as [|n IH]; intros st Hinv.
  - simpl relaxLoop. destruct (queueEmpty st) eqn:Hq; [by left|right].
    by apply relaxStep_measure.
  - simpl relaxLoop. destruct (queueEmpty st) eqn:Hq; [by left|].
    assert (Hinv1 : relaxInv (relaxLoop cfg n st)).
    { apply relaxLoop_ind; [apply relaxStep_inv|done]. }
    destruct (IH st Hinv) as [Hdone|Hm1].
    + left. by rewrite relaxLoop_done_id.
    + destruct (IH _ Hinv1) as [Hdone|Hm2]; [by left|right].
      rewrite Nat2Z.inj_succ, Z.pow_succ_r by lia. lia.
Qed.

(** Enough doublings empty the queue. *)
Lemma relaxLoop_terminates n st :
  relaxInv st → relaxMeasure st < 2 ^ Z.of_nat n →
  queueEmpty (relaxLoop cfg n st) = true.
Proof.
  intros Hinv Hlt. destruct (relaxLoop_progress n st Hinv) as [H|H]; [done|].
  assert (0 <= relaxMeasure (relaxLoop cfg n st)).
  { apply relaxMeasure_nonneg, relaxLoop_ind; [apply relaxStep_inv|done]. }
  lia.
Qed.

(** The bounded loop is the iteration of the loop body. *)
Lemma relaxLoop_iter n st :
  ∃ k, relaxLoop cfg n st = Nat.iter k (relaxStep cfg) st.
Proof.
  revert st. induction n as [|n IH]; intros st; simpl.
  - destruct (queueEmpty st); [by exists 0%nat|by exists 1%nat].
  - destruct (queueEmpty st); [by exists 0%nat|].
    destruct (IH st) as [k1 ->].
    destruct (IH (Nat.iter k1 (relaxStep cfg) st)) as [k2 ->].
    exists (k2 + k1)%nat. by rewrite Nat.iter_add.
Qed.

End Variant.

(** ** The reset loops *)

Lemma inBounds_allPositions g p :
  p ∈ allPositions (Width g) (Height g) ↔ inBounds g p.
Proof. apply elem_of_allPositions. Qed.

Lemma resetField_spec g :
  wf_grid g →
  resetField g =
    mkGrid (Width g) (Height g) (Costs g)
           (make2 zeroDir (Width g) (Height g))
           (make2 MaxInt32 (Width g) (Height g)) (CellTypes g).
Proof.
  intros Hwf. unfold resetField.
  pose (P := λ (pre : list Position) (g' : Grid),
    Width g' = Width g ∧ Height g' = Height g ∧ Costs g' = Costs g ∧
    CellTypes g' = CellTypes g ∧ wf_grid g' ∧
    ∀ p, p ∈ pre → distAt g' p = MaxInt32 ∧ flowAt g' p = zeroDir).
  assert (HP : P (allPositions (Width g) (Height g))
                 (fold_left resetCell (allPositions (Width g) (Height g)) g)).
  { apply fold_left_prefix_ind.
    - unfold P. split_and!; try done. intros p Hp. by apply elem_of_nil in Hp.
    - intros pre x suf g' Hl (HW & HH & HC & HT & Hwf' & Hcells).
      assert (Hx : inBounds g' x).
      { unfold inBounds. rewrite HW, HH. apply inBounds_allPositions.
        rewrite Hl. apply elem_of_app. right. left. }
      assert (Hpre : ∀ p, p ∈ pre → inBounds g' p).
      { intros p Hp. unfold inBounds. rewrite HW, HH.
        apply inBounds_allPositions. rewrite Hl. apply elem_of_app. by left. }
      unfold P, resetCell. split_and!; try done.
      { by apply wf_setFlow, wf_setDistance. }
      intros p Hp. destruct (decide (p = x)) as [->|Hne].
      + split.
        * change (distAt (setDistance g' x MaxInt32) x = MaxInt32).
          by apply distAt_setDistance_eq.
        * apply flowAt_setFlow_eq; [by apply wf_setDistance|done].
      + apply elem_of_app in Hp as [Hp|Hp];
          [|apply list_elem_of_singleton in Hp; done].
        destruct (Hcells p Hp) as [Hd Hf]. split.
        * change (distAt (setDistance g' x MaxInt32) p = MaxInt32).
          rewrite distAt_setDistance_ne; auto.
        * rewrite flowAt_setFlow_ne; [done|exact Hx|exact (Hpre p Hp)|done]. }
  destruct HP as (HW & HH & HC & HT & (_ & Hsf & Hsd & _) & Hcells).
  destruct (fold_left resetCell _ g) as [W' H' C' F' D' T']. simpl in *.
  subst W' H' C' T'. f_equal.
  - eapply (shape2_ext zeroDir); [exact Hsf|apply shape2_make2|].
    intros y x Hy Hx. rewrite get2_make2 by done.
    destruct (Hcells (mkPos x y)) as [_ Hf]; [|exact Hf].
    apply elem_of_allPositions. simpl. lia.
  - eapply (shape2_ext 0); [exact Hsd|apply shape2_make2|].
    intros y x Hy Hx. rewrite get2_make2 by done.
    destruct (Hcells (mkPos x y)) as [Hd _]; [|exact Hd].
    apply elem_of_allPositions. simpl. lia.
Qed.

Lemma wf_resetField g : wf_grid g → wf_grid (resetField g).
Proof.
  intros Hwf. rewrite resetField_spec by done.
  destruct Hwf as (?&?&?&?). unfold wf_grid; simpl.
  split_and!; try done; apply shape2_make2.
Qed.

Lemma distAt_resetField g p :
  wf_grid g → inBounds g p → distAt (resetField g) p = MaxInt32.
Proof.
  intros Hwf [Hx Hy]. rewrite resetField_spec by done.
  unfold distAt. simpl. by apply get2_make2.
Qed.

Lemma flowAt_resetField g p :
  wf_grid g → inBounds g p → flowAt (resetField g) p = zeroDir.
Proof.
  intros Hwf [Hx Hy]. rewrite resetField_spec by done.
  unfold flowAt. simpl. by apply get2_make2.
Qed.

(** ** The propagation loop inside [computeFlowField] *)

Section Propagation.
Variable f : FlowFieldNavigator.
Hypothesis Hwf : wf_grid (grid f).
Hypothesis Hgoal : IsPassable (grid f) (goal f) = true.

Lemma fieldStart_frame :
  Width (fieldStart f) = Width (grid f) ∧
  Height (fieldStart f) = Height (grid f) ∧
  Costs (fieldStart f) = Costs (grid f) ∧
  CellTypes (fieldStart f) = CellTypes (grid f) ∧
  FlowField (fieldStart f) = make2 zeroDir (Width (grid f)) (Height (grid f)).
Proof using Hwf. unfold fieldStart. by rewrite resetField_spec. Qed.

Lemma fieldStart_inBounds p : inBounds (fieldStart f) p ↔ inBounds (grid f) p.
Proof using Hwf.
  destruct fieldStart_frame as (HW & HH & _). unfold inBounds.
  by rewrite HW, HH.
Qed.

Lemma fieldStart_IsPassable p :
  IsPassable (fieldStart f) p = IsPassable (grid f) p.
Proof using Hwf.
  destruct fieldStart_frame as (HW & HH & HC & _).
  unfold IsPassable, IsValidPosition, costAt. by rewrite HW, HH, HC.
Qed.

Lemma fieldStart_distAt p :
  inBounds (grid f) p →
  distAt (fieldStart f) p = if decide (p = goal f) then 0 else MaxInt32.
Proof using Hwf Hgoal.
  intros Hp. pose proof (IsPassable_inBounds _ _ Hgoal) as Hg.
  unfold fieldStart. rewrite distAt_setDistance.
  - case_decide; [done|]. by apply distAt_resetField.
  - by apply wf_resetField.
  - unfold inBounds. by rewrite resetField_spec.
  - unfold inBounds. by rewrite resetField_spec.
Qed.

Lemma wf_fieldStart : wf_grid (fieldStart f).
Proof using Hwf. by apply wf_setDistance, wf_resetField. Qed.

Lemma fieldStart_relaxInv : relaxInv (fieldStart f, [goal f]).
Proof using Hwf Hgoal.
  split_and!.
  - apply wf_fieldStart.
  - intros p Hp. apply fieldStart_inBounds in Hp.
    rewrite fieldStart_distAt by done.
    unfold min_int64, MaxInt32. case_decide; lia.
  - intros p Hp. rewrite fieldStart_IsPassable. intros Himp.
    apply fieldStart_inBounds in Hp. rewrite fieldStart_distAt by done.
    case_decide; [|done]. congruence.
  - intros p Hp. apply list_elem_of_singleton in Hp as ->.
    rewrite fieldStart_IsPassable. split; [done|].
    rewrite fieldStart_distAt by (by apply IsPassable_inBounds).
    rewrite decide_True by done. unfold MaxInt32. lia.
Qed.

Lemma fieldStart_measure :
  relaxMeasure (fieldStart f, [goal f])
    < 2 ^ Z.of_nat (relaxFuel (fieldStart f)).
Proof using Hwf Hgoal.
  pose proof fieldStart_relaxInv as (Hwf' & Hrange & _).
  destruct (proj2 (fieldStart_inBounds _) (IsPassable_inBounds _ _ Hgoal))
    as [HX HY].
  pose proof (cellSum_upper (fieldStart f) MaxInt32 Hwf') as Hup.
  unfold relaxMeasure, relaxFuel. cbn [fst snd length].
  set (W := Width (fieldStart f)) in *. set (H := Height (fieldStart f)) in *.
  assert (0 < W * H) by nia.
  rewrite Z2Nat.id by (apply Z.log2_up_nonneg).
  pose proof (Z.log2_up_spec (W * H * 2 ^ 64 + 2)) as [_ Hlog]; [lia|].
  eapply Z.lt_le_trans; [|exact Hlog].
  specialize (Hup ltac:(lia) ltac:(lia) (λ p Hp, proj2 (Hrange p Hp))).
  replace (H * (W * (MaxInt32 - min_int64)))
    with (W * H * (MaxInt32 - min_int64)) in Hup by ring.
  unfold MaxInt32, min_int64 in Hup.
  set (M := W * H) in *. clearbody M. lia.
Qed.

Lemma propagated_spec :
  relaxLoop (config f) (relaxFuel (fieldStart f)) (fieldStart f, [goal f])
    = (propagated f, []).
Proof using Hwf Hgoal.
  pose proof (relaxLoop_terminates (config f) _ _ fieldStart_relaxInv
                fieldStart_measure) as Hdone.
  unfold propagated, propagate.
  destruct (relaxLoop _ _ _) as [g [|]]; done.
Qed.

Lemma propagated_relaxInv : relaxInv (propagated f, []).
Proof using Hwf Hgoal.
  rewrite <- propagated_spec.
  apply relaxLoop_ind; [apply relaxStep_inv|apply fieldStart_relaxInv].
Qed.

Lemma propagated_sameFrame : sameFrame (fieldStart f) (propagated f).
Proof using Hwf Hgoal.
  change (propagated f) with (fst (propagated f, @nil Position)).
  rewrite <- propagated_spec.
  apply (relaxLoop_ind (config f) (λ st, sameFrame (fieldStart f) (fst st))).
  - apply relaxStep_sameFrame.
  - done.
Qed.

Lemma propagated_inBounds p : inBounds (propagated f) p ↔ inBounds (grid f) p.
Proof using Hwf Hgoal.
  destruct propagated_sameFrame as (HW & HH & _).
  rewrite <- fieldStart_inBounds. unfold inBounds. by rewrite HW, HH.
Qed.

Lemma propagated_IsPassable p :
  IsPassable (propagated f) p = IsPassable (grid f) p.
Proof using Hwf Hgoal.
  destruct propagated_sameFrame as (HW & HH & HC & _).
  rewrite <- fieldStart_IsPassable.
  unfold IsPassable, IsValidPosition, costAt. by rewrite HW, HH, HC.
Qed.

(** The loop of [computeFlowField] terminates: some number of iterations
    of its body empties the queue, and [propagated] is the grid then. *)
Lemma propagation_terminates :
  ∃ k, Nat.iter k (relaxStep (config f)) (fieldStart f, [goal f])
       = (propagated f, []).
Proof using Hwf Hgoal.
  destruct (relaxLoop_iter (config f) (relaxFuel (fieldStart f))
              (fieldStart f, [goal f])) as [k Hk].
  exists k. rewrite <- Hk. apply propagated_spec.
Qed.

End Propagation.

(** ** Phase 2 *)

Lemma bestDirection_cases cfg g p :
  bestDirection cfg g p = zeroDir ∨
  (bestDirection cfg g p ∈ Directions cfg ∧
   inBounds g (stepPos p (bestDirection cfg g p)) ∧
   distAt g (stepPos p (bestDirection cfg g p)) < distAt g p).
Proof.
  unfold bestDirection.
  pose (P := λ best : Z * Direction,
    fst best <= distAt g p ∧
    (snd best = zeroDir ∨
     (snd best ∈ Directions cfg ∧ inBounds g (stepPos p (snd best)) ∧
      distAt g (stepPos p (snd best)) < distAt g p))).
  enough (HP : P (fold_left (bestStep g p) (Directions cfg)
                    (distAt g p, zeroDir))) by apply HP.
  apply fold_left_ind.
  - split; simpl; [lia|by left].
  - intros dir best Hdir [Hle Hbest]. unfold bestStep.
    destruct (IsValidPosition g (stepPos p dir)) eqn:Hv; [|done].
    destruct (Z.ltb_spec (distAt g (stepPos p dir)) (fst best)); [|done].
    split; simpl; [lia|right].
    apply IsValidPosition_inBounds in Hv. split_and!; [done|done|lia].
Qed.

Lemma bestDirection_none cfg g p :
  (∀ dir, dir ∈ Directions cfg → inBounds g (stepPos p dir) →
          distAt g p <= distAt g (stepPos p dir)) →
  bestDirection cfg g p = zeroDir.
Proof.
  intros Hall. unfold bestDirection.
  enough (H : fold_left (bestStep g p) (Directions cfg) (distAt g p, zeroDir)
              = (distAt g p, zeroDir)) by (by rewrite H).
  apply fold_left_ind; [done|].
  intros dir best Hdir ->. unfold bestStep.
  destruct (IsValidPosition g (stepPos p dir)) eqn:Hv; [|done].
  apply IsValidPosition_inBounds in Hv. specialize (Hall dir Hdir Hv).
  simpl. destruct (Z.ltb_spec (distAt g (stepPos p dir)) (distAt g p));
    [lia|done].
Qed.

Lemma goal_test p q :
  (PosX p =? PosX q) && (PosY p =? PosY q) = bool_decide (p = q).
Proof.
  case_bool_decide as H.
  - subst. by rewrite !Z.eqb_refl.
  - apply andb_false_iff.
    destruct (Z.eqb_spec (PosX p) (PosX q)); [|by left].
    destruct (Z.eqb_spec (PosY p) (PosY q)); [|by right].
    destruct H. by apply position_eq.
Qed.

Lemma flowLoop_spec cfg goalPos g :
  wf_grid g →
  let g' := fold_left (flowCell cfg goalPos)
                      (allPositions (Width g) (Height g)) g in
  Width g' = Width g ∧ Height g' = Height g ∧ Costs g' = Costs g ∧
  Distances g' = Distances g ∧ CellTypes g' = CellTypes g ∧ wf_grid g' ∧
  ∀ p, inBounds g p →
    flowAt g' p = if IsPassable g p && negb (bool_decide (p = goalPos))
                  then bestDirection cfg g p else flowAt g p.
Proof.
  intros Hwf.
  pose (P := λ (pre : list Position) (g' : Grid),
    Width g' = Width g ∧ Height g' = Height g ∧ Costs g' = Costs g ∧
    Distances g' = Distances g ∧ CellTypes g' = CellTypes g ∧ wf_grid g' ∧
    ∀ p, inBounds g p →
      flowAt g' p = if bool_decide (p ∈ pre) && IsPassable g p &&
                       negb (bool_decide (p = goalPos))
                    then bestDirection cfg g p else flowAt g p).
  assert (HP : P (allPositions (Width g) (Height g))
                 (fold_left (flowCell cfg goalPos)
                            (allPositions (Width g) (Height g)) g)).
  { apply fold_left_prefix_ind.
    - unfold P. split_and!; done.
    - intros pre x suf g' Hl (HW & HH & HC & HD & HT & Hwf' & Hflow).
      assert (Hx : inBounds g x).
      { apply inBounds_allPositions. rewrite Hl. apply elem_of_app.
        right. left. }
      assert (Hpass : ∀ p, IsPassable g' p = IsPassable g p).
      { intros p. unfold IsPassable, IsValidPosition, costAt.
        by rewrite HW, HH, HC. }
      assert (Hbest : bestDirection cfg g' x = bestDirection cfg g x).
      { clear -HW HH HD. destruct g', g; simpl in *; by subst. }
      unfold flowCell. rewrite Hpass, goal_test.
      destruct (IsPassable g x) eqn:Hpx; simpl;
        [destruct (bool_decide (x = goalPos)) eqn:Hgx; simpl|].
      + unfold P. split_and!; try done. intros p Hp. rewrite (Hflow p Hp).
        destruct (decide (p = x)) as [->|Hne].
        * rewrite Hgx, !andb_false_r. done.
        * replace (bool_decide (p ∈ pre ++ [x])) with (bool_decide (p ∈ pre));
            [done|]. apply bool_decide_ext. rewrite elem_of_app.
          rewrite list_elem_of_singleton. tauto.
      + unfold P. split_and!; try done; [by apply wf_setFlow|].
        assert (Hx' : inBounds g' x) by (unfold inBounds; by rewrite HW, HH).
        intros p Hp.
        assert (Hp' : inBounds g' p) by (unfold inBounds; by rewrite HW, HH).
        destruct (decide (p = x)) as [->|Hne].
        * rewrite flowAt_setFlow_eq by done. rewrite Hpx, Hgx. simpl.
          rewrite bool_decide_true; [by rewrite Hbest|].
          apply elem_of_app. right. left.
        * rewrite flowAt_setFlow_ne by done. rewrite (Hflow p Hp).
          replace (bool_decide (p ∈ pre ++ [x])) with (bool_decide (p ∈ pre));
            [done|]. apply bool_decide_ext. rewrite elem_of_app.
          rewrite list_elem_of_singleton. tauto.
      + unfold P. split_and!; try done. intros p Hp. rewrite (Hflow p Hp).
        destruct (decide (p = x)) as [->|Hne].
        * rewrite Hpx, !andb_false_r. done.
        * replace (bool_decide (p ∈ pre ++ [x])) with (bool_decide (p ∈ pre));
            [done|]. apply bool_decide_ext. rewrite elem_of_app.
          rewrite list_elem_of_singleton. tauto. }
  destruct HP as (HW & HH & HC & HD & HT & Hwf' & Hflow).
  split_and!; try done. intros p Hp. rewrite (Hflow p Hp).
  rewrite bool_decide_true; [done|]. by apply inBounds_allPositions.
Qed.

(** ** [computeFlowField] as a whole *)

Lemma computeFlowField_spec f :
  wf_grid (grid f) → IsPassable (grid f) (goal f) = true →
  ∃ g', computeFlowField f = (mkNav (config f) g' (goal f) (isGoalSet f), None) ∧
    wf_grid g' ∧
    Width g' = Width (grid f) ∧ Height g' = Height (grid f) ∧
    Costs g' = Costs (grid f) ∧ CellTypes g' = CellTypes (grid f) ∧
    Distances g' = Distances (propagated f) ∧
    ∀ p, inBounds (grid f) p →
      flowAt g' p =
        if IsPassable (grid f) p && negb (bool_decide (p = goal f))
        then bestDirection (config f) (propagated f) p else zeroDir.
Proof.
  intros Hwf Hgoal.
  pose proof (propagated_relaxInv f Hwf Hgoal) as (Hwfp & _).
  pose proof (propagated_sameFrame f Hwf Hgoal) as (HW & HH & HC & HF & HT).
  pose proof (fieldStart_frame f Hwf) as (HW0 & HH0 & HC0 & HT0 & HF0).
  pose proof (flowLoop_spec (config f) (goal f) (propagated f) Hwfp)
    as (HW' & HH' & HC' & HD' & HT' & Hwf' & Hflow).
  exists (fold_left (flowCell (config f) (goal f))
            (allPositions (Width (propagated f)) (Height (propagated f)))
            (propagated f)).
  split; [reflexivity|].
  split_and!; [exact Hwf'|congruence..|].
  intros p Hp. rewrite Hflow by (by apply propagated_inBounds).
  rewrite propagated_IsPassable by done.
  destruct (IsPassable (grid f) p && negb (bool_decide (p = goal f))); [done|].
  unfold flowAt. rewrite HF, HF0. destruct Hp. by apply get2_make2.
Qed.

Lemma distAt_ext g g' p :
  Distances g' = Distances g → distAt g' p = distAt g p.
Proof. unfold distAt. by intros ->. Qed.

Lemma SetGoal_ok f goalPos f' :
  SetGoal f goalPos = (f', None) →
  IsPassable (grid f) goalPos = true ∧
  f' = fst (computeFlowField (mkNav (config f) (grid f) goalPos true)).
Proof.
  unfold SetGoal.
  destruct (IsValidPosition (grid f) goalPos); simpl; [|done].
  destruct (IsPassable (grid f) goalPos); simpl; [|done].
  by intros [= <-].
Qed.

Lemma SetGoal_passable f goalPos :
  IsPassable (grid f) goalPos = true →
  SetGoal f goalPos = computeFlowField (mkNav (config f) (grid f) goalPos true).
Proof.
  intros Hp. unfold SetGoal. rewrite Hp.
  apply IsPassable_inBounds, IsValidPosition_inBounds in Hp. by rewrite Hp.
Qed.

(** ** The goal cell *)

Lemma stepCostsOK_frame cfg g g' :
  Width g' = Width g → Height g' = Height g → Costs g' = Costs g →
  stepCostsOK cfg g → stepCostsOK cfg g'.
Proof.
  intros HW HH HC Hok dir pos Hdir Hpass.
  unfold IsPassable, IsValidPosition, costAt in *.
  rewrite HW, HH, HC in *. by apply Hok.
Qed.

Lemma propagated_costInv f :
  wf_grid (grid f) → IsPassable (grid f) (goal f) = true →
  stepCostsOK (config f) (grid f) →
  costInv (config f) (goal f) (propagated f, []).
Proof.
  intros Hwf Hgoal Hok.
  rewrite <- (propagated_spec f Hwf Hgoal).
  pose (P := λ st, relaxInv st ∧ costInv (config f) (goal f) st ∧
                   inBounds (fst st) (goal f)).
  enough (HP : P (relaxLoop (config f) (relaxFuel (fieldStart f))
                    (fieldStart f, [goal f]))) by apply HP.
  apply relaxLoop_ind.
  - intros st (Hi & Hc & Hb). by apply relaxStep_costInv.
  - pose proof (fieldStart_frame f Hwf) as (HW & HH & HC & _).
    pose proof (IsPassable_inBounds _ _ Hgoal) as Hgb.
    split_and!.
    + by apply fieldStart_relaxInv.
    + split_and!; simpl.
      * by eapply stepCostsOK_frame.
      * intros p Hp. apply fieldStart_inBounds in Hp; [|done].
        rewrite fieldStart_distAt by done. unfold MaxInt32. case_decide; lia.
      * rewrite fieldStart_distAt by done. by rewrite decide_True.
    + by apply fieldStart_inBounds.
Qed.

(** C1, as stated, fails: the navigator of [EightWayConfig 2 1] whose
    costs were replaced by [[MaxInt64, 1]] accepts the goal (0,0), and
    the distance then recorded for the goal is [min_int64], not 0: the
    step back into the goal computes [1 + MaxInt64], which wraps. *)
Lemma C1_goal_distance_wraps :
  NewFlowFieldNavigator (EightWayConfig 2 1) = (Some nav2, None) ∧
  snd (UpdateCosts nav2 [[max_int64; 1]]) = None ∧
  IsPassable (grid navHuge) (mkPos 0 0) = true ∧
  snd (SetGoal navHuge (mkPos 0 0)) = None ∧
  distAt (grid (fst (SetGoal navHuge (mkPos 0 0)))) (mkPos 0 0) = min_int64 ∧
  distAt (grid (fst (SetGoal navHuge (mkPos 0 0)))) (mkPos 0 0) ≠ 0.
Proof. split_and!; try (vm_compute; reflexivity). vm_compute. discriminate. Qed.

(** C1, amended: when every step into a passable cell costs between 0 and
    [max_int64 - MaxInt32], so that no addition of the propagation wraps,
    [SetGoal] at an in-bounds passable cell succeeds, the goal cell's
    distance is 0 and its flow direction is (0,0). *)
Theorem C1_goal_cell_after_SetGoal f goalPos :
  wf_grid (grid f) → stepCostsOK (config f) (grid f) →
  IsPassable (grid f) goalPos = true →
  ∃ f', SetGoal f goalPos = (f', None) ∧
        distAt (grid f') goalPos = 0 ∧ flowAt (grid f') goalPos = zeroDir.
Proof.
  intros Hwf Hok Hpass. rewrite SetGoal_passable by done.
  set (f1 := mkNav (config f) (grid f) goalPos true).
  destruct (computeFlowField_spec f1 Hwf Hpass)
    as (g' & -> & _ & _ & _ & _ & _ & HD & Hflow).
  eexists. split; [reflexivity|]. simpl. split.
  - rewrite (distAt_ext _ _ _ HD).
    by destruct (propagated_costInv f1 Hwf Hpass Hok) as (_ & _ & ?).
  - rewrite (Hflow goalPos (IsPassable_inBounds _ _ Hpass)).
    by rewrite bool_decide_true, andb_false_r.
Qed.

Lemma C1_goal_cell_after_SetGoal_witness :
  wf_grid (grid nav2) ∧ stepCostsOK (config nav2) (grid nav2) ∧
  IsPassable (grid nav2) (mkPos 1 0) = true ∧
  ∃ f', SetGoal nav2 (mkPos 1 0) = (f', None) ∧
        distAt (grid f') (mkPos 1 0) = 0 ∧
        flowAt (grid f') (mkPos 1 0) = zeroDir.
Proof.
  assert (Hwf : wf_grid (grid nav2)) by apply wf_NewGrid.
  assert (Hok : stepCostsOK (config nav2) (grid nav2))
    by (apply stepCostsOKb_sound; vm_compute; reflexivity).
  assert (Hp : IsPassable (grid nav2) (mkPos 1 0) = true) by reflexivity.
  split_and!; [exact Hwf|exact Hok|exact Hp|].
  exact (C1_goal_cell_after_SetGoal nav2 (mkPos 1 0) Hwf Hok Hp).
Defined.

(** ** The 5×5 scenario under the 8-way model *)

(** C6, as stated, fails: on the 5×5 grid of unit costs with goal (2,2)
    and [EightWayConfig] (multiplier 1.4), [SetGoal] succeeds and the
    distance recorded for cell (0,0) is not [round(2 × 1.4) = 3]. *)
Lemma C6_distance_is_not_three :
  snd (SetGoal nav5 (mkPos 2 2)) = None ∧
  distAt (grid (fst (SetGoal nav5 (mkPos 2 2)))) (mkPos 0 0) ≠ 3.
Proof. split; [reflexivity | vm_compute; discriminate]. Qed.

(** C6, amended: a diagonal step into a cell of cost 1 costs
    [int(float64(1) * 1.4) = 1], the product being truncated at every
    step, and the distance recorded for cell (0,0) is 2. *)
Theorem C6_distance_truncates_each_step :
  moveCost (EightWayConfig 5 5) (mkDir 1 1) 1 = 1 ∧
  snd (SetGoal nav5 (mkPos 2 2)) = None ∧
  distAt (grid (fst (SetGoal nav5 (mkPos 2 2)))) (mkPos 0 0) = 2.
Proof. repeat split; vm_compute; reflexivity. Qed.

(** ** Termination of the propagation loop *)

Lemma relaxDir_enqueueDecreases cfg current currentDist st dir :
  relaxInv st →
  enqueueDecreases min_int64 st (relaxDir cfg current currentDist st dir).
Proof.
  destruct st as [g queue]. intros (Hwf & _).
  destruct (relaxDir_cases cfg current currentDist g queue dir)
    as [[-> _]|(-> & Hpass & Hlt)]; [by left|right].
  pose proof (IsPassable_inBounds _ _ Hpass) as Hnb.
  exists (stepPos current dir). simpl. split_and!; try done.
  - rewrite distAt_setDistance_eq by done. apply wrap64_range.
  - by rewrite distAt_setDistance_eq.
  - intros p Hp Hne. by rewrite distAt_setDistance_ne.
Qed.

Lemma relaxDir_enqueueDecreases_nonneg cfg goalPos current currentDist st dir :
  relaxInv st → costInv cfg goalPos st → inBounds (fst st) goalPos →
  dir ∈ Directions cfg → 0 <= currentDist <= MaxInt32 →
  enqueueDecreases 0 st (relaxDir cfg current currentDist st dir).
Proof.
  intros Hinv Hcost Hgoal Hdir Hd.
  pose proof (relaxDir_costInv cfg goalPos current currentDist st dir
                Hdir Hgoal Hd Hinv Hcost) as (_ & Hnn & _).
  destruct (relaxDir_enqueueDecreases cfg current currentDist st dir Hinv)
    as [->|(next & Hq & Hnb & Hlt & Hother)]; [by left|right].
  exists next. split_and!; try done; [|lia].
  apply Hnn. destruct st as [g queue].
  destruct (relaxDir_sameFrame cfg g current currentDist (g, queue) dir)
    as (HW & HH & _); [done|].
  unfold inBounds in *. by rewrite HW, HH.
Qed.

Lemma iter_relaxStep_inv cfg (P : RelaxState → Prop) st j :
  (∀ st, P st → P (relaxStep cfg st)) → P st →
  P (Nat.iter j (relaxStep cfg) st).
Proof. intros Hstep Hst. induction j; simpl; auto. Qed.

(** C2, as stated, fails in its account of the recorded distances: all
    costs of [navHuge] are non-negative and its goal (0,0) is passable,
    yet the second iteration of the loop enqueues the goal cell after
    lowering its recorded distance to [min_int64], a negative number. *)
Lemma C2_enqueued_distance_negative :
  Costs (grid navHugeGoal) = [[max_int64; 1]] ∧
  IsPassable (grid navHugeGoal) (goal navHugeGoal) = true ∧
  (let st := Nat.iter 2 (relaxStep (config navHugeGoal))
                      (fieldStart navHugeGoal, [goal navHugeGoal]) in
   snd st = [mkPos 0 0] ∧ distAt (fst st) (mkPos 0 0) = min_int64) ∧
  ¬ nonNegative (propagated navHugeGoal).
Proof.
  split_and!.
  - reflexivity.
  - reflexivity.
  - split; vm_compute; reflexivity.
  - intros Hnn. specialize (Hnn (mkPos 0 0)).
    assert (Hb : inBounds (propagated navHugeGoal) (mkPos 0 0))
      by (vm_compute; intuition discriminate).
    specialize (Hnn Hb). vm_compute in Hnn. by apply Hnn.
Qed.

(** C2, amended: when every step into a passable cell costs between 0
    and [max_int64 - MaxInt32], the propagation loop started by
    [computeFlowField] at an in-bounds passable goal terminates: some
    number [k] of iterations empties the queue; every iteration from a
    non-empty queue lowers the non-negative variant [relaxMeasure]; and
    every enqueue comes with a strict decrease of the enqueued cell's
    recorded distance, which stays non-negative. *)
Theorem C2_propagation_terminates f :
  wf_grid (grid f) → IsPassable (grid f) (goal f) = true →
  stepCostsOK (config f) (grid f) →
  let cfg := config f in
  let start := (fieldStart f, [goal f]) in
  let Inv := λ st, relaxInv st ∧ costInv cfg (goal f) st ∧
                   inBounds (fst st) (goal f) in
  (∃ k, Nat.iter k (relaxStep cfg) start = (propagated f, []) ∧
        snd (computeFlowField f) = None ∧
        Distances (grid (fst (computeFlowField f))) = Distances (propagated f)) ∧
  (∀ j, Inv (Nat.iter j (relaxStep cfg) start)) ∧
  (∀ st, Inv st → queueEmpty st = false →
     0 <= relaxMeasure (relaxStep cfg st) < relaxMeasure st) ∧
  (∀ st current currentDist dir,
     Inv st → dir ∈ Directions cfg → 0 <= currentDist <= MaxInt32 →
     Inv (relaxDir cfg current currentDist st dir) ∧
     enqueueDecreases 0 st (relaxDir cfg current currentDist st dir)).
Proof.
  intros Hwf Hgoal Hok cfg start Inv.
  assert (Hstart : Inv start).
  { pose proof (fieldStart_frame f Hwf) as (HW & HH & HC & _).
    pose proof (IsPassable_inBounds _ _ Hgoal) as Hgb.
    split_and!.
    - by apply fieldStart_relaxInv.
    - split_and!; simpl.
      + by eapply stepCostsOK_frame.
      + intros p Hp. apply fieldStart_inBounds in Hp; [|done].
        rewrite fieldStart_distAt by done. unfold MaxInt32. case_decide; lia.
      + rewrite fieldStart_distAt by done. by rewrite decide_True.
    - by apply fieldStart_inBounds. }
  split_and!.
  - destruct (propagation_terminates f Hwf Hgoal) as [k Hk].
    exists k.
    by destruct (computeFlowField_spec f Hwf Hgoal)
      as (g' & -> & _ & _ & _ & _ & _ & HD & _).
  - intros j. apply iter_relaxStep_inv; [|done].
    intros st (Hi & Hc & Hb). by apply relaxStep_costInv.
  - intros st (Hi & _) Hq. split.
    + by apply relaxMeasure_nonneg, relaxStep_inv.
    + pose proof (relaxStep_measure cfg st Hi Hq). lia.
  - intros st current currentDist dir (Hi & Hc & Hb) Hdir Hd. split.
    + split_and!.
      * by apply relaxDir_inv.
      * by apply relaxDir_costInv.
      * destruct (relaxDir_sameFrame cfg (fst st) current currentDist st dir)
          as (HW & HH & _); [done|].
        unfold inBounds in *. by rewrite HW, HH.
    + by eapply relaxDir_enqueueDecreases_nonneg.
Qed.

Lemma C2_propagation_terminates_witness :
  wf_grid (grid nav2Goal) ∧
  IsPassable (grid nav2Goal) (goal nav2Goal) = true ∧
  stepCostsOK (config nav2Goal) (grid nav2Goal) ∧
  ∃ k, Nat.iter k (relaxStep (config nav2Goal))
                (fieldStart nav2Goal, [goal nav2Goal])
       = (propagated nav2Goal, []) ∧
       snd (computeFlowField nav2Goal) = None ∧
       Distances (grid (fst (computeFlowField nav2Goal)))
         = Distances (propagated nav2Goal).
Proof.
  assert (Hwf : wf_grid (grid nav2Goal)) by apply wf_NewGrid.
  assert (Hp : IsPassable (grid nav2Goal) (goal nav2Goal) = true)
    by reflexivity.
  assert (Hok : stepCostsOK (config nav2Goal) (grid nav2Goal))
    by (apply stepCostsOKb_sound; vm_compute; reflexivity).
  split_and!; [exact Hwf|exact Hp|exact Hok|].
  exact (proj1 (C2_propagation_terminates nav2Goal Hwf Hp Hok)).
Defined.

(** ** [UpdateCosts] *)

Lemma copyRows_success costs rows :
  ∀ g g', shape2 (Height g) (Width g) (Costs g) →
    Z.of_nat (length costs) = Height g →
    (∀ y, y ∈ rows → 0 <= y < Height g) →
    copyRows g costs rows = (g', None) →
    g' = withCosts g (Costs g') ∧
    shape2 (Height g) (Width g) (Costs g') ∧
    (∀ i, Z.of_nat i ∈ rows → Costs g' !! i = costs !! i) ∧
    (∀ i, Z.of_nat i ∉ rows → Costs g' !! i = Costs g !! i).
Proof.
  induction rows as [|y rows IH];
    intros g g' Hsh Hcl Hrows Hcopy; simpl in Hcopy.
  - injection Hcopy as <-. split_and!; try done.
    + by destruct g.
    + intros i Hi. by apply elem_of_nil in Hi.
  - assert (Hy : 0 <= y < Height g) by (apply Hrows; left).
    destruct (lookup_lt_is_Some_2 costs (Z.to_nat y)) as [src Hsrc]; [lia|].
    rewrite Hsrc in Hcopy. simpl in Hcopy.
    destruct (Z.eqb_spec (Z.of_nat (length src)) (Width g)) as [Hlen|];
      simpl in Hcopy; [|done].
    pose proof Hsh as [Hl Hall].
    destruct (lookup_lt_is_Some_2 (Costs g) (Z.to_nat y)) as [dst Hdst]; [lia|].
    assert (Hdl : length dst = Z.to_nat (Width g)).
    { rewrite Forall_lookup in Hall. by apply (Hall _ _ Hdst). }
    rewrite Hdst in Hcopy. simpl in Hcopy.
    rewrite copy_same_length in Hcopy by lia.
    set (g1 := withCosts g (<[Z.to_nat y:=src]> (Costs g))) in *.
    assert (Hsh1 : shape2 (Height g1) (Width g1) (Costs g1)).
    { split; simpl.
      - by rewrite length_insert.
      - apply Forall_insert; [done|lia]. }
    destruct (IH g1 g' Hsh1 Hcl
                (λ y' Hy', Hrows y' (list_elem_of_further _ _ _ Hy')) Hcopy)
      as (Hg' & Hsh' & Hin & Hout).
    split_and!; try done.
    + intros i Hi. destruct (decide (Z.of_nat i ∈ rows)) as [Hr|Hr];
        [by apply Hin|].
      apply elem_of_cons in Hi as [Hi|Hi]; [|done]. subst y.
      rewrite (Hout i Hr). simpl. rewrite Nat2Z.id in *.
      rewrite list_lookup_insert_eq by (by eapply lookup_lt_Some). done.
    + intros i Hi. apply not_elem_of_cons in Hi as [Hne Hr].
      rewrite (Hout i Hr). simpl.
      apply list_lookup_insert_ne. lia.
Qed.

Lemma copyRows_all g costs g' :
  wf_grid g → Z.of_nat (length costs) = Height g →
  copyRows g costs (seqZ 0 (Height g)) = (g', None) →
  g' = withCosts g costs ∧ shape2 (Height g) (Width g) costs.
Proof.
  intros (Hsh & _) Hcl Hcopy.
  destruct (copyRows_success costs (seqZ 0 (Height g)) g g' Hsh Hcl)
    as (Hg' & Hsh' & Hin & _); [|done|].
  { intros y Hy. apply elem_of_seqZ in Hy. lia. }
  assert (Costs g' = costs) as Heq.
  { destruct Hsh' as [Hl' _].
    apply list_eq_same_length with (n := length costs); [done|lia|].
    intros i r r' Hi Hr Hr'.
    rewrite Hin in Hr by (apply elem_of_seqZ; lia). congruence. }
  rewrite Heq in *. done.
Qed.

(** A cost matrix of the grid's dimensions: every row is copied. *)
Lemma copyRows_dimsMatch g costs :
  wf_grid g → dimsMatch g costs →
  copyRows g costs (seqZ 0 (Height g)) = (withCosts g costs, None).
Proof.
  intros Hwf [Hl Hall].
  enough (H : ∀ rows g1, Width g1 = Width g →
            (∀ y, y ∈ rows → 0 <= y < Height g) →
            snd (copyRows g1 costs rows) = None).
  { destruct (copyRows g costs (seqZ 0 (Height g))) as [g' e] eqn:Hcopy.
    assert (He : snd (copyRows g costs (seqZ 0 (Height g))) = None).
    { apply H; [done|]. intros y Hy. apply elem_of_seqZ in Hy. lia. }
    rewrite Hcopy in He. simpl in He. subst e.
    by apply copyRows_all in Hcopy as [-> _]. }
  induction rows as [|y rows IH]; intros g1 HW Hrows; simpl; [done|].
  assert (Hy : 0 <= y < Height g) by (apply Hrows; left).
  destruct (lookup_lt_is_Some_2 costs (Z.to_nat y)) as [src Hsrc]; [lia|].
  rewrite Hsrc. simpl.
  rewrite Forall_lookup in Hall. rewrite (Hall _ _ Hsrc), HW.
  rewrite Z.eqb_refl; simpl.
  apply IH; [done|]. intros y' Hy'. apply Hrows. by right.
Qed.

Lemma dimsMatch_shape2 g costs :
  dimsMatch g costs → shape2 (Height g) (Width g) costs.
Proof.
  intros [Hl Hall]. split; [lia|].
  eapply Forall_impl; [exact Hall|]. simpl. intros; lia.
Qed.

Lemma wf_withCosts g costs :
  wf_grid g → shape2 (Height g) (Width g) costs → wf_grid (withCosts g costs).
Proof. intros (?&?&?&?) ?. unfold wf_grid; simpl. by split_and!. Qed.

(** What a successful [UpdateCosts] did. *)
Lemma UpdateCosts_ok f costs f' :
  wf_grid (grid f) → UpdateCosts f costs = (f', None) →
  let f1 := withGrid f (withCosts (grid f) costs) in
  wf_grid (grid f1) ∧
  if isGoalSet f
  then IsPassable (grid f1) (goal f1) = true ∧
       computeFlowField f1 = (f', None)
  else f' = f1.
Proof.
  intros Hwf. unfold UpdateCosts.
  destruct (Z.eqb_spec (Z.of_nat (length costs)) (Height (grid f)))
    as [Hl|]; simpl; [|done].
  destruct (copyRows _ _ _) as [g [e|]] eqn:Hcopy; [done|].
  apply copyRows_all in Hcopy as [-> Hsh]; [|done..].
  simpl. intros Hres. split; [by apply wf_withCosts|].
  destruct (isGoalSet f); [|by injection Hres as <-].
  destruct (IsPassable (withCosts (grid f) costs) (goal f)) eqn:Hp;
    simpl in Hres; [|done].
  done.
Qed.

(** ** The field after a recomputation *)

Lemma IsPassable_frame g g' p :
  Width g' = Width g → Height g' = Height g → Costs g' = Costs g →
  IsPassable g' p = IsPassable g p.
Proof.
  intros HW HH HC. unfold IsPassable, IsValidPosition, costAt.
  by rewrite HW, HH, HC.
Qed.

Lemma recomputed_spec f' :
  recomputed f' →
  ∃ f1, wf_grid (grid f1) ∧ IsPassable (grid f1) (goal f1) = true ∧
        isGoalSet f1 = true ∧ computeFlowField f1 = (f', None).
Proof.
  intros (f & Hwf & [(goalPos & Hset)|(Hgs & costs & Hupd)]).
  - exists (mkNav (config f) (grid f) goalPos true).
    unfold SetGoal in Hset.
    destruct (IsValidPosition (grid f) goalPos); simpl in Hset; [|done].
    destruct (IsPassable (grid f) goalPos) eqn:Hp; simpl in Hset; [|done].
    done.
  - apply UpdateCosts_ok in Hupd; [|done]. rewrite Hgs in Hupd.
    destruct Hupd as (Hwf1 & Hp & Hc).
    exists (withGrid f (withCosts (grid f) costs)). done.
Qed.

(** C3: after a successful field recomputation, a cell's stored flow
    direction is (0,0) or leads to a passable cell; and a passable cell
    other than the goal none of whose in-bounds neighbours has a smaller
    distance has flow direction (0,0) and [GetFlowDirection] answers
    [ErrNoPath] for it. *)
Theorem C3_flow_never_enters_impassable f' :
  recomputed f' →
  (∀ p, inBounds (grid f') p →
     flowAt (grid f') p = zeroDir ∨
     IsPassable (grid f') (stepPos p (flowAt (grid f') p)) = true) ∧
  (∀ p, IsPassable (grid f') p = true → p ≠ goal f' →
     (∀ dir, dir ∈ Directions (config f') →
        inBounds (grid f') (stepPos p dir) →
        distAt (grid f') p <= distAt (grid f') (stepPos p dir)) →
     flowAt (grid f') p = zeroDir ∧
     GetFlowDirection f' p = (zeroDir, Some ErrNoPath)).
Proof.
  intros Hrec.
  destruct (recomputed_spec f' Hrec) as (f1 & Hwf & Hgoal & Hgs & Hcomp).
  destruct (computeFlowField_spec f1 Hwf Hgoal)
    as (g' & Heq & Hwf' & HW & HH & HC & HT & HD & Hflow).
  rewrite Hcomp in Heq. injection Heq as ->. simpl.
  pose proof (propagated_relaxInv f1 Hwf Hgoal) as (_ & Hrange & Himp & _).
  assert (Hpass : ∀ p, IsPassable g' p = IsPassable (propagated f1) p).
  { intros p. rewrite propagated_IsPassable by done.
    by apply IsPassable_frame. }
  assert (Hib : ∀ p, inBounds g' p ↔ inBounds (propagated f1) p).
  { intros p. rewrite propagated_inBounds by done.
    unfold inBounds. by rewrite HW, HH. }
  assert (Hbest : ∀ p, bestDirection (config f1) g' p
                       = bestDirection (config f1) (propagated f1) p).
  { intros p. destruct (propagated_sameFrame f1 Hwf Hgoal) as (HW1 & HH1 & _).
    destruct (fieldStart_frame f1 Hwf) as (HW2 & HH2 & _).
    assert (Width g' = Width (propagated f1)) as HWp by congruence.
    assert (Height g' = Height (propagated f1)) as HHp by congruence.
    clear -HWp HHp HD. destruct g', (propagated f1); simpl in *; by subst. }
  split.
  - intros p Hp.
    assert (Hp1 : inBounds (grid f1) p) by (unfold inBounds; by rewrite <- HW, <- HH).
    rewrite (Hflow p Hp1).
    destruct (IsPassable (grid f1) p && negb (bool_decide (p = goal f1)));
      [|by left].
    destruct (bestDirection_cases (config f1) (propagated f1) p)
      as [Hz|(_ & Hnb & Hlt)]; [by left|right].
    rewrite Hpass.
    destruct (IsPassable (propagated f1) _) eqn:Hpn; [done|].
    rewrite (Himp _ Hnb Hpn) in Hlt.
    apply Hib in Hp. specialize (Hrange p Hp). lia.
  - intros p Hp Hne Hall.
    pose proof (IsPassable_inBounds _ _ Hp) as Hpb.
    assert (Hp1 : inBounds (grid f1) p) by (unfold inBounds; by rewrite <- HW, <- HH).
    assert (Hz : flowAt g' p = zeroDir).
    { rewrite (Hflow p Hp1).
      destruct (IsPassable (grid f1) p && negb (bool_decide (p = goal f1)));
        [|done].
      rewrite <- Hbest. by apply bestDirection_none. }
    split; [done|].
    unfold GetFlowDirection. simpl. rewrite Hgs. simpl.
    rewrite (proj2 (IsValidPosition_inBounds g' p) Hpb). simpl.
    rewrite goal_test, bool_decide_false by done.
    rewrite Hz. simpl.
    rewrite <- negb_andb, goal_test, bool_decide_false by done. done.
Qed.

Lemma wf_navWall : wf_grid (grid navWall).
Proof.
  unfold wf_grid, shape2. simpl.
  split_and!; try reflexivity; by repeat constructor.
Qed.

Lemma C3_flow_never_enters_impassable_witness :
  recomputed navWallGoal ∧
  (∀ p, inBounds (grid navWallGoal) p →
     flowAt (grid navWallGoal) p = zeroDir ∨
     IsPassable (grid navWallGoal)
       (stepPos p (flowAt (grid navWallGoal) p)) = true) ∧
  (∀ p, IsPassable (grid navWallGoal) p = true → p ≠ goal navWallGoal →
     (∀ dir, dir ∈ Directions (config navWallGoal) →
        inBounds (grid navWallGoal) (stepPos p dir) →
        distAt (grid navWallGoal) p
          <= distAt (grid navWallGoal) (stepPos p dir)) →
     flowAt (grid navWallGoal) p = zeroDir ∧
     GetFlowDirection navWallGoal p = (zeroDir, Some ErrNoPath)).
Proof.
  assert (Hrec : recomputed navWallGoal).
  { exists navWall. split; [apply wf_navWall|].
    left. exists (mkPos 0 0). vm_compute. reflexivity. }
  split; [exact Hrec|].
  exact (C3_flow_never_enters_impassable navWallGoal Hrec).
Defined.

(** The cell behind the wall: distance [MaxInt32], no direction, and
    [ErrNoPath] from the query. *)
Example navWall_behind_the_wall :
  distAt (grid navWallGoal) (mkPos 2 0) = MaxInt32 ∧
  flowAt (grid navWallGoal) (mkPos 2 0) = zeroDir ∧
  GetFlowDirection navWallGoal (mkPos 2 0) = (zeroDir, Some ErrNoPath).
Proof. split_and!; vm_compute; reflexivity. Qed.

(** ** Recomputing with unchanged costs *)

Lemma computeFlowField_reset f1 f2 :
  config f1 = config f2 → goal f1 = goal f2 → isGoalSet f1 = isGoalSet f2 →
  resetField (grid f1) = resetField (grid f2) →
  computeFlowField f1 = computeFlowField f2.
Proof.
  intros Hc Hg Hs Hr. unfold computeFlowField, withGrid.
  by rewrite Hc, Hg, Hs, Hr.
Qed.



Lemma UpdateCosts_dimsMatch f costs :
  wf_grid (grid f) → dimsMatch (grid f) costs →
  UpdateCosts f costs =
    let f1 := withGrid f (withCosts (grid f) costs) in
    if isGoalSet f1 then
      if negb (IsPassable (grid f1) (goal f1))
      then (mkNav (config f1) (grid f1) (goal f1) false, Some ErrInvalidGoal)
      else computeFlowField f1
    else (f1, None).
Proof.
  intros Hwf Hdm. unfold UpdateCosts.
  rewrite (copyRows_dimsMatch _ _ Hwf Hdm).
  destruct Hdm as [-> _]. by rewrite Z.eqb_refl.
Qed.



(** ** [UpdateCosts] does not validate costs *)

Lemma copyRows_error g costs rows e :
  snd (copyRows g costs rows) = Some e →
  e = ErrNew "cost grid width doesn't match navigator grid".
Proof.
  revert g. induction rows as [|y rows IH]; intros g; simpl; [done|].
  destruct (negb _); simpl; [congruence|apply IH].
Qed.





(** The cell of cost -5 is passable, and the first iteration of the
    propagation from the goal (0,0) records it at distance -5 and
    enqueues it. *)
Example navNeg_first_iteration :
  snd (UpdateCosts nav2 [[1; -5]]) = None ∧
  IsPassable (grid navNeg) (mkPos 1 0) = true ∧
  (let st := relaxStep (config navNeg) (fieldStart navNeg, [goal navNeg]) in
   distAt (fst st) (mkPos 1 0) = -5 ∧ snd st = [mkPos 1 0]).
Proof. split_and!; try split; vm_compute; reflexivity. Qed.

(** ** A cost matrix of the wrong dimensions *)

Lemma UpdateCosts_height_mismatch f costs :
  Z.of_nat (length costs) ≠ Height (grid f) →
  UpdateCosts f costs
    = (f, Some (ErrNew "cost grid height doesn't match navigator grid")).
Proof.
  intros Hne. unfold UpdateCosts.
  by destruct (Z.eqb_spec (Z.of_nat (length costs)) (Height (grid f))).
Qed.

(** C5 at its failing input: on the 2×2 navigator of unit costs, the
    matrix [[5, 5], [7]] has the right height and a second row of the
    wrong width.  [UpdateCosts] reports the width mismatch, but row 0 has
    been overwritten by then: the stored costs are [[5, 5], [1, 1]]. *)
Theorem C5_width_mismatch_leaves_partial_copy :
  Costs (grid nav22) = [[1; 1]; [1; 1]] ∧
  snd (UpdateCosts nav22 [[5; 5]; [7]])
    = Some (ErrNew "cost grid width doesn't match navigator grid") ∧
  Costs (grid (fst (UpdateCosts nav22 [[5; 5]; [7]]))) = [[5; 5]; [1; 1]] ∧
  costAt (grid (fst (UpdateCosts nav22 [[5; 5]; [7]]))) (mkPos 0 0)
    ≠ costAt (grid nav22) (mkPos 0 0).
Proof. split_and!; try reflexivity. vm_compute. discriminate. Qed.

(** ** Costs and classifications *)

Lemma typeAt_setCost g p c q : typeAt (setCost g p c) q = typeAt g q.
Proof. reflexivity. Qed.

Lemma costAt_setCellType g p t q : costAt (setCellType g p t) q = costAt g q.
Proof. reflexivity. Qed.

Lemma setter_block_inv g pos t :
  blockedType t → wf_grid g → inBounds g pos →
  let g' := setCellType (setCost g pos (-1)) pos t in
  wf_grid g' ∧
  ∀ p, inBounds g p →
    (costAt g p = -1 → blockedType (typeAt g p)) →
    costAt g' p = -1 → blockedType (typeAt g' p).
Proof.
  intros Ht Hwf Hpos g'. split; [by apply wf_setCellType, wf_setCost|].
  intros p Hp Hold. unfold g'. destruct (decide (p = pos)) as [->|Hne].
  - intros _. rewrite typeAt_setCellType_eq; [done|by apply wf_setCost|done].
  - rewrite costAt_setCellType, costAt_setCost_ne by done.
    by rewrite typeAt_setCellType_ne, typeAt_setCost by done.
Qed.

(** C4, as stated, fails, in both directions: after
    [UpdateCosts([][]int{{-1, 1}})] cell (0,0) has cost -1 and is still
    classified [Passable]; and after [SetObstacle] then [SetCost 5] on a
    cell, the cell has cost 5 and is still classified [Obstacle]. *)
Lemma C4_cost_and_type_diverge :
  (let g := grid (applyOps nav2 [OpUpdateCosts [[-1; 1]]]) in
   costAt g (mkPos 0 0) = -1 ∧ typeAt g (mkPos 0 0) = Passable ∧
   ¬ costMatchesType g (mkPos 0 0)) ∧
  (let g := grid (applyOps nav2 [OpSetObstacle (mkPos 0 0);
                                 OpSetCost (mkPos 0 0) 5]) in
   costAt g (mkPos 0 0) = 5 ∧ typeAt g (mkPos 0 0) = Obstacle ∧
   ¬ costMatchesType g (mkPos 0 0)).
Proof.
  split; cbv zeta; split_and!; try reflexivity.
  - intros [H _]. specialize (H eq_refl). destruct H; discriminate.
  - intros [_ H]. assert (Hb : blockedType Obstacle) by (by left).
    specialize (H Hb). vm_compute in H. discriminate.
Qed.

(** C4, amended: along every sequence of [SetObstacle], [SetBuilding] and
    [SetCost] applied to a new grid, every cell whose cost is -1 is
    classified [Obstacle] or [Building]. *)
Theorem C4_setters_keep_blocked_cells_classified w h ops p :
  Forall isSetter ops →
  let g := grid (applyOps (mkNav (EightWayConfig w h) (NewGrid w h)
                                 (mkPos 0 0) false) ops) in
  inBounds g p → costAt g p = -1 → blockedType (typeAt g p).
Proof.
  intros Hops.
  set (f0 := mkNav _ _ _ _).
  pose (P := λ f : FlowFieldNavigator,
    wf_grid (grid f) ∧
    ∀ p, inBounds (grid f) p → costAt (grid f) p = -1 →
         blockedType (typeAt (grid f) p)).
  enough (HP : P (applyOps f0 ops)) by (intros g; apply HP).
  unfold applyOps. apply fold_left_ind.
  - split; [apply wf_NewGrid|].
    intros q [Hx Hy]. unfold costAt. simpl.
    rewrite get2_make2 by done. discriminate.
  - intros op f Hop [Hwf Hinv].
    rewrite Forall_forall in Hops. specialize (Hops op Hop).
    destruct op as [pos|pos|pos cost|costs]; simpl in *; [| | |done].
    + unfold SetObstacle.
      destruct (IsValidPosition (grid f) pos) eqn:Hv; simpl; [|done].
      apply IsValidPosition_inBounds in Hv.
      destruct (setter_block_inv (grid f) pos Obstacle) as [Hwf' Hstep];
        [by left|done..|].
      split; [done|]. intros q Hq. apply Hstep; [exact Hq|by apply Hinv].
    + unfold SetBuilding.
      destruct (IsValidPosition (grid f) pos) eqn:Hv; simpl; [|done].
      apply IsValidPosition_inBounds in Hv.
      destruct (setter_block_inv (grid f) pos Building) as [Hwf' Hstep];
        [by right|done..|].
      split; [done|]. intros q Hq. apply Hstep; [exact Hq|by apply Hinv].
    + unfold SetCost.
      destruct (IsValidPosition (grid f) pos) eqn:Hv; simpl; [|done].
      apply IsValidPosition_inBounds in Hv.
      destruct (Z.ltb_spec cost 0); simpl; [done|].
      split; [by apply wf_setCost|].
      intros q Hq.
      change (costAt (setCost (grid f) pos cost) q = -1 →
              blockedType (typeAt (grid f) q)).
      destruct (decide (q = pos)) as [->|Hne].
      * rewrite costAt_setCost_eq by done. lia.
      * rewrite costAt_setCost_ne by done. by apply Hinv.
Qed.

Lemma C4_setters_keep_blocked_cells_classified_witness :
  Forall isSetter [OpSetObstacle (mkPos 1 0); OpSetCost (mkPos 0 0) 3;
                   OpSetBuilding (mkPos 0 0)] ∧
  (let g := grid (applyOps (mkNav (EightWayConfig 2 1) (NewGrid 2 1)
                                  (mkPos 0 0) false)
                    [OpSetObstacle (mkPos 1 0); OpSetCost (mkPos 0 0) 3;
                     OpSetBuilding (mkPos 0 0)]) in
   inBounds g (mkPos 0 0) ∧ costAt g (mkPos 0 0) = -1 ∧
   blockedType (typeAt g (mkPos 0 0))).
Proof.
  assert (Hops : Forall isSetter
            [OpSetObstacle (mkPos 1 0); OpSetCost (mkPos 0 0) 3;
             OpSetBuilding (mkPos 0 0)]) by (by repeat constructor).
  split; [exact Hops|]. cbv zeta.
  assert (Hb : inBounds (grid (applyOps (mkNav (EightWayConfig 2 1)
                  (NewGrid 2 1) (mkPos 0 0) false)
                  [OpSetObstacle (mkPos 1 0); OpSetCost (mkPos 0 0) 3;
                   OpSetBuilding (mkPos 0 0)])) (mkPos 0 0))
    by (vm_compute; intuition discriminate).
  split_and!; [exact Hb|reflexivity|].
  exact (C4_setters_keep_blocked_cells_classified 2 1 _ (mkPos 0 0)
           Hops Hb eq_refl).
Defined.

(** ** [GetGrid] on values *)

(** Copying every row of [src] over a slice of the same shape yields
    [src]. *)
Lemma copy_rows_fold {A} (src : list (list A)) rows cols :
  shape2 rows cols src →
  ∀ (ys : list Z) (dst : list (list A)),
    shape2 rows cols dst → (∀ y, y ∈ ys → 0 <= y < rows) →
    let dst' := fold_left (copyRowAt src) ys dst in
    shape2 rows cols dst' ∧
    ∀ i, dst' !! i = if bool_decide (Z.of_nat i ∈ ys) then src !! i
                     else dst !! i.
Proof.
  intros [Hsl Hsall]. induction ys as [|y ys IH]; intros dst Hsh Hys; simpl.
  - split; [done|]. intros i. done.
  - assert (Hy : 0 <= y < rows) by (apply Hys; left).
    pose proof Hsh as [Hdl Hdall].
    destruct (lookup_lt_is_Some_2 src (Z.to_nat y)) as [c Hc]; [lia|].
    destruct (lookup_lt_is_Some_2 dst (Z.to_nat y)) as [d Hd]; [lia|].
    rewrite Forall_lookup in Hsall. rewrite Forall_lookup in Hdall.
    assert (Hstep : copyRowAt src dst y = <[Z.to_nat y := c]> dst).
    { unfold copyRowAt. rewrite Hc, Hd. simpl.
      by rewrite copy_same_length
        by (rewrite (Hsall _ _ Hc), (Hdall _ _ Hd); done). }
    rewrite Hstep.
    destruct (IH (<[Z.to_nat y := c]> dst)) as [Hsh' Hlook].
    { split; [by rewrite length_insert|].
      apply Forall_insert; [by apply Forall_lookup|]. by apply (Hsall _ _ Hc). }
    { intros y' Hy'. apply Hys. by right. }
    split; [done|]. intros i. rewrite Hlook.
    destruct (decide (Z.of_nat i ∈ ys)) as [Hin|Hin].
    + rewrite (bool_decide_true _ Hin).
      rewrite bool_decide_true by (by right). done.
    + rewrite (bool_decide_false _ Hin).
      destruct (decide (i = Z.to_nat y)) as [->|Hne].
      * rewrite bool_decide_true by (rewrite Z2Nat.id by lia; left).
        rewrite list_lookup_insert_eq by (by eapply lookup_lt_Some). done.
      * rewrite list_lookup_insert_ne by done.
        rewrite bool_decide_false; [done|].
        intros [Heq|?]%elem_of_cons; [lia|done].
Qed.

Lemma copy_rows_all {A} (src dst : list (list A)) rows cols :
  shape2 rows cols src → shape2 rows cols dst →
  fold_left (copyRowAt src) (seqZ 0 rows) dst = src.
Proof.
  intros Hs Hd.
  destruct (copy_rows_fold src rows cols Hs (seqZ 0 rows) dst Hd)
    as [[Hl _] Hlook].
  { intros y Hy. apply elem_of_seqZ in Hy. lia. }
  apply list_eq. intros i. rewrite Hlook.
  destruct (decide (i < Z.to_nat rows)%nat).
  - rewrite bool_decide_true; [done|]. apply elem_of_seqZ. lia.
  - rewrite bool_decide_false by (rewrite elem_of_seqZ; lia).
    destruct Hs as [Hsl _]. destruct Hd as [Hdl _].
    rewrite !lookup_ge_None_2; [done|lia..].
Qed.

Lemma copyRow3_fold src ys :
  ∀ dst,
    fold_left (copyRow3 src) ys dst =
    mkGrid (Width dst) (Height dst)
      (fold_left (copyRowAt (Costs src)) ys (Costs dst))
      (fold_left (copyRowAt (FlowField src)) ys (FlowField dst))
      (fold_left (copyRowAt (Distances src)) ys (Distances dst))
      (CellTypes dst).
Proof.
  induction ys as [|y ys IH]; intros dst; simpl.
  - by destruct dst.
  - by rewrite IH.
Qed.

Lemma GetGrid_spec f :
  wf_grid (grid f) →
  GetGrid f =
    mkGrid (Width (grid f)) (Height (grid f)) (Costs (grid f))
           (FlowField (grid f)) (Distances (grid f))
           (make2 Passable (Width (grid f)) (Height (grid f))).
Proof.
  intros (Hc & Hf & Hd & _). unfold GetGrid.
  rewrite copyRow3_fold. simpl. f_equal.
  - eapply copy_rows_all; [done|apply shape2_make2].
  - eapply copy_rows_all; [done|apply shape2_make2].
  - eapply copy_rows_all; [done|apply shape2_make2].
Qed.

(** ** Grids in the store *)

Section StoreFacts.
Context {A : Type} (mk : list A → Cells) (as_ : Cells → option (list A)).
Hypothesis as_mk : ∀ x, as_ (mk x) = Some x.
Hypothesis mk_as : ∀ c x, as_ c = Some x → c = mk x.

Lemma readRows_sliceAt (s : Store) outer rows m :
  sliceAt mk s outer rows m → readRows as_ s outer = Some m.
Proof using as_mk.
  intros [Ho Hrows]. unfold readRows, rowLocs. rewrite Ho. simpl.
  apply mapM_Some. eapply Forall2_impl; [exact Hrows|].
  simpl. intros l row ->. simpl. apply as_mk.
Qed.

Lemma readRows_inv (s : Store) outer m :
  readRows as_ s outer = Some m → ∃ rows, sliceAt mk s outer rows m.
Proof using mk_as.
  unfold readRows, rowLocs. intros H.
  destruct (s !! outer) as [[| | |rows]|] eqn:Ho; simplify_eq/=.
  exists rows. split; [done|].
  apply mapM_Some in H. eapply Forall2_impl; [exact H|].
  simpl. intros l row Hl.
  destruct (s !! l) as [c|]; simplify_eq/=. f_equal. by apply mk_as.
Qed.

Lemma sliceAt_frame (s s2 : Store) outer rows m :
  sliceAt mk s outer rows m →
  (∀ l, l ∈ outer :: rows → s2 !! l = s !! l) →
  sliceAt mk s2 outer rows m.
Proof using Type.
  intros [Ho Hrows] Hsame. split.
  - rewrite Hsame; [done|left].
  - apply Forall2_same_length_lookup. split; [by eapply Forall2_length|].
    intros i l row Hl Hrow. rewrite Hsame.
    + exact (Forall2_lookup_lr _ _ _ _ _ _ Hrows Hl Hrow).
    + right. by eapply list_elem_of_lookup_2.
Qed.

Lemma sliceAt_rowLocs (s : Store) outer rows m :
  sliceAt mk s outer rows m → rowLocs s outer = Some rows.
Proof using Type. intros [Ho _]. unfold rowLocs. by rewrite Ho. Qed.

End StoreFacts.

Lemma allocRows_spec c n : ∀ (s : Store) ls s',
  allocRows c n s = (ls, s') →
  length ls = n ∧ NoDup ls ∧ (∀ l, l ∈ ls → l ∉ dom s) ∧
  (∀ l, l ∈ ls → s' !! l = Some c) ∧
  (∀ l, l ∉ ls → s' !! l = s !! l) ∧
  dom s' = dom s ∪ list_to_set ls.
Proof.
  induction n as [|n IH]; intros s ls s' Halloc; simpl in Halloc.
  - injection Halloc as <- <-. split_and!; try done.
    + constructor.
    + intros l Hl. by apply elem_of_nil in Hl.
    + intros l Hl. by apply elem_of_nil in Hl.
    + set_solver.
  - destruct (allocRows c n (<[fresh (dom s) := c]> s)) as [ls1 s1] eqn:Hrec.
    injection Halloc as <- <-.
    destruct (IH _ _ _ Hrec) as (Hlen & Hnd & Hfresh & Hnew & Hold & Hdom).
    pose proof (is_fresh (dom s)) as Hf.
    assert (Hnotin : fresh (dom s) ∉ ls1).
    { intros Hin. apply (Hfresh _ Hin). rewrite dom_insert. set_solver. }
    split_and!.
    + simpl. by rewrite Hlen.
    + by constructor.
    + intros l [->|Hl]%elem_of_cons; [done|].
      specialize (Hfresh l Hl). rewrite dom_insert in Hfresh. set_solver.
    + intros l [->|Hl]%elem_of_cons; [|by apply Hnew].
      rewrite Hold by done. by rewrite lookup_insert_eq.
    + intros l [Hne Hl]%not_elem_of_cons.
      rewrite Hold by done. by rewrite lookup_insert_ne.
    + rewrite Hdom, dom_insert_L. set_solver.
Qed.

Lemma allocSlice2_spec {A} (mk : list A → Cells) (row : list A) height
    (s : Store) outer s' :
  allocSlice2 (mk row) height s = (outer, s') →
  ∃ rows, sliceAt mk s' outer rows (replicate (Z.to_nat height) row) ∧
    NoDup (outer :: rows) ∧ (∀ l, l ∈ outer :: rows → l ∉ dom s) ∧
    (∀ l, l ∉ outer :: rows → s' !! l = s !! l) ∧
    dom s' = dom s ∪ list_to_set (outer :: rows).
Proof.
  unfold allocSlice2, alloc.
  destruct (allocRows (mk row) (Z.to_nat height) s) as [rows s1] eqn:Hrows.
  intros [= <- <-].
  destruct (allocRows_spec _ _ _ _ _ Hrows)
    as (Hlen & Hnd & Hfresh & Hnew & Hold & Hdom).
  pose proof (is_fresh (dom s1)) as Hf.
  assert (Hrsub : list_to_set rows ⊆ dom s1) by (rewrite Hdom; set_solver).
  assert (Hnotin : fresh (dom s1) ∉ rows).
  { intros Hin. apply Hf, Hrsub. by apply elem_of_list_to_set. }
  exists rows. split_and!.
  - split; [by rewrite lookup_insert_eq|].
    apply Forall2_same_length_lookup. split; [by rewrite length_replicate|].
    intros i l r Hl Hr. apply lookup_replicate in Hr as [-> _].
    rewrite lookup_insert_ne.
    + apply Hnew. by eapply list_elem_of_lookup_2.
    + intros <-. apply Hnotin. by eapply list_elem_of_lookup_2.
  - by constructor.
  - assert (Hsub : dom s ⊆ dom s1) by (rewrite Hdom; set_solver).
    intros l [->|Hl]%elem_of_cons; [|by apply Hfresh].
    intros Hin. apply Hf, Hsub, Hin.
  - intros l [Hne Hl]%not_elem_of_cons.
    rewrite lookup_insert_ne by done. by apply Hold.
  - rewrite dom_insert_L, Hdom. set_solver.
Qed.

Lemma storeNewGrid_spec width height (s : Store) c s' :
  storeNewGrid width height s = (c, s') →
  refWidth c = width ∧ refHeight c = height ∧
  ∃ cr fr dr tr,
    sliceAt IntCells s' (refCosts c) cr (make2 1 width height) ∧
    sliceAt DirCells s' (refFlowField c) fr (make2 zeroDir width height) ∧
    sliceAt IntCells s' (refDistances c) dr (make2 0 width height) ∧
    sliceAt TypeCells s' (refCellTypes c) tr (make2 Passable width height) ∧
    NoDup (refCosts c :: cr) ∧ NoDup (refFlowField c :: fr) ∧
    NoDup (refDistances c :: dr) ∧ NoDup (refCellTypes c :: tr) ∧
    (∀ l, l ∈ (refCosts c :: cr) →
       (l ∉ (refFlowField c :: fr)) ∧ (l ∉ (refDistances c :: dr)) ∧
       l ∉ (refCellTypes c :: tr)) ∧
    (∀ l, l ∈ (refFlowField c :: fr) →
       (l ∉ (refDistances c :: dr)) ∧ l ∉ (refCellTypes c :: tr)) ∧
    (∀ l, l ∈ (refDistances c :: dr) → l ∉ (refCellTypes c :: tr)) ∧
    (∀ l, l ∈ (refCosts c :: cr) ∨ l ∈ (refFlowField c :: fr) ∨
          l ∈ (refDistances c :: dr) ∨ l ∈ (refCellTypes c :: tr) →
          l ∉ dom s) ∧
    (∀ l, l ∉ (refCosts c :: cr) → l ∉ (refFlowField c :: fr) →
          l ∉ (refDistances c :: dr) → l ∉ (refCellTypes c :: tr) →
          s' !! l = s !! l).
Proof.
  unfold storeNewGrid.
  destruct (allocSlice2 (IntCells (replicate (Z.to_nat width) 1)) height s)
    as [o1 s1] eqn:H1.
  destruct (allocSlice2 (DirCells (replicate (Z.to_nat width) zeroDir))
              height s1) as [o2 s2] eqn:H2.
  destruct (allocSlice2 (IntCells (replicate (Z.to_nat width) 0)) height s2)
    as [o3 s3] eqn:H3.
  destruct (allocSlice2 (TypeCells (replicate (Z.to_nat width) Passable))
              height s3) as [o4 s4] eqn:H4.
  intros [= <- <-]. simpl.
  apply allocSlice2_spec in H1 as (cr & Hs1 & Hnd1 & Hf1 & Ho1 & Hd1).
  apply allocSlice2_spec in H2 as (fr & Hs2 & Hnd2 & Hf2 & Ho2 & Hd2).
  apply allocSlice2_spec in H3 as (dr & Hs3 & Hnd3 & Hf3 & Ho3 & Hd3).
  apply allocSlice2_spec in H4 as (tr & Hs4 & Hnd4 & Hf4 & Ho4 & Hd4).
  split; [done|]. split; [done|].
  exists cr, fr, dr, tr.
  assert (H12 : ∀ l, l ∈ o1 :: cr → l ∉ o2 :: fr).
  { intros l Hl Hl2. apply (Hf2 l Hl2). rewrite Hd1. set_solver. }
  assert (H13 : ∀ l, l ∈ o1 :: cr → l ∉ o3 :: dr).
  { intros l Hl Hl3. apply (Hf3 l Hl3). rewrite Hd2, Hd1. set_solver. }
  assert (H14 : ∀ l, l ∈ o1 :: cr → l ∉ o4 :: tr).
  { intros l Hl Hl4. apply (Hf4 l Hl4). rewrite Hd3, Hd2, Hd1. set_solver. }
  assert (H23 : ∀ l, l ∈ o2 :: fr → l ∉ o3 :: dr).
  { intros l Hl Hl3. apply (Hf3 l Hl3). rewrite Hd2. set_solver. }
  assert (H24 : ∀ l, l ∈ o2 :: fr → l ∉ o4 :: tr).
  { intros l Hl Hl4. apply (Hf4 l Hl4). rewrite Hd3, Hd2. set_solver. }
  assert (H34 : ∀ l, l ∈ o3 :: dr → l ∉ o4 :: tr).
  { intros l Hl Hl4. apply (Hf4 l Hl4). rewrite Hd3. set_solver. }
  split_and!; try done.
  - eapply sliceAt_frame; [exact Hs1|]. intros l Hl.
    rewrite Ho4, Ho3, Ho2; [done|by apply H12|by apply H13|by apply H14].
  - eapply sliceAt_frame; [exact Hs2|]. intros l Hl.
    rewrite Ho4, Ho3; [done|by apply H23|by apply H24].
  - eapply sliceAt_frame; [exact Hs3|]. intros l Hl.
    rewrite Ho4; [done|by apply H34].
  - intros l Hl. split_and!; auto.
  - intros l Hl. split_and!; auto.
  - intros l [Hl|[Hl|[Hl|Hl]]].
    + by apply Hf1.
    + intros Hin. apply (Hf2 l Hl). rewrite Hd1. set_solver.
    + intros Hin. apply (Hf3 l Hl). rewrite Hd2, Hd1. set_solver.
    + intros Hin. apply (Hf4 l Hl). rewrite Hd3, Hd2, Hd1. set_solver.
  - intros l Hl1 Hl2 Hl3 Hl4. by rewrite Ho4, Ho3, Ho2, Ho1.
Qed.

Lemma length_copyRowAt_fold {A} (src : list (list A)) ys :
  ∀ dst, length (fold_left (copyRowAt src) ys dst) = length dst.
Proof.
  induction ys as [|y ys IH]; intros dst; simpl; [done|].
  rewrite IH. unfold copyRowAt. by rewrite length_insert.
Qed.

(** One [copy(dst[y], src[y])] in the store does what [copyRowAt] does
    on values, and writes to a row of [dst] only. *)
Lemma storeCopyRow_spec {A} (mk : list A → Cells)
    (s : Store) dstO drows dm srcO srows sm y :
  (∀ d c, copyCells (mk d) (mk c) = mk (copy d c)) →
  sliceAt mk s dstO drows dm → sliceAt mk s srcO srows sm →
  NoDup (dstO :: drows) →
  0 <= y → (Z.to_nat y < length dm)%nat → (Z.to_nat y < length sm)%nat →
  sliceAt mk (storeCopyRow dstO srcO y s) dstO drows (copyRowAt sm dm y) ∧
  ∀ l, l ∉ drows → storeCopyRow dstO srcO y s !! l = s !! l.
Proof.
  intros Hmk [Hdo Hdrows] [Hso Hsrows] Hnd Hy Hyd Hys.
  apply NoDup_cons in Hnd as [HdstO Hnd].
  destruct (lookup_lt_is_Some_2 dm (Z.to_nat y)) as [d Hd]; [done|].
  destruct (lookup_lt_is_Some_2 sm (Z.to_nat y)) as [c Hc]; [done|].
  destruct (Forall2_lookup_r _ _ _ _ _ Hdrows Hd) as (dl & Hdl & Hdcell).
  destruct (Forall2_lookup_r _ _ _ _ _ Hsrows Hc) as (sl & Hsl & Hscell).
  assert (Hstep : storeCopyRow dstO srcO y s = <[dl := mk (copy d c)]> s).
  { unfold storeCopyRow, rowLocs. rewrite Hdo, Hso. simpl.
    rewrite Hdl, Hsl, Hdcell, Hscell. by rewrite Hmk. }
  rewrite Hstep. unfold copyRowAt. rewrite Hd, Hc. simpl.
  assert (Hdlin : dl ∈ drows) by (by eapply list_elem_of_lookup_2).
  split.
  - split.
    + rewrite lookup_insert_ne; [done|]. by intros ->.
    + apply Forall2_same_length_lookup. split.
      { rewrite length_insert. by eapply Forall2_length. }
      intros i l row Hl Hrow.
      destruct (decide (i = Z.to_nat y)) as [->|Hne].
      * rewrite list_lookup_insert_eq in Hrow by done.
        injection Hrow as <-. rewrite Hdl in Hl. injection Hl as <-.
        by rewrite lookup_insert_eq.
      * rewrite list_lookup_insert_ne in Hrow by done.
        rewrite lookup_insert_ne.
        -- exact (Forall2_lookup_lr _ _ _ _ _ _ Hdrows Hl Hrow).
        -- intros ->. apply Hne. symmetry. by eapply NoDup_lookup.
  - intros l Hl. rewrite lookup_insert_ne; [done|]. by intros ->.
Qed.

Lemma copyCells_ints d c : copyCells (IntCells d) (IntCells c) = IntCells (copy d c).
Proof. reflexivity. Qed.
Lemma copyCells_dirs d c : copyCells (DirCells d) (DirCells c) = DirCells (copy d c).
Proof. reflexivity. Qed.

Lemma asInts_inv c x : asInts c = Some x → c = IntCells x.
Proof. destruct c; simpl; congruence. Qed.
Lemma asDirs_inv c x : asDirs c = Some x → c = DirCells x.
Proof. destruct c; simpl; congruence. Qed.
Lemma asTypes_inv c x : asTypes c = Some x → c = TypeCells x.
Proof. destruct c; simpl; congruence. Qed.

Lemma readGrid_inv (s : Store) r g :
  readGrid s r = Some g →
  refWidth r = Width g ∧ refHeight r = Height g ∧
  ∃ cr fr dr tr,
    sliceAt IntCells s (refCosts r) cr (Costs g) ∧
    sliceAt DirCells s (refFlowField r) fr (FlowField g) ∧
    sliceAt IntCells s (refDistances r) dr (Distances g) ∧
    sliceAt TypeCells s (refCellTypes r) tr (CellTypes g).
Proof.
  unfold readGrid. intros H.
  destruct (readRows asInts s (refCosts r)) as [costs|] eqn:Hc; [|done].
  destruct (readRows asDirs s (refFlowField r)) as [flow|] eqn:Hf; [|done].
  destruct (readRows asInts s (refDistances r)) as [dists|] eqn:Hd; [|done].
  destruct (readRows asTypes s (refCellTypes r)) as [types|] eqn:Ht; [|done].
  simpl in H. injection H as <-. simpl. split; [done|]. split; [done|].
  apply (readRows_inv IntCells asInts asInts_inv) in Hc as [cr Hc].
  apply (readRows_inv DirCells asDirs asDirs_inv) in Hf as [fr Hf].
  apply (readRows_inv IntCells asInts asInts_inv) in Hd as [dr Hd].
  apply (readRows_inv TypeCells asTypes asTypes_inv) in Ht as [tr Ht].
  by exists cr, fr, dr, tr.
Qed.

Lemma readGrid_sliceAt (s : Store) r g cr fr dr tr :
  refWidth r = Width g → refHeight r = Height g →
  sliceAt IntCells s (refCosts r) cr (Costs g) →
  sliceAt DirCells s (refFlowField r) fr (FlowField g) →
  sliceAt IntCells s (refDistances r) dr (Distances g) →
  sliceAt TypeCells s (refCellTypes r) tr (CellTypes g) →
  readGrid s r = Some g.
Proof.
  intros HW HH Hc Hf Hd Ht. unfold readGrid.
  rewrite (readRows_sliceAt IntCells asInts (λ _, eq_refl) _ _ _ _ Hc).
  rewrite (readRows_sliceAt DirCells asDirs (λ _, eq_refl) _ _ _ _ Hf).
  rewrite (readRows_sliceAt IntCells asInts (λ _, eq_refl) _ _ _ _ Hd).
  rewrite (readRows_sliceAt TypeCells asTypes (λ _, eq_refl) _ _ _ _ Ht).
  simpl. rewrite HW, HH. by destruct g.
Qed.

(** A grid read from a store reads the same from every store that agrees
    with it on the grid's footprint. *)
Lemma readGrid_frame (s s2 : Store) r g :
  readGrid s r = Some g →
  (∀ l, l ∈ footprint s r → s2 !! l = s !! l) →
  readGrid s2 r = Some g.
Proof.
  intros Hread Hsame.
  destruct (readGrid_inv _ _ _ Hread)
    as (HW & HH & cr & fr & dr & tr & Hc & Hf & Hd & Ht).
  assert (Hfp : ∀ {A} (mk : list A → Cells) outer rows m,
    sliceAt mk s outer rows m →
    sliceFootprint s outer ⊆ footprint s r →
    sliceAt mk s2 outer rows m).
  { intros A mk outer rows m Hs Hsub. eapply sliceAt_frame; [exact Hs|].
    intros l Hl. apply Hsame, Hsub. unfold sliceFootprint.
    rewrite (sliceAt_rowLocs mk _ _ _ _ Hs). simpl.
    apply elem_of_cons in Hl as [->|Hl]; [set_solver|].
    apply elem_of_union_r. by apply elem_of_list_to_set. }
  apply (readGrid_sliceAt s2 r g cr fr dr tr HW HH).
  - apply (Hfp _ _ _ _ _ Hc). unfold footprint. set_solver.
  - apply (Hfp _ _ _ _ _ Hf). unfold footprint. set_solver.
  - apply (Hfp _ _ _ _ _ Hd). unfold footprint. set_solver.
  - apply (Hfp _ _ _ _ _ Ht). unfold footprint. set_solver.
Qed.

Lemma footprint_sliceAt (s : Store) r g cr fr dr tr l :
  sliceAt IntCells s (refCosts r) cr (Costs g) →
  sliceAt DirCells s (refFlowField r) fr (FlowField g) →
  sliceAt IntCells s (refDistances r) dr (Distances g) →
  sliceAt TypeCells s (refCellTypes r) tr (CellTypes g) →
  l ∈ footprint s r ↔
    l ∈ (refCosts r :: cr) ∨ l ∈ (refFlowField r :: fr) ∨
    l ∈ (refDistances r :: dr) ∨ l ∈ (refCellTypes r :: tr).
Proof.
  intros Hc Hf Hd Ht. unfold footprint, sliceFootprint.
  rewrite (sliceAt_rowLocs _ _ _ _ _ Hc), (sliceAt_rowLocs _ _ _ _ _ Hf),
          (sliceAt_rowLocs _ _ _ _ _ Hd), (sliceAt_rowLocs _ _ _ _ _ Ht).
  simpl. rewrite !elem_of_union, !elem_of_singleton, !elem_of_list_to_set,
                 !elem_of_cons. tauto.
Qed.

Lemma sliceAt_dom {A} (mk : list A → Cells) (s : Store) outer rows m l :
  sliceAt mk s outer rows m → l ∈ outer :: rows → l ∈ dom s.
Proof.
  intros [Ho Hrows] [->|Hl]%elem_of_cons; apply elem_of_dom.
  - by rewrite Ho.
  - apply list_elem_of_lookup in Hl as [i Hi].
    destruct (Forall2_lookup_l _ _ _ _ _ Hrows Hi) as (row & _ & ->). done.
Qed.

(** The body of the loop of [GetGrid], in the store and on values. *)
Lemma storeCopyRow3_spec (s : Store) r c y
    scr sfr sdr (sc : list (list Z)) (sf : list (list Direction))
    (sd : list (list Z))
    cr fr dr (cm : list (list Z)) (fm : list (list Direction))
    (dm : list (list Z)) :
  sliceAt IntCells s (refCosts r) scr sc →
  sliceAt DirCells s (refFlowField r) sfr sf →
  sliceAt IntCells s (refDistances r) sdr sd →
  sliceAt IntCells s (refCosts c) cr cm →
  sliceAt DirCells s (refFlowField c) fr fm →
  sliceAt IntCells s (refDistances c) dr dm →
  NoDup (refCosts c :: cr) → NoDup (refFlowField c :: fr) →
  NoDup (refDistances c :: dr) →
  (∀ l, l ∈ cr ∨ l ∈ fr ∨ l ∈ dr →
        (l ∉ (refCosts r :: scr)) ∧ (l ∉ (refFlowField r :: sfr)) ∧
        l ∉ (refDistances r :: sdr)) →
  (∀ l, l ∈ (refCosts c :: cr) → (l ∉ fr) ∧ l ∉ dr) →
  (∀ l, l ∈ (refFlowField c :: fr) → (l ∉ cr) ∧ l ∉ dr) →
  (∀ l, l ∈ (refDistances c :: dr) → (l ∉ cr) ∧ l ∉ fr) →
  0 <= y →
  (Z.to_nat y < length cm)%nat → (Z.to_nat y < length sc)%nat →
  (Z.to_nat y < length fm)%nat → (Z.to_nat y < length sf)%nat →
  (Z.to_nat y < length dm)%nat → (Z.to_nat y < length sd)%nat →
  let s' := storeCopyRow3 r c s y in
  sliceAt IntCells s' (refCosts c) cr (copyRowAt sc cm y) ∧
  sliceAt DirCells s' (refFlowField c) fr (copyRowAt sf fm y) ∧
  sliceAt IntCells s' (refDistances c) dr (copyRowAt sd dm y) ∧
  ∀ l, l ∉ cr → l ∉ fr → l ∉ dr → s' !! l = s !! l.
Proof.
  intros Hsc Hsf Hsd Hc Hf Hd Hndc Hndf Hndd Hsrc Hdc Hdf Hdd
         Hy Hy1 Hy2 Hy3 Hy4 Hy5 Hy6 s'.
  unfold s', storeCopyRow3.
  destruct (storeCopyRow_spec IntCells s (refCosts c) cr cm
              (refCosts r) scr sc y copyCells_ints Hc Hsc Hndc Hy Hy1 Hy2)
    as [Hc1 Hw1].
  set (s1 := storeCopyRow (refCosts c) (refCosts r) y s) in *.
  assert (Hf1 : sliceAt DirCells s1 (refFlowField c) fr fm).
  { eapply sliceAt_frame; [exact Hf|]. intros l Hl. apply Hw1.
    by destruct (Hdf l Hl). }
  assert (Hsf1 : sliceAt DirCells s1 (refFlowField r) sfr sf).
  { eapply sliceAt_frame; [exact Hsf|]. intros l Hl. apply Hw1.
    intros Hin. destruct (Hsrc l) as (_ & ? & _); [by left|done]. }
  destruct (storeCopyRow_spec DirCells s1 (refFlowField c) fr fm
              (refFlowField r) sfr sf y copyCells_dirs Hf1 Hsf1 Hndf Hy Hy3 Hy4)
    as [Hf2 Hw2].
  set (s2 := storeCopyRow (refFlowField c) (refFlowField r) y s1) in *.
  assert (Hd2 : sliceAt IntCells s2 (refDistances c) dr dm).
  { eapply sliceAt_frame; [exact Hd|]. intros l Hl.
    destruct (Hdd l Hl). rewrite Hw2, Hw1; done. }
  assert (Hsd2 : sliceAt IntCells s2 (refDistances r) sdr sd).
  { eapply sliceAt_frame; [exact Hsd|]. intros l Hl.
    rewrite Hw2, Hw1; [done| |].
    - intros Hin. destruct (Hsrc l) as (_ & _ & ?); [by left|done].
    - intros Hin. destruct (Hsrc l) as (_ & _ & ?); [by right; left|done]. }
  destruct (storeCopyRow_spec IntCells s2 (refDistances c) dr dm
              (refDistances r) sdr sd y copyCells_ints Hd2 Hsd2 Hndd Hy Hy5 Hy6)
    as [Hd3 Hw3].
  set (s3 := storeCopyRow (refDistances c) (refDistances r) y s2) in *.
  split_and!.
  - eapply sliceAt_frame; [exact Hc1|]. intros l Hl.
    destruct (Hdc l Hl). rewrite Hw3, Hw2; done.
  - eapply sliceAt_frame; [exact Hf2|]. intros l Hl.
    destruct (Hdf l Hl). rewrite Hw3; done.
  - done.
  - intros l Hl1 Hl2 Hl3. rewrite Hw3, Hw2, Hw1; done.
Qed.

Lemma shape2_length {A} (m : list (list A)) rows cols :
  shape2 rows cols m → length m = Z.to_nat rows.
Proof. by intros [? _]. Qed.

(** [GetGrid] in the store: the copy denotes what [GetGrid] computes on
    values, it occupies locations that were free before the call, and the
    store is unchanged elsewhere. *)
Lemma storeGetGrid_spec (s : Store) r f :
  readGrid s r = Some (grid f) → wf_grid (grid f) →
  let c := fst (storeGetGrid r s) in
  let s' := snd (storeGetGrid r s) in
  readGrid s' c = Some (GetGrid f) ∧
  (∀ l, l ∈ footprint s' c → l ∉ dom s) ∧
  (∀ l, l ∈ dom s → s' !! l = s !! l).
Proof.
  intros Hread Hwf.
  destruct (readGrid_inv _ _ _ Hread)
    as (HW & HH & scr & sfr & sdr & str & Hsc & Hsf & Hsd & Hst).
  unfold storeGetGrid. rewrite HW, HH.
  set (g := grid f) in *.
  destruct (storeNewGrid (Width g) (Height g) s) as [c s1] eqn:Hnew.
  simpl.
  destruct (storeNewGrid_spec _ _ _ _ _ Hnew)
    as (HcW & HcH & cr & fr & dr & tr & Hc & Hf & Hd & Ht &
        Hndc & Hndf & Hndd & Hndt & Hd1 & Hd2 & Hd3 & Hfresh & Hold).
  destruct Hwf as (Hshc & Hshf & Hshd & Hsht).
  (* the navigator's slices are where they were *)
  assert (Hsrc : ∀ {A} (mk : list A → Cells) outer rows m,
    sliceAt mk s outer rows m →
    sliceAt mk s1 outer rows m ∧
    ∀ l, l ∈ outer :: rows →
      (l ∉ (refCosts c :: cr)) ∧ (l ∉ (refFlowField c :: fr)) ∧
      (l ∉ (refDistances c :: dr)) ∧ (l ∉ (refCellTypes c :: tr))).
  { intros A mk outer rows m Hs.
    assert (Hin : ∀ l, l ∈ outer :: rows →
      (l ∉ (refCosts c :: cr)) ∧ (l ∉ (refFlowField c :: fr)) ∧
      (l ∉ (refDistances c :: dr)) ∧ (l ∉ (refCellTypes c :: tr))).
    { intros l Hl. pose proof (sliceAt_dom mk s outer rows m l Hs Hl) as Hdom.
      split_and!; intros Hl'; eapply Hfresh; eauto. }
    split; [|done]. eapply sliceAt_frame; [exact Hs|].
    intros l Hl. destruct (Hin l Hl) as (?&?&?&?). by apply Hold. }
  destruct (Hsrc _ _ _ _ _ Hsc) as [Hsc1 Hscd].
  destruct (Hsrc _ _ _ _ _ Hsf) as [Hsf1 Hsfd].
  destruct (Hsrc _ _ _ _ _ Hsd) as [Hsd1 Hsdd].
  clear Hsrc.
  pose (P := λ (pre : list Z) (sk : Store),
    sliceAt IntCells sk (refCosts c) cr
      (fold_left (copyRowAt (Costs g)) pre (make2 1 (Width g) (Height g))) ∧
    sliceAt DirCells sk (refFlowField c) fr
      (fold_left (copyRowAt (FlowField g)) pre
                 (make2 zeroDir (Width g) (Height g))) ∧
    sliceAt IntCells sk (refDistances c) dr
      (fold_left (copyRowAt (Distances g)) pre
                 (make2 0 (Width g) (Height g))) ∧
    ∀ l, l ∉ cr → l ∉ fr → l ∉ dr → sk !! l = s1 !! l).
  assert (HP : P (seqZ 0 (Height g))
                 (fold_left (storeCopyRow3 r c) (seqZ 0 (Height g)) s1)).
  { apply fold_left_prefix_ind; [by unfold P|].
    intros pre y suf sk Hl (Hck & Hfk & Hdk & Hsame).
    assert (Hy : 0 <= y < Height g).
    { assert (Hin : y ∈ seqZ 0 (Height g)).
      { rewrite Hl. apply elem_of_app. right. left. }
      apply elem_of_seqZ in Hin. lia. }
    assert (Hframe : ∀ {A} (mk : list A → Cells) outer rows m,
      sliceAt mk s1 outer rows m →
      (∀ l, l ∈ outer :: rows → (l ∉ cr) ∧ (l ∉ fr) ∧ (l ∉ dr)) →
      sliceAt mk sk outer rows m).
    { intros A mk outer rows m Hs Hdis. eapply sliceAt_frame; [exact Hs|].
      intros l Hin. destruct (Hdis l Hin) as (?&?&?). by apply Hsame. }
    assert (Hnotcons : ∀ (l a : loc) ls, l ∉ a :: ls → l ∉ ls).
    { intros l a ls Hn Hin. apply Hn. by right. }
    assert (Hsck : sliceAt IntCells sk (refCosts r) scr (Costs g)).
    { apply Hframe; [done|]. intros l Hin.
      destruct (Hscd l Hin) as (?&?&?&?).
      split_and!; eapply Hnotcons; eassumption. }
    assert (Hsfk : sliceAt DirCells sk (refFlowField r) sfr (FlowField g)).
    { apply Hframe; [done|]. intros l Hin.
      destruct (Hsfd l Hin) as (?&?&?&?).
      split_and!; eapply Hnotcons; eassumption. }
    assert (Hsdk : sliceAt IntCells sk (refDistances r) sdr (Distances g)).
    { apply Hframe; [done|]. intros l Hin.
      destruct (Hsdd l Hin) as (?&?&?&?).
      split_and!; eapply Hnotcons; eassumption. }
    destruct (storeCopyRow3_spec sk r c y scr sfr sdr
                (Costs g) (FlowField g) (Distances g) cr fr dr _ _ _
                Hsck Hsfk Hsdk Hck Hfk Hdk Hndc Hndf Hndd)
      as (Hc' & Hf' & Hd' & Hsame').
    - intros l Hl'. split_and!; intros Hin.
      + destruct (Hscd l Hin) as (?&?&?&?).
        destruct Hl' as [?|[?|?]]; eauto using list_elem_of_further.
      + destruct (Hsfd l Hin) as (?&?&?&?).
        destruct Hl' as [?|[?|?]]; eauto using list_elem_of_further.
      + destruct (Hsdd l Hin) as (?&?&?&?).
        destruct Hl' as [?|[?|?]]; eauto using list_elem_of_further.
    - intros l Hin. destruct (Hd1 l Hin) as (?&?&?). eauto.
    - intros l Hin. destruct (Hd2 l Hin) as (?&?). split; [|eauto].
      intros Hcr. destruct (Hd1 l) as (?&?&?); [by right|done].
    - intros l Hin. split; intros Hx.
      + destruct (Hd1 l) as (?&?&?); [by right|done].
      + destruct (Hd2 l) as (?&?); [by right|done].
    - lia.
    - rewrite length_copyRowAt_fold.
      rewrite (shape2_length _ _ _ (shape2_make2 _ _ _)). lia.
    - rewrite (shape2_length _ _ _ Hshc). lia.
    - rewrite length_copyRowAt_fold.
      rewrite (shape2_length _ _ _ (shape2_make2 _ _ _)). lia.
    - rewrite (shape2_length _ _ _ Hshf). lia.
    - rewrite length_copyRowAt_fold.
      rewrite (shape2_length _ _ _ (shape2_make2 _ _ _)). lia.
    - rewrite (shape2_length _ _ _ Hshd). lia.
    - unfold P. rewrite !fold_left_app. simpl. split_and!; try done.
      intros l ? ? ?. rewrite Hsame' by done. by apply Hsame. }
  destruct HP as (Hc' & Hf' & Hd' & Hsame).
  set (s' := fold_left (storeCopyRow3 r c) (seqZ 0 (Height g)) s1) in *.
  assert (Ht' : sliceAt TypeCells s' (refCellTypes c) tr
                  (make2 Passable (Width g) (Height g))).
  { eapply sliceAt_frame; [exact Ht|]. intros l Hl. apply Hsame.
    - intros Hin. destruct (Hd1 l) as (_&_&?); [by right|done].
    - intros Hin. destruct (Hd2 l) as (_&?); [by right|done].
    - intros Hin. destruct (Hd3 l); [by right|done]. }
  split_and!.
  - unfold GetGrid. rewrite copyRow3_fold. fold g.
    eapply readGrid_sliceAt; simpl; eauto.
  - intros l Hl.
    apply (footprint_sliceAt s' c
             (mkGrid (Width g) (Height g) _ _ _ _) cr fr dr tr l
             Hc' Hf' Hd' Ht') in Hl.
    by apply Hfresh.
  - intros l Hl. rewrite Hsame.
    + apply Hold; intros Hin; eapply Hfresh; eauto.
    + intros Hin. eapply Hfresh; [|exact Hl]. left. by right.
    + intros Hin. eapply Hfresh; [|exact Hl]. right; left. by right.
    + intros Hin. eapply Hfresh; [|exact Hl]. right; right; left. by right.
Qed.

Lemma footprint_dom (s : Store) r g l :
  readGrid s r = Some g → l ∈ footprint s r → l ∈ dom s.
Proof.
  intros Hread Hl.
  destruct (readGrid_inv _ _ _ Hread)
    as (_ & _ & cr & fr & dr & tr & Hc & Hf & Hd & Ht).
  apply (footprint_sliceAt s r g cr fr dr tr l Hc Hf Hd Ht) in Hl.
  destruct Hl as [Hl|[Hl|[Hl|Hl]]]; eauto using sliceAt_dom.
Qed.

(** C10: the grid [GetGrid] returns holds the navigator's costs, flow
    directions and distances, and classifies every cell [Passable]
    whatever the navigator's classifications are; laid out in a store,
    the copy occupies backing arrays of its own, so that the navigator's
    grid reads the same after the call and in every store obtained by
    overwriting locations of the copy. *)
Theorem C10_GetGrid_copies_three_slices (s : Store) r f :
  readGrid s r = Some (grid f) → wf_grid (grid f) →
  let c := fst (storeGetGrid r s) in
  let s' := snd (storeGetGrid r s) in
  readGrid s' c = Some (GetGrid f) ∧
  Costs (GetGrid f) = Costs (grid f) ∧
  FlowField (GetGrid f) = FlowField (grid f) ∧
  Distances (GetGrid f) = Distances (grid f) ∧
  (∀ p, inBounds (grid f) p → typeAt (GetGrid f) p = Passable) ∧
  readGrid s' r = Some (grid f) ∧
  (∀ l, l ∈ footprint s' c → l ∉ footprint s' r) ∧
  (∀ s2 : Store, (∀ l, l ∉ footprint s' c → s2 !! l = s' !! l) →
     readGrid s2 r = Some (grid f)).
Proof.
  intros Hread Hwf c s'.
  destruct (storeGetGrid_spec s r f Hread Hwf) as (Hcopy & Hfresh & Hold).
  fold c s' in Hcopy, Hfresh, Hold.
  assert (Hr' : readGrid s' r = Some (grid f)).
  { eapply readGrid_frame; [exact Hread|]. intros l Hl.
    apply Hold. by eapply footprint_dom. }
  rewrite (GetGrid_spec f Hwf). rewrite (GetGrid_spec f Hwf) in Hcopy.
  simpl. split_and!; try done.
  - intros p [Hx Hy]. unfold typeAt. simpl. by apply get2_make2.
  - intros l Hl Hl'. apply (Hfresh l Hl).
    assert (Hin : l ∈ dom s'); [by eapply footprint_dom|].
    destruct (decide (l ∈ dom s)) as [Hd|Hd]; [done|].
    exfalso. clear Hd.
    destruct (readGrid_inv _ _ _ Hread)
      as (_ & _ & cr & fr & dr & tr & Hc & Hf & Hd & Ht).
    destruct (readGrid_inv _ _ _ Hr')
      as (_ & _ & cr' & fr' & dr' & tr' & Hc' & Hf' & Hd' & Ht').
    assert (Hrows : ∀ {A} (mk : list A → Cells) outer rows rows' m,
      sliceAt mk s outer rows m → sliceAt mk s' outer rows' m → rows' = rows).
    { intros A mk outer rows rows' m [Ho _] [Ho' _].
      rewrite Hold in Ho' by (apply elem_of_dom; by rewrite Ho). congruence. }
    rewrite (Hrows _ _ _ _ _ _ Hc Hc') in Hc'.
    rewrite (Hrows _ _ _ _ _ _ Hf Hf') in Hf'.
    rewrite (Hrows _ _ _ _ _ _ Hd Hd') in Hd'.
    rewrite (Hrows _ _ _ _ _ _ Ht Ht') in Ht'.
    apply (Hfresh l Hl).
    apply (footprint_sliceAt s' r (grid f) cr fr dr tr l Hc' Hf' Hd' Ht') in Hl'.
    destruct Hl' as [H|[H|[H|H]]]; eauto using sliceAt_dom.
  - intros s2 Hs2. eapply readGrid_frame; [exact Hread|].
    intros l Hl. pose proof (footprint_dom _ _ _ _ Hread Hl) as Hd.
    rewrite Hs2; [by apply Hold|].
    intros Hin. by apply (Hfresh l Hin).
Qed.

Lemma wf_navTyped : wf_grid (grid navTyped).
Proof.
  unfold wf_grid, shape2. simpl.
  split_and!; try reflexivity; by repeat constructor.
Qed.

Lemma C10_GetGrid_copies_three_slices_witness :
  readGrid (snd storeTyped) (fst storeTyped) = Some (grid navTyped) ∧
  wf_grid (grid navTyped) ∧
  typeAt (grid navTyped) (mkPos 1 0) = Obstacle ∧
  readGrid (snd (storeGetGrid (fst storeTyped) (snd storeTyped)))
           (fst (storeGetGrid (fst storeTyped) (snd storeTyped)))
    = Some (GetGrid navTyped) ∧
  typeAt (GetGrid navTyped) (mkPos 1 0) = Passable.
Proof.
  assert (Hread : readGrid (snd storeTyped) (fst storeTyped)
                  = Some (grid navTyped)) by (vm_compute; reflexivity).
  pose proof (C10_GetGrid_copies_three_slices
                (snd storeTyped) (fst storeTyped) navTyped Hread wf_navTyped)
    as (Hcopy & _ & _ & _ & Htypes & _).
  split_and!; [exact Hread|exact wf_navTyped|reflexivity|exact Hcopy|].
  apply Htypes. vm_compute. intuition discriminate.
Defined.

(** ** Recorded distances are least walk costs *)

Lemma sameCosts_IsPassable g0 g p :
  sameCosts g0 g → IsPassable g p = IsPassable g0 p.
Proof. intros (HW & HH & HC). by apply IsPassable_frame. Qed.

Lemma sameCosts_costAt g0 g p : sameCosts g0 g → costAt g p = costAt g0 p.
Proof. intros (_ & _ & HC). unfold costAt. by rewrite HC. Qed.

Lemma sameCosts_inBounds g0 g p : sameCosts g0 g → inBounds g p ↔ inBounds g0 p.
Proof. intros (HW & HH & _). unfold inBounds. by rewrite HW, HH. Qed.

Section Settled.
Variable cfg : Config.
Variable g0 : Grid.
Variable goalPos : Position.

Lemma relaxStep_settled st :
  relaxInv st → costInv cfg goalPos st → inBounds (fst st) goalPos →
  settledInv cfg g0 goalPos st →
  settledInv cfg g0 goalPos (relaxStep cfg st).
Proof.
  destruct st as [g [|current queue]]; [done|].
  intros Hinv Hcost Hgoal (Hsame & Hreach & Hsettled). simpl in *.
  set (d := distAt g current).
  assert (Hcur : IsPassable g current = true ∧ d < MaxInt32).
  { destruct Hinv as (_ & _ & _ & Hq). apply Hq. by left. }
  destruct Hcur as [Hcurp Hdlt].
  pose proof (IsPassable_inBounds _ _ Hcurp) as Hcurb.
  assert (Hd0 : 0 <= d) by (destruct Hcost as (_ & Hnn & _); by apply Hnn).
  assert (Hcur0 : inBounds g0 current) by (by apply (sameCosts_inBounds g0 g)).
  assert (Hrcur : reach cfg g0 goalPos current d) by (by apply Hreach).
  pose (P := λ (pre : list Direction) (st' : RelaxState),
    relaxInv st' ∧ costInv cfg goalPos st' ∧ inBounds (fst st') goalPos ∧
    sameCosts g0 (fst st') ∧
    (∀ p, inBounds g0 p → distAt (fst st') p < MaxInt32 →
          reach cfg g0 goalPos p (distAt (fst st') p)) ∧
    (∀ p, inBounds g0 p → distAt (fst st') p < MaxInt32 →
          p = current ∨ p ∈ snd st' ∨ relaxedAt cfg g0 (fst st') p) ∧
    (∀ dir, dir ∈ pre → IsPassable g0 (stepPos current dir) = true →
          distAt (fst st') (stepPos current dir)
            <= d + moveCost cfg dir (costAt g0 (stepPos current dir))) ∧
    distAt (fst st') current = d).
  assert (HP : P (Directions cfg)
                 (fold_left (relaxDir cfg current d) (Directions cfg) (g, queue))).
  { apply fold_left_prefix_ind.
    - unfold P; cbn [fst snd]. split_and!; try done.
      + by eapply relaxInv_pop.
      + intros p Hp Hlt. destruct (Hsettled p Hp Hlt) as [Hin|Hrel]; [|auto].
        apply elem_of_cons in Hin as [->|Hin]; auto.
      + intros dir Hdir. by apply elem_of_nil in Hdir.
    - intros pre dir suf [g' q'] Hl
        (Hinv' & Hcost' & Hgoal' & Hsame' & Hreach' & Hsettled' & Hdone & Hdcur).
      cbn [fst snd] in *.
      assert (Hdir : dir ∈ Directions cfg).
      { rewrite Hl. apply elem_of_app. right. left. }
      pose proof (relaxDir_inv cfg current d (g', q') dir Hinv') as Hinv''.
      pose proof (relaxDir_costInv cfg goalPos current d (g', q') dir Hdir
                    Hgoal' ltac:(lia) Hinv' Hcost') as Hcost''.
      destruct (relaxDir_cases cfg current d g' q' dir)
        as [[Heq Hskip]|(Heq & Hpass & Hlt)]; rewrite Heq in *;
        set (next := stepPos current dir) in *.
      + (* nothing recorded *)
        unfold P; cbn [fst snd]. split_and!; try done.
        intros dir' [Hin|Hin]%elem_of_app Hp'; [by apply Hdone|].
        apply list_elem_of_singleton in Hin as ->. fold next in Hp' |- *.
        destruct Hskip as [Himp|Hge].
        * rewrite (sameCosts_IsPassable g0 g') in Himp by done. congruence.
        * destruct Hcost' as (Hok & _). simpl in Hok.
          rewrite add64_exact in Hge.
          -- by rewrite (sameCosts_costAt g0 g') in Hge.
          -- lia.
          -- apply Hok; [done|].
             by rewrite (sameCosts_IsPassable g0 g').
      + (* [next] recorded at a smaller distance *)
        pose proof (IsPassable_inBounds _ _ Hpass) as Hnb.
        destruct Hinv' as (Hwf' & Hrange' & _).
        destruct Hcost' as (Hok & Hnn' & _). simpl in Hok, Hnn'.
        pose proof (Hok dir next Hdir Hpass) as Hw.
        rewrite add64_exact in * by (done || lia).
        rewrite (sameCosts_costAt g0 g') in * by done.
        set (w := moveCost cfg dir (costAt g0 next)) in *.
        assert (Hnext0 : inBounds g0 next)
          by (by apply (sameCosts_inBounds g0 g')).
        assert (Hpass0 : IsPassable g0 next = true)
          by (by rewrite <- (sameCosts_IsPassable g0 g')).
        assert (Hget : ∀ p, inBounds g0 p →
          distAt (setDistance g' next (d + w)) p
            = if decide (p = next) then d + w else distAt g' p).
        { intros p Hp. apply distAt_setDistance; [done|done|].
          by apply (sameCosts_inBounds g0 g'). }
        assert (Hle : ∀ p, inBounds g0 p →
          distAt (setDistance g' next (d + w)) p <= distAt g' p).
        { intros p Hp. rewrite (Hget p Hp). case_decide; [subst p|]; lia. }
        assert (Hne : current ≠ next).
        { intros Heqn. rewrite <- Heqn in Hlt. lia. }
        unfold P; cbn [fst snd]. split_and!; try done.
        * intros p Hp. rewrite (Hget p Hp). case_decide as Hpn.
          -- subst p. intros _. by apply reach_step.
          -- by apply Hreach'.
        * intros p Hp. rewrite (Hget p Hp). case_decide as Hpn.
          -- subst p. intros _. right; left. apply elem_of_app. right. left.
          -- intros Hplt.
             destruct (Hsettled' p Hp Hplt) as [?|[Hin|Hrel]]; [by left| |].
             ++ right; left. apply elem_of_app. by left.
             ++ right; right. intros dir' Hdir' Hp'.
                rewrite (Hget p Hp), decide_False by done.
                etrans; [apply Hle; by apply IsPassable_inBounds|].
                by apply Hrel.
        * intros dir' [Hin|Hin]%elem_of_app Hp'.
          -- etrans; [apply Hle; by apply IsPassable_inBounds|].
             by apply Hdone.
          -- apply list_elem_of_singleton in Hin as ->. fold next.
             rewrite (Hget next Hnext0), decide_True by done. fold w. lia.
        * rewrite (Hget current Hcur0), decide_False by done. done. }
  destruct HP as (_ & _ & _ & Hsame' & Hreach' & Hsettled' & Hdone & Hdcur).
  split_and!; try done.
  intros p Hp Hlt. destruct (Hsettled' p Hp Hlt) as [->|[?|?]]; auto.
  right. intros dir Hdir Hpass. rewrite Hdcur. by apply Hdone.
Qed.

Lemma reach_inBounds p L :
  inBounds g0 goalPos → reach cfg g0 goalPos p L → inBounds g0 p.
Proof. intros Hg. induction 1; [done|]. by apply IsPassable_inBounds. Qed.

(** Once the queue is empty, no walk is cheaper than the distance
    recorded at its end. *)
Lemma settled_least g p L :
  relaxInv (g, []) → costInv cfg goalPos (g, []) → inBounds g0 goalPos →
  settledInv cfg g0 goalPos (g, []) →
  reach cfg g0 goalPos p L → distAt g p <= L.
Proof.
  intros (_ & Hrange & _) (Hok & Hnn & Hg) Hgoal (Hsame & _ & Hsettled) Hr.
  simpl in *.
  induction Hr as [|u L dir Hr IH Hdir Hpass]; [lia|].
  pose proof (reach_inBounds u L Hgoal Hr) as Hub.
  pose proof (IsPassable_inBounds _ _ Hpass) as Hvb.
  assert (Hw : 0 <= moveCost cfg dir (costAt g0 (stepPos u dir))).
  { rewrite <- (sameCosts_costAt g0 g) by done. apply Hok; [done|].
    by rewrite (sameCosts_IsPassable g0 g). }
  destruct (decide (distAt g u < MaxInt32)) as [Hlt|Hge].
  - destruct (Hsettled u Hub Hlt) as [Hin|Hrel]; [by apply elem_of_nil in Hin|].
    specialize (Hrel dir Hdir Hpass). lia.
  - assert (distAt g (stepPos u dir) <= MaxInt32).
    { apply Hrange. by apply (sameCosts_inBounds g0 g). }
    lia.
Qed.

End Settled.

Lemma propagated_settled f :
  wf_grid (grid f) → IsPassable (grid f) (goal f) = true →
  stepCostsOK (config f) (grid f) →
  relaxInv (propagated f, []) ∧
  costInv (config f) (goal f) (propagated f, []) ∧
  settledInv (config f) (grid f) (goal f) (propagated f, []).
Proof.
  intros Hwf Hgoal Hok.
  rewrite <- (propagated_spec f Hwf Hgoal).
  pose (P := λ st, relaxInv st ∧ costInv (config f) (goal f) st ∧
                   inBounds (fst st) (goal f) ∧
                   settledInv (config f) (grid f) (goal f) st).
  enough (HP : P (relaxLoop (config f) (relaxFuel (fieldStart f))
                    (fieldStart f, [goal f])))
    by (destruct HP as (?&?&?&?); done).
  apply relaxLoop_ind.
  - intros st (Hi & Hc & Hb & Hs).
    destruct (relaxStep_costInv (config f) (goal f) st Hb Hi Hc)
      as (Hi' & Hc' & Hb').
    split_and!; try done. by apply relaxStep_settled.
  - pose proof (fieldStart_frame f Hwf) as (HW & HH & HC & _).
    pose proof (IsPassable_inBounds _ _ Hgoal) as Hgb.
    assert (Hd : ∀ p, inBounds (grid f) p → distAt (fieldStart f) p < MaxInt32 →
                      p = goal f).
    { intros p Hp. rewrite fieldStart_distAt by done.
      case_decide; [done|lia]. }
    unfold P. split_and!.
    + by apply fieldStart_relaxInv.
    + split_and!; simpl.
      * by eapply stepCostsOK_frame.
      * intros p Hp. apply fieldStart_inBounds in Hp; [|done].
        rewrite fieldStart_distAt by done. unfold MaxInt32. case_decide; lia.
      * rewrite fieldStart_distAt by done. by rewrite decide_True.
    + by apply fieldStart_inBounds.
    + split_and!; cbn [fst snd].
      * done.
      * intros p Hp Hlt. rewrite (Hd p Hp Hlt).
        rewrite fieldStart_distAt, decide_True by done. constructor.
      * intros p Hp Hlt. left. rewrite (Hd p Hp Hlt). left.
Qed.



(** ** Raising one cost *)


(** ** Dyadic order *)

Lemma pow2_pos k : 0 < 2 ^ k ∨ 2 ^ k = 0.
Proof.
  destruct (Z_le_gt_dec 0 k); [left; by apply Z.pow_pos_nonneg|right].
  by apply Z.pow_neg_r; lia.
Qed.

Lemma pow2_split a b : 0 <= a → 0 <= b → 2 ^ (a + b) = 2 ^ a * 2 ^ b.
Proof. intros. by apply Z.pow_add_r. Qed.

Lemma dle_iff k m1 e1 m2 e2 :
  k <= e1 → k <= e2 →
  dle m1 e1 m2 e2 ↔ m1 * 2 ^ (e1 - k) <= m2 * 2 ^ (e2 - k).
Proof.
  intros H1 H2. unfold dle. set (μ := Z.min e1 e2).
  assert (Hμ : k <= μ) by (unfold μ; lia).
  assert (Hp : 0 < 2 ^ (μ - k)) by (apply Z.pow_pos_nonneg; lia).
  replace (e1 - k) with ((e1 - μ) + (μ - k)) by lia.
  replace (e2 - k) with ((e2 - μ) + (μ - k)) by lia.
  rewrite !pow2_split by (unfold μ; lia). rewrite !Z.mul_assoc.
  split; intros H.
  - by apply Z.mul_le_mono_nonneg_r; [lia|].
  - by apply Z.mul_le_mono_pos_r in H.
Qed.

Lemma dle_refl m e : dle m e m e.
Proof. unfold dle. lia. Qed.

Lemma dle_trans m1 e1 m2 e2 m3 e3 :
  dle m1 e1 m2 e2 → dle m2 e2 m3 e3 → dle m1 e1 m3 e3.
Proof.
  set (k := Z.min e1 (Z.min e2 e3)).
  rewrite (dle_iff k m1 e1 m2 e2), (dle_iff k m2 e2 m3 e3),
          (dle_iff k m1 e1 m3 e3) by (unfold k; lia).
  lia.
Qed.

Lemma dle_same_exp m1 m2 e : dle m1 e m2 e ↔ m1 <= m2.
Proof. rewrite (dle_iff e) by lia. rewrite Z.sub_diag. simpl. lia. Qed.

(** Changing the representation of a dyadic. *)
Lemma dle_scale_l m e j m2 e2 :
  0 <= j → dle (m * 2 ^ j) (e - j) m2 e2 ↔ dle m e m2 e2.
Proof.
  intros Hj. set (k := Z.min (e - j) e2).
  rewrite (dle_iff k (m * 2 ^ j) (e - j)), (dle_iff k m e) by (unfold k; lia).
  replace (e - k) with (j + (e - j - k)) by lia.
  rewrite pow2_split by (unfold k; lia). by rewrite Z.mul_assoc.
Qed.

Lemma dle_scale_r m e j m1 e1 :
  0 <= j → dle m1 e1 (m * 2 ^ j) (e - j) ↔ dle m1 e1 m e.
Proof.
  intros Hj. set (k := Z.min (e - j) e1).
  rewrite (dle_iff k m1 e1 (m * 2 ^ j)), (dle_iff k m1 e1 m) by (unfold k; lia).
  replace (e - k) with (j + (e - j - k)) by lia.
  rewrite pow2_split by (unfold k; lia). by rewrite Z.mul_assoc.
Qed.

Lemma dle_pow2 a b : a <= b → dle 1 a 1 b.
Proof.
  intros Hab. rewrite (dle_iff a) by lia. rewrite Z.sub_diag. simpl.
  assert (0 < 2 ^ (b - a)) by (apply Z.pow_pos_nonneg; lia). lia.
Qed.

Lemma dle_mul m1 e1 m2 e2 m e :
  0 <= m → dle m1 e1 m2 e2 → dle (m1 * m) (e1 + e) (m2 * m) (e2 + e).
Proof.
  intros Hm. set (k := Z.min e1 e2).
  rewrite (dle_iff k m1 e1 m2 e2) by (unfold k; lia).
  rewrite (dle_iff (k + e)) by (unfold k; lia).
  replace (e1 + e - (k + e)) with (e1 - k) by lia.
  replace (e2 + e - (k + e)) with (e2 - k) by lia.
  intros H. nia.
Qed.

Lemma dfloor_scaled k m e :
  k <= e → k <= 0 → dfloor m e = m * 2 ^ (e - k) / 2 ^ (- k).
Proof.
  intros Hk Hk0. unfold dfloor.
  assert (0 < 2 ^ (- k)) by (apply Z.pow_pos_nonneg; lia).
  destruct (Z.leb_spec 0 e).
  - replace (e - k) with (e + - k) by lia. rewrite pow2_split by lia.
    rewrite Z.mul_assoc, Z.div_mul; lia.
  - replace (- k) with ((e - k) + - e) by lia.
    rewrite pow2_split by lia.
    rewrite (Z.mul_comm (2 ^ (e - k))).
    rewrite Z.div_mul_cancel_r; [done| |].
    + assert (0 < 2 ^ (- e)) by (apply Z.pow_pos_nonneg; lia). lia.
    + assert (0 < 2 ^ (e - k)) by (apply Z.pow_pos_nonneg; lia). lia.
Qed.

Lemma dfloor_mono m1 e1 m2 e2 :
  dle m1 e1 m2 e2 → dfloor m1 e1 <= dfloor m2 e2.
Proof.
  set (k := Z.min 0 (Z.min e1 e2)).
  rewrite (dle_iff k) by (unfold k; lia).
  rewrite (dfloor_scaled k m1 e1), (dfloor_scaled k m2 e2) by (unfold k; lia).
  intros H. apply Z.div_le_mono; [|done].
  apply Z.pow_pos_nonneg; unfold k; lia.
Qed.

(** ** Rounding to nearest, ties to even *)

Lemma rne_bounds m n :
  0 <= n → m / 2 ^ n <= rne m n <= m / 2 ^ n + 1.
Proof.
  intros Hn. unfold rne.
  destruct (2 * (m mod 2 ^ n) ?= 2 ^ n); [destruct (Z.even _)|..]; lia.
Qed.

Lemma rne_exact q n : 0 <= n → rne (q * 2 ^ n) n = q.
Proof.
  intros Hn. unfold rne.
  assert (Hp : 0 < 2 ^ n) by (by apply Z.pow_pos_nonneg).
  rewrite Z.div_mul, Z.mod_mul by lia.
  by destruct (Z.compare_spec (2 * 0) (2 ^ n)); try lia.
Qed.

Lemma rne_mono m m' n : 0 <= n → m <= m' → rne m n <= rne m' n.
Proof.
  intros Hn Hm. assert (Hp : 0 < 2 ^ n) by (by apply Z.pow_pos_nonneg).
  pose proof (Z.div_le_mono m m' (2 ^ n) Hp Hm) as Hq.
  pose proof (rne_bounds m n Hn). pose proof (rne_bounds m' n Hn).
  destruct (decide (m / 2 ^ n = m' / 2 ^ n)) as [Heq|Hne]; [|lia].
  assert (Hr : m mod 2 ^ n <= m' mod 2 ^ n).
  { pose proof (Z.div_mod m (2 ^ n)). pose proof (Z.div_mod m' (2 ^ n)).
    rewrite Heq in *. lia. }
  unfold rne. rewrite Heq.
  destruct (Z.compare_spec (2 * (m mod 2 ^ n)) (2 ^ n)),
           (Z.compare_spec (2 * (m' mod 2 ^ n)) (2 ^ n));
    try destruct (Z.even _); lia.
Qed.

Lemma rne_scale m n j : 0 <= n → 0 <= j → rne (m * 2 ^ j) (n + j) = rne m n.
Proof.
  intros Hn Hj. unfold rne.
  assert (Hpn : 0 < 2 ^ n) by (by apply Z.pow_pos_nonneg).
  assert (Hpj : 0 < 2 ^ j) by (by apply Z.pow_pos_nonneg).
  rewrite pow2_split by done.
  rewrite Z.div_mul_cancel_r, Z.mul_mod_distr_r by lia.
  rewrite Z.mul_assoc.
  by rewrite <- (Zmult_compare_compat_r _ _ (2 ^ j)) by lia.
Qed.

Lemma rne_nonneg m n : 0 <= n → 0 <= m → 0 <= rne m n.
Proof.
  intros Hn Hm. pose proof (rne_bounds m n Hn).
  assert (0 <= m / 2 ^ n) by (apply Z.div_pos; [done|by apply Z.pow_pos_nonneg]).
  lia.
Qed.

(** [rneAt] over any exponent below both. *)
Lemma rneAt_common k E m e :
  k <= e → k <= E → rneAt E m e = rne (m * 2 ^ (e - k)) (E - k).
Proof.
  intros Hke HkE. unfold rneAt. destruct (Z.leb_spec E e).
  - replace (e - k) with ((e - E) + (E - k)) by lia.
    rewrite pow2_split, Z.mul_assoc, rne_exact by lia. done.
  - replace (E - k) with ((E - e) + (e - k)) by lia.
    by rewrite rne_scale by lia.
Qed.

Lemma rneAt_mono E m e m' e' :
  dle m e m' e' → rneAt E m e <= rneAt E m' e'.
Proof.
  set (k := Z.min E (Z.min e e')).
  rewrite (dle_iff k) by (unfold k; lia).
  rewrite (rneAt_common k E m e), (rneAt_common k E m' e') by (unfold k; lia).
  apply rne_mono. unfold k; lia.
Qed.

Lemma rneAt_nonneg E m e : 0 <= m → 0 <= rneAt E m e.
Proof.
  intros Hm. unfold rneAt. destruct (Z.leb_spec E e).
  - apply Z.mul_nonneg_nonneg; [done|]. apply Z.pow_nonneg. lia.
  - apply rne_nonneg; lia.
Qed.

Lemma rneAt_pow2 E a : E <= a → rneAt E 1 a = 2 ^ (a - E).
Proof. intros H. unfold rneAt. destruct (Z.leb_spec E a); lia. Qed.

(** ** Magnitudes *)

Lemma size_bounds m :
  2 ^ (Z.pos (Pos.size m) - 1) <= Z.pos m < 2 ^ Z.pos (Pos.size m).
Proof.
  induction m as [m IH|m IH|]; [| |by compute; intuition discriminate].
  - simpl Pos.size. rewrite Pos2Z.inj_succ.
    change (Z.pos m~1) with (2 * Z.pos m + 1).
    replace (Z.succ (Z.pos (Pos.size m)) - 1)
      with (Z.succ (Z.pos (Pos.size m) - 1)) by lia.
    rewrite !Z.pow_succ_r by lia.
    set (a := 2 ^ (Z.pos (Pos.size m) - 1)) in *.
    set (b := 2 ^ Z.pos (Pos.size m)) in *. clearbody a b. lia.
  - simpl Pos.size. rewrite Pos2Z.inj_succ.
    change (Z.pos m~0) with (2 * Z.pos m).
    replace (Z.succ (Z.pos (Pos.size m)) - 1)
      with (Z.succ (Z.pos (Pos.size m) - 1)) by lia.
    rewrite !Z.pow_succ_r by lia.
    set (a := 2 ^ (Z.pos (Pos.size m) - 1)) in *.
    set (b := 2 ^ Z.pos (Pos.size m)) in *. clearbody a b. lia.
Qed.

Lemma magnitude_bounds m e :
  dle 1 (magnitude m e - 1) (Z.pos m) e ∧ dle (Z.pos m) e 1 (magnitude m e).
Proof.
  unfold magnitude. pose proof (size_bounds m) as [Hlo Hhi].
  set (d := Z.pos (Pos.size m)) in *. assert (1 <= d) by (unfold d; lia).
  split.
  - rewrite (dle_iff e) by lia. rewrite Z.sub_diag.
    replace (d + e - 1 - e) with (d - 1) by lia. simpl. lia.
  - rewrite (dle_iff e) by lia. rewrite Z.sub_diag.
    replace (d + e - e) with d by lia. simpl. lia.
Qed.

Lemma magnitude_mono m e m' e' :
  dle (Z.pos m) e (Z.pos m') e' → magnitude m e <= magnitude m' e'.
Proof.
  intros Hle.
  destruct (magnitude_bounds m e) as [Hlo _].
  destruct (magnitude_bounds m' e') as [_ Hhi].
  pose proof (dle_trans _ _ _ _ _ _ (dle_trans _ _ _ _ _ _ Hlo Hle) Hhi) as H.
  destruct (Z_le_gt_dec (magnitude m e) (magnitude m' e')) as [|Hgt]; [done|].
  exfalso. unfold dle in H.
  rewrite Z.min_r in H by lia. rewrite Z.sub_diag in H. simpl in H.
  (* here 2 ^ (mag - 1 - mag') <= 1 with mag - 1 - mag' >= 0 ... *)
  destruct (decide (magnitude m e - 1 = magnitude m' e')) as [Heq|Hne].
  - (* equal: the two bounds meet, but the upper one is strict *)
    destruct (magnitude_bounds m' e') as [_ Hhi'].
    unfold magnitude in *. pose proof (size_bounds m) as [Hlo1 _].
    pose proof (size_bounds m') as [_ Hhi1].
    set (k := Z.min e e').
    rewrite (dle_iff k) in Hle by (unfold k; lia).
    set (d := Z.pos (Pos.size m)) in *. set (d' := Z.pos (Pos.size m')) in *.
    assert (Hd : 1 <= d ∧ 1 <= d') by (unfold d, d'; lia).
    assert (H1 : 2 ^ (d - 1) * 2 ^ (e - k) <= Z.pos m * 2 ^ (e - k)).
    { apply Z.mul_le_mono_nonneg_r; [apply Z.pow_nonneg; lia|done]. }
    assert (H2 : Z.pos m' * 2 ^ (e' - k) < 2 ^ d' * 2 ^ (e' - k)).
    { apply Z.mul_lt_mono_pos_r; [apply Z.pow_pos_nonneg; unfold k; lia|done]. }
    rewrite <- !pow2_split in H1, H2 by (unfold k; lia).
    replace (d - 1 + (e - k)) with (d' + (e' - k)) in H1 by lia. lia.
  - assert (Hp : 2 ^ 1 <= 2 ^ (magnitude m e - 1 - magnitude m' e')).
    { apply Z.pow_le_mono_r; lia. }
    simpl in Hp. lia.
Qed.

(** ** Rounding to binary64 is monotone *)

Lemma dle_zero_l e1 m2 e2 : 0 <= m2 → dle 0 e1 m2 e2.
Proof.
  intros H. unfold dle. rewrite Z.mul_0_l.
  apply Z.mul_nonneg_nonneg; [done|apply Z.pow_nonneg; lia].
Qed.

Lemma rne_one n : 1 <= n → rne 1 n = 0.
Proof.
  intros Hn. unfold rne.
  assert (Hp : 2 <= 2 ^ n).
  { change 2 with (2 ^ 1) at 1. apply Z.pow_le_mono_r; lia. }
  rewrite Z.div_small, Z.mod_small by lia.
  by destruct (Z.compare_spec (2 * 1) (2 ^ n)); try lia.
Qed.

Lemma rneAt_one_le E a : dle (rneAt E 1 a) E 1 a.
Proof.
  destruct (Z_le_gt_dec E a).
  - rewrite rneAt_pow2 by done.
    rewrite <- (Z.mul_1_l (2 ^ (a - E))).
    replace E with (a - (a - E)) at 2 by lia.
    apply dle_scale_l; [lia|apply dle_refl].
  - unfold rneAt. destruct (Z.leb_spec E a); [lia|].
    rewrite rne_one by lia. by apply dle_zero_l.
Qed.

Lemma rneAt_one_ge E a : E <= a → dle 1 a (rneAt E 1 a) E.
Proof.
  intros H. rewrite rneAt_pow2 by done.
  rewrite <- (Z.mul_1_l (2 ^ (a - E))).
  replace E with (a - (a - E)) at 2 by lia.
  apply dle_scale_r; [lia|apply dle_refl].
Qed.

Lemma round_mono m e m' e' :
  dle (Z.pos m) e (Z.pos m') e' →
  dle (roundMant m e) (roundExp m e) (roundMant m' e') (roundExp m' e').
Proof.
  intros Hle. unfold roundMant, roundExp.
  pose proof (magnitude_mono m e m' e' Hle) as Hmag.
  destruct (magnitude_bounds m e) as [_ Hhi].
  destruct (magnitude_bounds m' e') as [Hlo' _].
  set (mag := magnitude m e) in *. set (mag' := magnitude m' e') in *.
  destruct (decide (fexp64 mag = fexp64 mag')) as [Heq|Hne].
  - rewrite Heq. apply dle_same_exp. by apply rneAt_mono.
  - assert (HE : fexp64 mag < fexp64 mag' ∧ fexp64 mag' = mag' - 53 ∧
                 mag <= mag' - 1) by (unfold fexp64 in *; lia).
    destruct HE as (HEl & HE' & Hm1).
    eapply dle_trans.
    { apply dle_same_exp. apply (rneAt_mono _ _ _ 1 mag), Hhi. }
    eapply dle_trans; [apply rneAt_one_le|].
    eapply dle_trans; [apply (dle_pow2 mag (mag' - 1)); lia|].
    eapply dle_trans; [apply (rneAt_one_ge (fexp64 mag')); lia|].
    apply dle_same_exp. by apply rneAt_mono.
Qed.

Lemma roundMant_nonneg m e : 0 <= roundMant m e.
Proof. by apply rneAt_nonneg. Qed.

(** ** The rounding of [SpecFloat] computes [roundMant], [roundExp] *)

Lemma digits2_pos_size m : digits2_pos m = Pos.size m.
Proof. induction m; simpl; congruence. Qed.

Lemma fexp_fexp64 mag : fexp prec emax mag = fexp64 mag.
Proof. reflexivity. Qed.

Lemma shr_1_spec q r s :
  0 <= q →
  shr_1 (Build_shr_record q r s) = Build_shr_record (q / 2) (Z.odd q) (r || s).
Proof.
  intros Hq. rewrite <- Z.div2_div.
  destruct q as [|[p|p|]|p]; try lia; reflexivity.
Qed.

(** The record after [k] one-bit shifts of [m]: the quotient, the last
    bit shifted out, and whether a bit before it was set. *)
Lemma shr_iter m (n : positive) :
  0 <= m →
  SpecFloat.iter_pos shr_1 n (Build_shr_record m false false) =
    Build_shr_record (m / 2 ^ Z.pos n)
                     (Z.odd (m / 2 ^ (Z.pos n - 1)))
                     (negb (m mod 2 ^ (Z.pos n - 1) =? 0)).
Proof.
  intros Hm.
  pose (st := λ k : Z,
    Build_shr_record (m / 2 ^ k)
      ((0 <? k) && Z.odd (m / 2 ^ (k - 1)))
      ((0 <? k) && negb (m mod 2 ^ (k - 1) =? 0))).
  assert (Hstep : ∀ k, 0 <= k → shr_1 (st k) = st (k + 1)).
  { intros k Hk. unfold st.
    assert (Hpk : 0 < 2 ^ k) by (by apply Z.pow_pos_nonneg).
    rewrite shr_1_spec by (by apply Z.div_pos).
    replace (k + 1 - 1) with k by lia.
    replace (0 <? k + 1) with true by (symmetry; apply Z.ltb_lt; lia).
    rewrite Z.div_div by lia.
    replace (2 ^ k * 2) with (2 ^ (k + 1)) by (rewrite Z.pow_add_r; lia).
    simpl andb.
    f_equal.
    destruct (Z.ltb_spec 0 k) as [Hk0|Hk0]; simpl.
    - replace k with (Z.succ (k - 1)) at 3 by lia.
      rewrite Z.pow_succ_r, (Z.mul_comm 2), Z.rem_mul_r by
        (try apply Z.pow_nonzero; lia).
      rewrite Zmod_odd.
      assert (Hp1 : 0 < 2 ^ (k - 1)) by (apply Z.pow_pos_nonneg; lia).
      pose proof (Z.mod_pos_bound m (2 ^ (k - 1)) Hp1).
      destruct (Z.odd (m / 2 ^ (k - 1))); simpl.
      + symmetry. apply negb_true_iff, Z.eqb_neq. lia.
      + by rewrite Z.mul_0_r, Z.add_0_r.
    - assert (k = 0) as -> by lia. simpl. by rewrite Z.mod_1_r. }
  assert (Hiter : ∀ (p : positive) k, 0 <= k →
            SpecFloat.iter_pos shr_1 p (st k) = st (k + Z.pos p)).
  { induction p as [p IH|p IH|]; intros k Hk; cbn [SpecFloat.iter_pos].
    - rewrite Hstep, !IH by lia. f_equal. lia.
    - rewrite !IH by lia. f_equal. lia.
    - by apply Hstep. }
  specialize (Hiter n 0 ltac:(lia)).
  unfold st in Hiter at 1. simpl in Hiter.
  rewrite Z.div_1_r in Hiter. rewrite Hiter. unfold st. by simpl.
Qed.

Lemma round_shifted m (n : positive) :
  0 <= m →
  let mrs := SpecFloat.iter_pos shr_1 n (Build_shr_record m false false) in
  round_nearest_even (shr_m mrs) (loc_of_shr_record mrs) = rne m (Z.pos n).
Proof.
  intros Hm. rewrite shr_iter by done. cbv zeta. simpl shr_m.
  unfold rne.
  set (k := Z.pos n). assert (Hk : 1 <= k) by (unfold k; lia).
  assert (Hp1 : 0 < 2 ^ (k - 1)) by (apply Z.pow_pos_nonneg; lia).
  assert (Hk2 : 2 ^ k = 2 ^ (k - 1) * 2).
  { replace k with ((k - 1) + 1) at 1 by lia.
    by rewrite Z.pow_add_r by lia. }
  rewrite Hk2.
  rewrite Z.rem_mul_r by lia. rewrite Zmod_odd.
  pose proof (Z.mod_pos_bound m (2 ^ (k - 1)) Hp1) as Hlow.
  set (low := m mod 2 ^ (k - 1)) in *. set (h := 2 ^ (k - 1)) in *.
  destruct (Z.odd (m / h)); simpl.
  - destruct (Z.eqb_spec low 0); simpl.
    + destruct (Z.compare_spec (2 * (low + h * 1)) (h * 2)); try lia; done.
    + destruct (Z.compare_spec (2 * (low + h * 1)) (h * 2)); try lia; done.
  - destruct (Z.eqb_spec low 0); simpl.
    + destruct (Z.compare_spec (2 * (low + h * 0)) (h * 2)); try lia; done.
    + destruct (Z.compare_spec (2 * (low + h * 0)) (h * 2)); try lia; done.
Qed.

Lemma shr_fexp_exact m e :
  shr_fexp prec emax m e loc_Exact =
    match fexp64 (Zdigits2 m + e) - e with
    | Z.pos n => (SpecFloat.iter_pos shr_1 n (Build_shr_record m false false),
                  e + Z.pos n)
    | _ => (Build_shr_record m false false, e)
    end.
Proof.
  unfold shr_fexp, shr. rewrite fexp_fexp64.
  destruct (fexp64 (Zdigits2 m + e) - e); reflexivity.
Qed.

Lemma roundMant_le m e :
  roundExp m e > e → roundMant m e <= 2 ^ 53.
Proof.
  unfold roundMant, roundExp, rneAt. intros HE.
  set (E := fexp64 (magnitude m e)) in *.
  destruct (Z.leb_spec E e); [lia|].
  pose proof (rne_bounds (Z.pos m) (E - e) ltac:(lia)) as [_ Hub].
  pose proof (size_bounds m) as [_ Hhi].
  assert (HE53 : magnitude m e - 53 <= E) by (unfold E, fexp64; lia).
  unfold magnitude in HE53.
  assert (Hq : Z.pos m / 2 ^ (E - e) < 2 ^ 53).
  { apply Z.div_lt_upper_bound; [apply Z.pow_pos_nonneg; lia|].
    rewrite <- Z.pow_add_r by lia.
    eapply Z.lt_le_trans; [exact Hhi|]. apply Z.pow_le_mono_r; lia. }
  lia.
Qed.

(** What [binary_round_aux] returns on an exact positive input: the
    dyadic [(roundMant, roundExp)], possibly written with a larger
    exponent, or an infinity. *)
Lemma round_aux_spec (m : positive) e :
  match binary_round_aux prec emax false (Z.pos m) e loc_Exact with
  | S754_zero s => s = false ∧ roundMant m e = 0
  | S754_finite s mr er =>
      s = false ∧ roundExp m e <= er ∧
      Z.pos mr * 2 ^ (er - roundExp m e) = roundMant m e
  | S754_infinity s => s = false ∧ 971 < Z.max (roundExp m e + 1) e
  | S754_nan => False
  end.
Proof.
  pose proof (roundMant_nonneg m e) as HN0.
  pose proof (roundMant_le m e) as HN53.
  unfold binary_round_aux. rewrite shr_fexp_exact.
  simpl Zdigits2. rewrite digits2_pos_size.
  fold (magnitude m e). fold (roundExp m e).
  set (E := roundExp m e) in *.
  assert (HEmin : -1074 <= E) by (unfold E, roundExp, fexp64; lia).
  assert (Hfin : ∀ (N : Z) (er : Z), 0 <= N → E <= er →
    er <= Z.max (E + 1) e →
    (fexp64 (Zdigits2 N + er) - er <= 0) →
    N * 2 ^ (er - E) = roundMant m e →
    match
      (let '(mrs'', e'') := shr_fexp prec emax N er loc_Exact in
       match shr_m mrs'' with
       | 0 => S754_zero false
       | Z.pos m0 =>
           if e'' <=? emax - prec then S754_finite false m0 e''
           else S754_infinity false
       | Z.neg _ => S754_nan
       end)
    with
    | S754_zero s => s = false ∧ roundMant m e = 0
    | S754_finite s mr er =>
        s = false ∧ E <= er ∧ Z.pos mr * 2 ^ (er - E) = roundMant m e
    | S754_infinity s => s = false ∧ 971 < Z.max (E + 1) e
    | S754_nan => False
    end).
  { intros N er HN Her Hmax Hn2 Hval. rewrite shr_fexp_exact.
    destruct (fexp64 (Zdigits2 N + er) - er) as [|k|k] eqn:Hk; try lia;
      simpl;
      (destruct N as [|pN|pN];
       [|destruct (Z.leb_spec er (emax - prec)) as [Hr|Hr]|lia]);
      simpl; try done; split; try done; unfold emax, prec in *; lia. }
  destruct (E - e) as [|n|n] eqn:Hn.
  - (* no shift *)
    simpl shr_m. simpl loc_of_shr_record. simpl round_nearest_even.
    assert (HEe : E = e) by lia.
    apply Hfin; try lia.
    + simpl Zdigits2. rewrite digits2_pos_size. fold (magnitude m e).
      fold (roundExp m e). fold E. lia.
    + unfold roundMant, rneAt. fold (roundExp m e). fold E.
      destruct (Z.leb_spec E e); [done|lia].
  - (* a shift by [n] bits *)
    assert (HEe : E = e + Z.pos n) by lia.
    rewrite round_shifted by lia.
    assert (HN : rne (Z.pos m) (Z.pos n) = roundMant m e).
    { unfold roundMant, rneAt. fold (roundExp m e). fold E.
      destruct (Z.leb_spec E e); [lia|]. f_equal. lia. }
    rewrite HN, <- HEe.
    specialize (HN53 ltac:(lia)).
    destruct (Z_le_gt_dec (fexp64 (Zdigits2 (roundMant m e) + E) - E) 0)
      as [Hle|Hgt].
    + apply Hfin; try lia. rewrite Z.sub_diag. simpl. lia.
    + (* the mantissa reached [2 ^ 53] *)
      destruct (roundMant m e) as [|pN|pN] eqn:HpN; [|clear HN0|lia].
      { simpl in Hgt. unfold fexp64 in Hgt. lia. }
      simpl Zdigits2 in Hgt. rewrite digits2_pos_size in Hgt.
      pose proof (size_bounds pN) as [Hlo _].
      assert (Hsz : 54 <= Z.pos (Pos.size pN)) by (unfold fexp64 in Hgt; lia).
      assert (Hp53 : 2 ^ 53 <= 2 ^ (Z.pos (Pos.size pN) - 1))
        by (apply Z.pow_le_mono_r; lia).
      assert (pN = (2 ^ 53)%positive) as -> by lia.
      rewrite shr_fexp_exact.
      replace (fexp64 (Zdigits2 (Z.pos (2 ^ 53)) + E) - E) with 1
        by (simpl Zdigits2; unfold fexp64; lia).
      simpl. destruct (Z.leb_spec (E + 1) (emax - prec)) as [Hr|Hr];
        [|split; [done|unfold emax, prec in *; lia]].
      split; [done|]. split; [lia|].
      replace (E + 1 - E) with 1 by lia. reflexivity.
  - (* no shift *)
    simpl shr_m. simpl loc_of_shr_record. simpl round_nearest_even.
    assert (HEe : E < e) by lia.
    rewrite shr_fexp_exact. simpl Zdigits2. rewrite digits2_pos_size.
    fold (magnitude m e). fold (roundExp m e). fold E. rewrite Hn. simpl.
    assert (HN : roundMant m e = Z.pos m * 2 ^ (e - E)).
    { unfold roundMant, rneAt. fold (roundExp m e). fold E.
      destruct (Z.leb_spec E e); [done|lia]. }
    destruct (Z.leb_spec e (emax - prec)) as [Hr|Hr];
      [|split; [done|unfold emax, prec in *; lia]].
    split; [done|]. split; [lia|]. by rewrite HN.
Qed.

(** ** The binary64 operations on non-negative numbers *)

Lemma round_aux_cases (m : positive) e :
  let x := binary_round_aux prec emax false (Z.pos m) e loc_Exact in
  x = S754_infinity false ∨ represents x (roundMant m e) (roundExp m e).
Proof.
  cbv zeta. pose proof (round_aux_spec m e) as H.
  destruct (binary_round_aux prec emax false (Z.pos m) e loc_Exact)
    as [s|s| |s mr er]; simpl.
  - right. by destruct H as [-> ?].
  - left. by destruct H as [-> ?].
  - done.
  - right. by destruct H as [-> ?].
Qed.

Lemma represents_nonneg x m e : represents x m e → 0 <= m.
Proof.
  destruct x as [[]|[]| |[] mr er]; simpl; try done; [lia|].
  intros [? <-]. apply Z.mul_nonneg_nonneg; [lia|].
  apply Z.pow_nonneg; lia.
Qed.

Lemma dle_scaled m e j :
  0 <= j → dle (m * 2 ^ j) (e - j) m e ∧ dle m e (m * 2 ^ j) (e - j).
Proof.
  intros Hj. split.
  - apply (proj2 (dle_scale_l m e j m e Hj)), dle_refl.
  - apply (proj2 (dle_scale_r m e j m e Hj)), dle_refl.
Qed.

Lemma represents_finite mr er m e :
  represents (S754_finite false mr er) m e →
  dle m e (Z.pos mr) er ∧ dle (Z.pos mr) er m e.
Proof.
  simpl. intros [Hle <-].
  pose proof (dle_scaled (Z.pos mr) er (er - e) ltac:(lia)) as H.
  by replace (er - (er - e)) with e in H by lia.
Qed.

Lemma dle_pos_zero m e e' : 0 < m → ¬ dle m e 0 e'.
Proof.
  unfold dle. intros Hm H. rewrite Z.mul_0_l in H.
  assert (0 < 2 ^ (e - Z.min e e')) by (apply Z.pow_pos_nonneg; lia). nia.
Qed.

(** Of two represented numbers in order, the smaller is zero or both are
    finite, in the same order. *)
Lemma represents_dle x m e x' m' e' :
  represents x m e → represents x' m' e' → dle m e m' e' →
  x = S754_zero false ∨
  ∃ m1 e1 m1' e1',
    x = S754_finite false m1 e1 ∧ x' = S754_finite false m1' e1' ∧
    dle (Z.pos m1) e1 (Z.pos m1') e1'.
Proof.
  intros Hx Hx' Hle.
  destruct x as [[]|[]| |[] m1 e1]; try done; [by left|]. right.
  apply represents_finite in Hx as [Hx1 Hx2].
  destruct x' as [[]|[]| |[] m1' e1']; try done.
  - simpl in Hx'. subst m'. exfalso.
    apply (dle_pos_zero (Z.pos m1) e1 e'); [lia|]. by eapply dle_trans.
  - apply represents_finite in Hx' as [Hx1' Hx2'].
    exists m1, e1, m1', e1'. split_and!; try done.
    eapply dle_trans; [exact Hx2|]. by eapply dle_trans.
Qed.

Lemma dfloor_zero e : dfloor 0 e = 0.
Proof.
  unfold dfloor. destruct (Z.leb_spec 0 e); [lia|apply Z.div_0_l].
  apply Z.pow_nonzero; lia.
Qed.

Lemma to_int_represents x m e :
  represents x m e →
  Float64.to_int x = dfloor m e ∨ Float64.to_int x = min_int64.
Proof.
  destruct x as [[]|[]| |[] mr er]; try done.
  - simpl. intros ->. left. by rewrite dfloor_zero.
  - intros H. apply represents_finite in H as [H1 H2].
    assert (Hfl : dfloor m e = dfloor (Z.pos mr) er).
    { apply Z.le_antisymm; by apply dfloor_mono. }
    rewrite Hfl. unfold Float64.to_int, dfloor.
    destruct (Z.leb_spec 0 er).
    + rewrite Z.shiftl_mul_pow2 by done.
      destruct (_ && _); [by left|by right].
    + rewrite Z.shiftr_div_pow2 by lia.
      destruct (_ && _); [by left|by right].
Qed.

Lemma to_int_mono x m e x' m' e' :
  represents x m e → represents x' m' e' → dle m e m' e' →
  0 <= Float64.to_int x → 0 <= Float64.to_int x' →
  Float64.to_int x <= Float64.to_int x'.
Proof.
  intros Hx Hx' Hle H0 H0'.
  pose proof (dfloor_mono _ _ _ _ Hle).
  destruct (to_int_represents _ _ _ Hx) as [->| Hm];
    [|rewrite Hm in H0; by vm_compute in H0].
  destruct (to_int_represents _ _ _ Hx') as [->| Hm];
    [|rewrite Hm in H0'; by vm_compute in H0'].
  done.
Qed.

Lemma to_int_negative_sign m e l :
  Float64.to_int (binary_round_aux prec emax true m e l) <= 0.
Proof.
  unfold binary_round_aux.
  destruct (shr_fexp prec emax m e l) as [mrs' e'].
  destruct (shr_fexp _ _ _ _ _) as [mrs'' e''].
  destruct (shr_m mrs'') as [|p|p]; [done| |done].
  destruct (e'' <=? emax - prec); [|done].
  unfold Float64.to_int.
  assert (0 <= (if 0 <=? e'' then Z.shiftl (Z.pos p) e''
                else Z.shiftr (Z.pos p) (- e''))).
  { destruct (0 <=? e''); [apply Z.shiftl_nonneg|apply Z.shiftr_nonneg]; lia. }
  cbv zeta. destruct (_ && _); [lia|done].
Qed.

Lemma iter_xO m d : Z.pos (Pos.iter xO m d) = Z.pos m * 2 ^ Z.pos d.
Proof.
  induction d as [|d IH] using Pos.peano_ind.
  - simpl. lia.
  - rewrite Pos.iter_succ, Pos2Z.inj_succ, Z.pow_succ_r by lia.
    change (Z.pos (Pos.iter xO m d)~0) with (2 * Z.pos (Pos.iter xO m d)).
    rewrite IH. ring.
Qed.

Lemma shl_align_spec mx ex ex' :
  let '(mz, ez) := shl_align mx ex ex' in
  dle (Z.pos mz) ez (Z.pos mx) ex ∧ dle (Z.pos mx) ex (Z.pos mz) ez.
Proof.
  unfold shl_align. destruct (ex' - ex) as [|d|d] eqn:Hd;
    try (split; apply dle_refl).
  rewrite iter_xO. replace ex' with (ex - Z.pos d) by lia.
  apply dle_scaled. lia.
Qed.

(** [float64(c)] of a positive [c] is an infinity or the rounding of a
    dyadic equal to [c]. *)
Lemma of_int_cases (c : positive) :
  Float64.of_int (Z.pos c) = S754_infinity false ∨
  ∃ mz ez,
    dle (Z.pos mz) ez (Z.pos c) 0 ∧ dle (Z.pos c) 0 (Z.pos mz) ez ∧
    represents (Float64.of_int (Z.pos c)) (roundMant mz ez) (roundExp mz ez).
Proof.
  unfold Float64.of_int, binary_normalize, binary_round.
  pose proof (shl_align_spec c 0
    (fexp Float64.prec Float64.emax (Z.pos (digits2_pos c) + 0))) as H.
  destruct (shl_align _ _ _) as [mz ez]. destruct H as [H1 H2].
  destruct (round_aux_cases mz ez) as [Hinf|Hr]; [by left|].
  right. by exists mz, ez.
Qed.

(** The scaling [int(float64(c) * d)] is monotone in [c] as long as its
    results are non-negative, i.e. as long as no conversion leaves the
    range of [int]. *)
Lemma scaleCost_mono d c c' :
  0 <= c <= c' → 0 <= scaleCost d c → 0 <= scaleCost d c' →
  scaleCost d c <= scaleCost d c'.
Proof.
  unfold scaleCost. intros [Hc Hcc'] H0 H0'.
  destruct c as [|c|c]; [|clear Hc|lia].
  { destruct d as [?|?| |? ? ?]; simpl in *; done. }
  destruct c' as [|c'|c']; [lia| |lia].
  destruct (of_int_cases c) as [Hinf|(mz & ez & Hz1 & Hz2 & Hr)].
  { rewrite Hinf in H0. destruct d; simpl in H0; done. }
  destruct (of_int_cases c') as [Hinf|(mz' & ez' & Hz1' & Hz2' & Hr')].
  { rewrite Hinf in H0'. destruct d; simpl in H0'; done. }
  assert (Hzz : dle (Z.pos mz) ez (Z.pos mz') ez').
  { eapply dle_trans; [exact Hz1|]. eapply dle_trans; [|exact Hz2'].
    by apply dle_same_exp. }
  destruct (represents_dle _ _ _ _ _ _ Hr Hr' (round_mono _ _ _ _ Hzz))
    as [Hzero|(m1 & e1 & m1' & e1' & Hx & Hx' & Hle)].
  { rewrite Hzero in *. destruct d as [?|?| |? ? ?]; simpl in *; done. }
  rewrite Hx in *. rewrite Hx' in *. clear Hx Hx' Hr Hr'.
  destruct d as [sd|sd| |sd md ed]; try done.
  unfold Float64.mul, SFmul in *. rewrite xorb_false_l in *.
  destruct sd.
  { pose proof (to_int_negative_sign (Z.pos (m1 * md)) (e1 + ed) loc_Exact).
    pose proof (to_int_negative_sign (Z.pos (m1' * md)) (e1' + ed) loc_Exact).
    unfold prec, emax in *. lia. }
  assert (Hprod : dle (Z.pos (m1 * md)) (e1 + ed) (Z.pos (m1' * md)) (e1' + ed)).
  { rewrite !Pos2Z.inj_mul. apply dle_mul; [lia|done]. }
  destruct (round_aux_cases (m1 * md) (e1 + ed)) as [Hinf|Hp].
  { unfold prec, emax in *. rewrite Hinf in H0. done. }
  destruct (round_aux_cases (m1' * md) (e1' + ed)) as [Hinf|Hp'].
  { unfold prec, emax in *. rewrite Hinf in H0'. done. }
  eapply to_int_mono; [exact Hp|exact Hp'|by apply round_mono|done..].
Qed.

(** The cost of a step grows with the cost of the cell entered, as long
    as it stays non-negative. *)
Lemma moveCost_mono cfg dir c c' :
  0 <= c <= c' → 0 <= moveCost cfg dir c → 0 <= moveCost cfg dir c' →
  moveCost cfg dir c <= moveCost cfg dir c'.
Proof.
  unfold moveCost. destruct (isDiagonal dir); [|lia].
  apply scaleCost_mono.
Qed.

(** ** Raising one cost, amended *)


Lemma recomputed_nav2Set : recomputed nav2Set.
Proof.
  exists nav2. split; [apply wf_NewGrid|].
  left. exists (mkPos 0 0). vm_compute. reflexivity.
Qed.


(* ================================================================== *)
(** * The rest of the package *)
(* ================================================================== *)

(** ** [SetGoal]: what it rejects and what it leaves alone *)

Lemma computeFlowField_no_error f : snd (computeFlowField f) = None.
Proof. reflexivity. Qed.

(** X1: [SetGoal] answers [ErrInvalidPosition] exactly for a position
    outside the grid, [ErrInvalidGoal] exactly for a cell of the grid
    whose cost is -1, and succeeds exactly on a passable cell; whenever
    it fails, the navigator is left as it was, goal and field
    included. *)
Theorem SetGoal_error_cases f goalPos :
  (snd (SetGoal f goalPos) = Some ErrInvalidPosition
     ↔ ¬ inBounds (grid f) goalPos) ∧
  (snd (SetGoal f goalPos) = Some ErrInvalidGoal
     ↔ inBounds (grid f) goalPos ∧ costAt (grid f) goalPos = -1) ∧
  (snd (SetGoal f goalPos) = None ↔ IsPassable (grid f) goalPos = true) ∧
  (snd (SetGoal f goalPos) ≠ None → fst (SetGoal f goalPos) = f).
Proof.
  unfold SetGoal.
  destruct (IsValidPosition (grid f) goalPos) eqn:Hv; cbn [negb].
  - pose proof (proj1 (IsValidPosition_inBounds _ _) Hv) as Hb.
    destruct (IsPassable (grid f) goalPos) eqn:Hp; cbn [negb].
    + rewrite computeFlowField_no_error.
      apply IsPassable_spec in Hp as [_ Hc].
      split_and!; [split; [done|tauto]|split; [done|tauto]|done|done].
    + assert (Hc : costAt (grid f) goalPos = -1).
      { destruct (decide (costAt (grid f) goalPos = -1)) as [|Hne]; [done|].
        assert (IsPassable (grid f) goalPos = true); [|congruence].
        by apply IsPassable_spec. }
      cbn [fst snd]. split_and!; [split; [done|tauto]|done|done|done].
  - pose proof (proj1 (IsValidPosition_false _ _) Hv) as Hb.
    assert (Hp : IsPassable (grid f) goalPos = false).
    { destruct (IsPassable (grid f) goalPos) eqn:Hp; [|done].
      by apply IsPassable_inBounds in Hp. }
    cbn [fst snd]. rewrite Hp.
    split_and!; [done|split; [done|tauto]|done|done].
Qed.

(** X2: a successful [SetGoal] records the goal, and changes neither the
    configuration nor the dimensions, the costs or the cell types of the
    grid; [GetGoal] then returns the goal and [GetFlowDirection] at the
    goal answers (0,0) without error. *)
Theorem SetGoal_success_frame f goalPos f' :
  wf_grid (grid f) → SetGoal f goalPos = (f', None) →
  config f' = config f ∧ GetGoal f' = goalPos ∧ isGoalSet f' = true ∧
  wf_grid (grid f') ∧
  Width (grid f') = Width (grid f) ∧ Height (grid f') = Height (grid f) ∧
  Costs (grid f') = Costs (grid f) ∧ CellTypes (grid f') = CellTypes (grid f) ∧
  GetFlowDirection f' goalPos = (zeroDir, None).
Proof.
  intros Hwf Hset. apply SetGoal_ok in Hset as [Hp Hf'].
  destruct (computeFlowField_spec (mkNav (config f) (grid f) goalPos true)
              Hwf Hp) as (g' & Heq & Hwf' & HW & HH & HC & HT & _).
  rewrite Heq in Hf'. cbn [fst config grid goal isGoalSet] in *. subst f'.
  cbn [config grid goal isGoalSet GetGoal].
  split_and!; try done.
  unfold GetFlowDirection. cbn [isGoalSet grid goal negb].
  assert (Hv : IsValidPosition g' goalPos = true).
  { apply IsValidPosition_inBounds. unfold inBounds. rewrite HW, HH.
    by apply IsPassable_inBounds. }
  by rewrite Hv, !Z.eqb_refl.
Qed.

Lemma SetGoal_success_frame_witness :
  wf_grid (grid nav2) ∧ SetGoal nav2 (mkPos 0 0) = (nav2Set, None) ∧
  config nav2Set = config nav2 ∧ GetGoal nav2Set = mkPos 0 0 ∧
  isGoalSet nav2Set = true ∧ wf_grid (grid nav2Set) ∧
  Width (grid nav2Set) = Width (grid nav2) ∧
  Height (grid nav2Set) = Height (grid nav2) ∧
  Costs (grid nav2Set) = Costs (grid nav2) ∧
  CellTypes (grid nav2Set) = CellTypes (grid nav2) ∧
  GetFlowDirection nav2Set (mkPos 0 0) = (zeroDir, None).
Proof.
  assert (Hwf : wf_grid (grid nav2)) by apply wf_NewGrid.
  assert (Hset : SetGoal nav2 (mkPos 0 0) = (nav2Set, None))
    by (vm_compute; reflexivity).
  split; [exact Hwf|]. split; [exact Hset|].
  exact (SetGoal_success_frame nav2 (mkPos 0 0) nav2Set Hwf Hset).
Defined.

(** ** [GetFlowDirection]: the shape of its answers *)

(** [GetFlowDirection] fails with [ErrInvalidGoal] exactly when no
    goal is set, with [ErrInvalidPosition] exactly when a goal is set and
    the position is outside the grid, and with [ErrNoPath] exactly when
    the position is a cell other than the goal whose stored direction is
    (0,0).  With an error the direction returned is (0,0); without one it
    is (0,0) only at the goal, and elsewhere the stored direction. *)
Lemma GetFlowDirection_shape f pos :
  let r := GetFlowDirection f pos in
  (snd r = Some ErrInvalidGoal ↔ isGoalSet f = false) ∧
  (snd r = Some ErrInvalidPosition
     ↔ isGoalSet f = true ∧ ¬ inBounds (grid f) pos) ∧
  (snd r = Some ErrNoPath
     ↔ isGoalSet f = true ∧ inBounds (grid f) pos ∧ pos ≠ goal f ∧
       flowAt (grid f) pos = zeroDir) ∧
  (snd r ≠ None → fst r = zeroDir) ∧
  (snd r = None → (fst r = zeroDir ↔ pos = goal f)) ∧
  (snd r = None → pos ≠ goal f → fst r = flowAt (grid f) pos).
Proof.
  cbv zeta. unfold GetFlowDirection.
  destruct (isGoalSet f); cbn [negb fst snd];
    [|split_and!; try done; intuition congruence].
  destruct (IsValidPosition (grid f) pos) eqn:Hv; cbn [negb fst snd].
  2:{ apply IsValidPosition_false in Hv.
      split_and!; try done; intuition congruence. }
  apply IsValidPosition_inBounds in Hv.
  rewrite goal_test. case_bool_decide as Hg; cbn [fst snd].
  { split_and!; try done; intuition congruence. }
  rewrite <- negb_andb, goal_test, bool_decide_false, andb_true_r by done.
  assert (Hz : (DirX (flowAt (grid f) pos) =? 0)
               && (DirY (flowAt (grid f) pos) =? 0) = true
               ↔ flowAt (grid f) pos = zeroDir).
  { rewrite andb_true_iff, !Z.eqb_eq. unfold zeroDir.
    destruct (flowAt (grid f) pos); simpl. split; [by intros [-> ->]|].
    by intros [= -> ->]. }
  destruct (_ && _) eqn:Hd; cbn [fst snd].
  - assert (flowAt (grid f) pos = zeroDir) by (by apply Hz).
    split_and!; try done; intuition congruence.
  - assert (flowAt (grid f) pos ≠ zeroDir)
      by (intros Hq; by apply Hz in Hq).
    split_and!; try done; intuition congruence.
Qed.

(** X3: [GetFlowDirection] fails with [ErrInvalidGoal] exactly when no
    goal is set, with [ErrInvalidPosition] exactly when a goal is set and
    the position is outside the grid, and with [ErrNoPath] exactly when
    the position is a cell other than the goal whose stored direction is
    (0,0).  With an error the direction returned is (0,0); without one it
    is (0,0) only at the goal, and elsewhere the stored direction. *)
Theorem GetFlowDirection_answers f pos :
  let r := GetFlowDirection f pos in
  (snd r = Some ErrInvalidGoal ↔ isGoalSet f = false) ∧
  (snd r = Some ErrInvalidPosition
     ↔ isGoalSet f = true ∧ ¬ inBounds (grid f) pos) ∧
  (snd r = Some ErrNoPath
     ↔ isGoalSet f = true ∧ inBounds (grid f) pos ∧ pos ≠ goal f ∧
       flowAt (grid f) pos = zeroDir) ∧
  (snd r ≠ None → fst r = zeroDir) ∧
  (snd r = None → (fst r = zeroDir ↔ pos = goal f)) ∧
  (snd r = None → pos ≠ goal f → fst r = flowAt (grid f) pos).
Proof. exact (GetFlowDirection_shape f pos). Qed.

(** ** The field a recomputation leaves *)

Lemma bestDirection_ext cfg g g' p :
  Width g' = Width g → Height g' = Height g → Distances g' = Distances g →
  bestDirection cfg g' p = bestDirection cfg g p.
Proof.
  intros HW HH HD. unfold bestDirection, bestStep, IsValidPosition, distAt.
  by rewrite HW, HH, HD.
Qed.

Lemma reach_frame cfg gA gB goalPos p L :
  Width gB = Width gA → Height gB = Height gA → Costs gB = Costs gA →
  reach cfg gA goalPos p L → reach cfg gB goalPos p L.
Proof.
  intros HW HH HC. induction 1 as [|u L dir Hr IH Hdir Hp]; [constructor|].
  replace (costAt gA (stepPos u dir)) with (costAt gB (stepPos u dir))
    by (unfold costAt; by rewrite HC).
  apply reach_step; [done..|]. by rewrite (IsPassable_frame gA gB).
Qed.

(** What [computeFlowField] leaves, in terms of the grid itself. *)
Lemma recomputed_field f' :
  recomputed f' →
  isGoalSet f' = true ∧ wf_grid (grid f') ∧
  IsPassable (grid f') (goal f') = true ∧
  (∀ p, inBounds (grid f') p → min_int64 <= distAt (grid f') p <= MaxInt32) ∧
  (∀ p, inBounds (grid f') p → IsPassable (grid f') p = false →
        distAt (grid f') p = MaxInt32) ∧
  (∀ p, inBounds (grid f') p →
     flowAt (grid f') p =
       if IsPassable (grid f') p && negb (bool_decide (p = goal f'))
       then bestDirection (config f') (grid f') p else zeroDir).
Proof.
  intros Hrec.
  destruct (recomputed_spec f' Hrec) as (f1 & Hwf & Hgoal & Hgs & Hcomp).
  destruct (computeFlowField_spec f1 Hwf Hgoal)
    as (g' & Heq & Hwf' & HW & HH & HC & HT & HD & Hflow).
  rewrite Hcomp in Heq. injection Heq as ->. cbn [grid config goal isGoalSet].
  pose proof (propagated_relaxInv f1 Hwf Hgoal) as (_ & Hrange & Himp & _).
  destruct (propagated_sameFrame f1 Hwf Hgoal) as (HW1 & HH1 & _).
  destruct (fieldStart_frame f1 Hwf) as (HW2 & HH2 & _).
  assert (Hib : ∀ p, inBounds g' p → inBounds (propagated f1) p).
  { intros p. rewrite propagated_inBounds by done.
    unfold inBounds. by rewrite HW, HH. }
  assert (Hpass : ∀ p, IsPassable g' p = IsPassable (grid f1) p)
    by (intros p; by apply IsPassable_frame).
  split_and!; try done.
  - by rewrite Hpass.
  - intros p Hp. rewrite (distAt_ext _ _ _ HD). by apply Hrange, Hib.
  - intros p Hp Hi. rewrite (distAt_ext _ _ _ HD). apply Himp; [by apply Hib|].
    rewrite propagated_IsPassable by done. by rewrite <- Hpass.
  - intros p Hp. rewrite Hflow by (unfold inBounds; by rewrite <- HW, <- HH).
    rewrite Hpass.
    rewrite (bestDirection_ext (config f1) (propagated f1) g') by congruence.
    done.
Qed.

(** The same when no addition overflows. *)
Lemma recomputed_walks f' :
  recomputed f' → stepCostsOK (config f') (grid f') →
  distAt (grid f') (goal f') = 0 ∧
  (∀ p, inBounds (grid f') p → 0 <= distAt (grid f') p) ∧
  (∀ p, inBounds (grid f') p → distAt (grid f') p < MaxInt32 →
     reach (config f') (grid f') (goal f') p (distAt (grid f') p)) ∧
  (∀ p L, reach (config f') (grid f') (goal f') p L →
     distAt (grid f') p <= L).
Proof.
  intros Hrec Hok.
  destruct (recomputed_spec f' Hrec) as (f1 & Hwf & Hgoal & Hgs & Hcomp).
  destruct (computeFlowField_spec f1 Hwf Hgoal)
    as (g' & Heq & Hwf' & HW & HH & HC & HT & HD & Hflow).
  rewrite Hcomp in Heq. injection Heq as ->.
  cbn [grid config goal isGoalSet] in *.
  assert (Hok1 : stepCostsOK (config f1) (grid f1))
    by (by apply (stepCostsOK_frame _ g')).
  destruct (propagated_settled f1 Hwf Hgoal Hok1)
    as (Hinv & Hcost & Hset).
  pose proof Hcost as (_ & Hnn & Hg0). pose proof Hset as (_ & Hreach & _).
  cbn [fst snd] in *.
  assert (Hib : ∀ p, inBounds g' p → inBounds (grid f1) p).
  { intros p. unfold inBounds. by rewrite HW, HH. }
  split_and!.
  - by rewrite (distAt_ext _ _ _ HD).
  - intros p Hp. rewrite (distAt_ext _ _ _ HD). apply Hnn.
    apply propagated_inBounds; [done..|]. by apply Hib.
  - intros p Hp. rewrite (distAt_ext _ _ _ HD). intros Hlt.
    apply (reach_frame _ (grid f1)); [done..|]. apply Hreach; [|done].
    by apply Hib.
  - intros p L Hr. rewrite (distAt_ext _ _ _ HD).
    apply (settled_least (config f1) (grid f1) (goal f1)); try done.
    + by apply IsPassable_inBounds.
    + by apply (reach_frame _ g').
Qed.

(** ** Distances *)

(** X4: whatever the costs, a recomputation never records a distance
    above [MaxInt32], and every impassable cell keeps exactly
    [MaxInt32]. *)
Theorem distances_never_exceed_MaxInt32 f' :
  recomputed f' →
  ∀ p, inBounds (grid f') p →
    distAt (grid f') p <= MaxInt32 ∧
    (IsPassable (grid f') p = false → distAt (grid f') p = MaxInt32).
Proof.
  intros Hrec p Hp.
  destruct (recomputed_field f' Hrec) as (_ & _ & _ & Hrange & Himp & _).
  split; [by apply Hrange|by apply Himp].
Qed.

Lemma recomputed_navWallGoal : recomputed navWallGoal.
Proof.
  exists navWall. split; [apply wf_navWall|].
  left. exists (mkPos 0 0). vm_compute. reflexivity.
Qed.

Lemma distances_never_exceed_MaxInt32_witness :
  recomputed navWallGoal ∧
  ∀ p, inBounds (grid navWallGoal) p →
    distAt (grid navWallGoal) p <= MaxInt32 ∧
    (IsPassable (grid navWallGoal) p = false →
     distAt (grid navWallGoal) p = MaxInt32).
Proof.
  split; [exact recomputed_navWallGoal|].
  exact (distances_never_exceed_MaxInt32 navWallGoal recomputed_navWallGoal).
Defined.

(** X5: when no addition overflows, the distance recorded for a cell is
    the least cost of a walk from the goal to it, capped at [MaxInt32]:
    distances are non-negative, the goal has 0, every distance below
    [MaxInt32] is the cost of some walk, and no walk is cheaper than the
    distance recorded at its end. *)
Theorem distances_are_least_walk_costs f' :
  recomputed f' → stepCostsOK (config f') (grid f') →
  distAt (grid f') (goal f') = 0 ∧
  (∀ p, inBounds (grid f') p → 0 <= distAt (grid f') p <= MaxInt32) ∧
  (∀ p, inBounds (grid f') p → distAt (grid f') p < MaxInt32 →
     reach (config f') (grid f') (goal f') p (distAt (grid f') p)) ∧
  (∀ p L, reach (config f') (grid f') (goal f') p L →
     distAt (grid f') p <= L).
Proof.
  intros Hrec Hok.
  destruct (recomputed_walks f' Hrec Hok) as (Hg & Hnn & Hreach & Hleast).
  destruct (recomputed_field f' Hrec) as (_ & _ & _ & Hrange & _).
  split_and!; try done.
  intros p Hp. split; [by apply Hnn|by apply Hrange].
Qed.

Lemma distances_are_least_walk_costs_witness :
  recomputed navWallGoal ∧
  stepCostsOK (config navWallGoal) (grid navWallGoal) ∧
  distAt (grid navWallGoal) (goal navWallGoal) = 0 ∧
  (∀ p, inBounds (grid navWallGoal) p →
     0 <= distAt (grid navWallGoal) p <= MaxInt32) ∧
  (∀ p, inBounds (grid navWallGoal) p →
     distAt (grid navWallGoal) p < MaxInt32 →
     reach (config navWallGoal) (grid navWallGoal) (goal navWallGoal) p
           (distAt (grid navWallGoal) p)) ∧
  (∀ p L, reach (config navWallGoal) (grid navWallGoal)
                (goal navWallGoal) p L →
     distAt (grid navWallGoal) p <= L).
Proof.
  assert (Hok : stepCostsOK (config navWallGoal) (grid navWallGoal))
    by (apply stepCostsOKb_sound; vm_compute; reflexivity).
  split; [exact recomputed_navWallGoal|]. split; [exact Hok|].
  exact (distances_are_least_walk_costs navWallGoal
           recomputed_navWallGoal Hok).
Defined.

(** ** Impassable cells *)

(** X6: after a recomputation, an impassable cell of the grid has the
    direction (0,0) stored, and [GetFlowDirection] answers [ErrNoPath]
    for it. *)
Theorem impassable_cell_answers_NoPath f' p :
  recomputed f' → inBounds (grid f') p → IsPassable (grid f') p = false →
  flowAt (grid f') p = zeroDir ∧
  GetFlowDirection f' p = (zeroDir, Some ErrNoPath).
Proof.
  intros Hrec Hp Hi.
  destruct (recomputed_field f' Hrec) as (Hgs & _ & Hgoal & _ & _ & Hflow).
  assert (Hz : flowAt (grid f') p = zeroDir) by (by rewrite Hflow, Hi).
  assert (Hne : p ≠ goal f') by (intros ->; congruence).
  split; [done|].
  pose proof (GetFlowDirection_shape f' p) as (_ & _ & Hnp & Hzero & _).
  destruct (GetFlowDirection f' p) as [d e]. cbn [fst snd] in *.
  assert (He : e = Some ErrNoPath) by (by apply Hnp).
  subst e. by rewrite Hzero.
Qed.

Lemma impassable_cell_answers_NoPath_witness :
  recomputed navWallGoal ∧ inBounds (grid navWallGoal) (mkPos 1 0) ∧
  IsPassable (grid navWallGoal) (mkPos 1 0) = false ∧
  flowAt (grid navWallGoal) (mkPos 1 0) = zeroDir ∧
  GetFlowDirection navWallGoal (mkPos 1 0) = (zeroDir, Some ErrNoPath).
Proof.
  assert (Hp : inBounds (grid navWallGoal) (mkPos 1 0))
    by (vm_compute; intuition discriminate).
  assert (Hi : IsPassable (grid navWallGoal) (mkPos 1 0) = false)
    by (vm_compute; reflexivity).
  split; [exact recomputed_navWallGoal|]. split; [exact Hp|].
  split; [exact Hi|].
  exact (impassable_cell_answers_NoPath navWallGoal (mkPos 1 0)
           recomputed_navWallGoal Hp Hi).
Defined.

(** ** The stored directions descend the distances *)

(** The direction loop of phase 2 ends on the first configured direction
    whose neighbour has the least distance, provided that distance is
    below the cell's own. *)
Lemma bestDirection_first_min cfg g p :
  let d := bestDirection cfg g p in
  (d = zeroDir ∧
   ∀ dir, dir ∈ Directions cfg → inBounds g (stepPos p dir) →
          distAt g p <= distAt g (stepPos p dir)) ∨
  (∃ l1 l2, Directions cfg = l1 ++ d :: l2 ∧
     inBounds g (stepPos p d) ∧
     distAt g (stepPos p d) < distAt g p ∧
     (∀ dir, dir ∈ Directions cfg → inBounds g (stepPos p dir) →
             distAt g (stepPos p d) <= distAt g (stepPos p dir)) ∧
     (∀ dir, dir ∈ l1 → inBounds g (stepPos p dir) →
             distAt g (stepPos p d) < distAt g (stepPos p dir))).
Proof.
  cbv zeta. unfold bestDirection.
  pose (P := λ (pre : list Direction) (best : Z * Direction),
    (∀ dir, dir ∈ pre → inBounds g (stepPos p dir) →
            fst best <= distAt g (stepPos p dir)) ∧
    ((snd best = zeroDir ∧ fst best = distAt g p) ∨
     (∃ l1 l2, pre = l1 ++ snd best :: l2 ∧
        inBounds g (stepPos p (snd best)) ∧
        distAt g (stepPos p (snd best)) = fst best ∧
        fst best < distAt g p ∧
        ∀ dir, dir ∈ l1 → inBounds g (stepPos p dir) →
               fst best < distAt g (stepPos p dir)))).
  assert (HP : P (Directions cfg)
                 (fold_left (bestStep g p) (Directions cfg)
                            (distAt g p, zeroDir))).
  { apply fold_left_prefix_ind.
    - split; [|by left]. intros dir Hdir. by apply elem_of_nil in Hdir.
    - intros pre x suf best _ [Hmin Hbest]. unfold bestStep.
      destruct (IsValidPosition g (stepPos p x)) eqn:Hv.
      + apply IsValidPosition_inBounds in Hv.
        destruct (Z.ltb_spec (distAt g (stepPos p x)) (fst best)) as [Hlt|Hge].
        * split; cbn [fst snd].
          -- intros dir Hdir Hb. apply elem_of_app in Hdir as [Hdir|Hdir].
             ++ specialize (Hmin dir Hdir Hb). lia.
             ++ apply list_elem_of_singleton in Hdir as ->. lia.
          -- right. exists pre, []. split_and!; try done.
             ++ destruct Hbest as [[_ Heq]|(l1 & l2 & _ & _ & _ & Hlt' & _)];
                  lia.
             ++ intros dir Hdir Hb. specialize (Hmin dir Hdir Hb). lia.
        * split.
          -- intros dir Hdir Hb. apply elem_of_app in Hdir as [Hdir|Hdir].
             ++ by apply Hmin.
             ++ apply list_elem_of_singleton in Hdir as ->. lia.
          -- destruct Hbest as [Hz|(l1 & l2 & -> & Hrest)]; [by left|right].
             exists l1, (l2 ++ [x]). split; [|done].
             by rewrite <- app_assoc.
      + apply IsValidPosition_false in Hv. split.
        * intros dir Hdir Hb. apply elem_of_app in Hdir as [Hdir|Hdir].
          -- by apply Hmin.
          -- apply list_elem_of_singleton in Hdir as ->. done.
        * destruct Hbest as [Hz|(l1 & l2 & -> & Hrest)]; [by left|right].
          exists l1, (l2 ++ [x]). split; [|done].
          by rewrite <- app_assoc. }
  destruct HP as [Hmin [[Hz Heq]|(l1 & l2 & Hl & Hb & Hd & Hlt & Hfirst)]].
  - left. split; [done|]. intros dir Hdir Hb. rewrite <- Heq. by apply Hmin.
  - right. exists l1, l2. rewrite Hd. done.
Qed.

(** X7: after a recomputation, a stored direction other than (0,0) is a
    configured direction that leads to a passable cell of strictly
    smaller distance; no in-bounds neighbour along a configured direction
    has a smaller distance than that cell, and among the directions that
    reach this least distance the stored one comes first in the
    configured order. *)
Theorem stored_direction_is_steepest_descent f' p :
  recomputed f' → inBounds (grid f') p →
  flowAt (grid f') p ≠ zeroDir →
  let d := flowAt (grid f') p in
  let q := stepPos p d in
  IsPassable (grid f') q = true ∧
  distAt (grid f') q < distAt (grid f') p ∧
  (∀ dir, dir ∈ Directions (config f') →
     inBounds (grid f') (stepPos p dir) →
     distAt (grid f') q <= distAt (grid f') (stepPos p dir)) ∧
  ∃ l1 l2, Directions (config f') = l1 ++ d :: l2 ∧
    ∀ dir, dir ∈ l1 → inBounds (grid f') (stepPos p dir) →
      distAt (grid f') q < distAt (grid f') (stepPos p dir).
Proof.
  intros Hrec Hp Hnz. cbv zeta.
  destruct (recomputed_field f' Hrec)
    as (_ & _ & _ & Hrange & Himp & Hflow).
  rewrite (Hflow p Hp) in *.
  destruct (IsPassable (grid f') p && negb (bool_decide (p = goal f')));
    [|done].
  destruct (bestDirection_first_min (config f') (grid f') p)
    as [[Hz _]|(l1 & l2 & Hl & Hb & Hlt & Hmin & Hfirst)]; [done|].
  split_and!; [|done|done|by exists l1, l2].
  destruct (IsPassable (grid f') _) eqn:Hq; [done|].
  rewrite (Himp _ Hb Hq) in Hlt. specialize (Hrange p Hp). lia.
Qed.

Lemma stored_direction_is_steepest_descent_witness :
  recomputed nav2Set ∧ inBounds (grid nav2Set) (mkPos 1 0) ∧
  flowAt (grid nav2Set) (mkPos 1 0) ≠ zeroDir ∧
  let d := flowAt (grid nav2Set) (mkPos 1 0) in
  let q := stepPos (mkPos 1 0) d in
  IsPassable (grid nav2Set) q = true ∧
  distAt (grid nav2Set) q < distAt (grid nav2Set) (mkPos 1 0) ∧
  (∀ dir, dir ∈ Directions (config nav2Set) →
     inBounds (grid nav2Set) (stepPos (mkPos 1 0) dir) →
     distAt (grid nav2Set) q
       <= distAt (grid nav2Set) (stepPos (mkPos 1 0) dir)) ∧
  ∃ l1 l2, Directions (config nav2Set) = l1 ++ d :: l2 ∧
    ∀ dir, dir ∈ l1 → inBounds (grid nav2Set) (stepPos (mkPos 1 0) dir) →
      distAt (grid nav2Set) q
        < distAt (grid nav2Set) (stepPos (mkPos 1 0) dir).
Proof.
  assert (Hp : inBounds (grid nav2Set) (mkPos 1 0))
    by (vm_compute; intuition discriminate).
  assert (Hnz : flowAt (grid nav2Set) (mkPos 1 0) ≠ zeroDir)
    by (vm_compute; discriminate).
  split; [exact recomputed_nav2Set|]. split; [exact Hp|].
  split; [exact Hnz|].
  exact (stored_direction_is_steepest_descent nav2Set (mkPos 1 0)
           recomputed_nav2Set Hp Hnz).
Defined.

(** ** Following the stored directions *)

Lemma wrap64_add_l a b : wrap64 (wrap64 a + b) = wrap64 (a + b).
Proof.
  unfold wrap64. f_equal.
  replace ((a + 2 ^ 63) mod 2 ^ 64 - 2 ^ 63 + b + 2 ^ 63)
    with ((a + 2 ^ 63) mod 2 ^ 64 + b) by ring.
  rewrite Zplus_mod_idemp_l. f_equal. ring.
Qed.

Lemma inBounds_int g p :
  intDims g → inBounds g p → in_int64 (PosX p) ∧ in_int64 (PosY p).
Proof.
  unfold intDims, inBounds, in_int64, min_int64, max_int64.
  intros [HW HH] [Hx Hy]. lia.
Qed.

Lemma stepPos_opposite u dir :
  in_int64 (PosX u) → in_int64 (PosY u) →
  stepPos (stepPos u dir) (oppositeDir dir) = u.
Proof.
  intros Hx Hy. unfold stepPos, oppositeDir, add64. cbn [PosX PosY DirX DirY].
  rewrite !wrap64_add_l.
  replace (PosX u + DirX dir + - DirX dir) with (PosX u) by ring.
  replace (PosY u + DirY dir + - DirY dir) with (PosY u) by ring.
  rewrite !wrap64_id by done. by destruct u.
Qed.

Lemma stepPos_zeroDir p :
  in_int64 (PosX p) → in_int64 (PosY p) → stepPos p zeroDir = p.
Proof.
  intros Hx Hy. unfold stepPos, zeroDir, add64. cbn [DirX DirY].
  rewrite !Z.add_0_r, !wrap64_id by done. by destruct p.
Qed.

Lemma stepCostsPositive_OK cfg g : stepCostsPositive cfg g → stepCostsOK cfg g.
Proof. intros H dir pos Hdir Hp. specialize (H dir pos Hdir Hp). lia. Qed.

Lemma stepCostsPositiveb_sound cfg g :
  stepCostsPositiveb cfg g = true → stepCostsPositive cfg g.
Proof.
  unfold stepCostsPositiveb. rewrite forallb_forall.
  intros H dir pos Hdir Hp. pose proof (IsPassable_inBounds _ _ Hp) as Hb.
  specialize (H pos). rewrite Hp in H. cbn [negb orb] in H.
  assert (Hin : In pos (allPositions (Width g) (Height g))).
  { apply list_elem_of_In. by apply inBounds_allPositions. }
  specialize (H Hin). rewrite forallb_forall in H.
  specialize (H dir (proj1 (list_elem_of_In _ _) Hdir)). cbv zeta in H.
  apply andb_true_iff in H as [H1 H2]. lia.
Qed.

(** Away from the goal, a stored direction other than (0,0) is what
    [GetFlowDirection] answers. *)
Lemma GetFlowDirection_stored f p :
  isGoalSet f = true → inBounds (grid f) p → p ≠ goal f →
  flowAt (grid f) p ≠ zeroDir →
  GetFlowDirection f p = (flowAt (grid f) p, None).
Proof.
  intros Hgs Hp Hne Hnz.
  pose proof (GetFlowDirection_shape f p)
    as (Hig & Hip & Hnp & _ & _ & Hstored).
  cbv zeta in *.
  assert (He : snd (GetFlowDirection f p) = None).
  { unfold GetFlowDirection. rewrite Hgs. cbn [negb].
    rewrite (proj2 (IsValidPosition_inBounds _ _) Hp). cbn [negb].
    rewrite goal_test, bool_decide_false by done.
    destruct (_ && _ && _) eqn:Ht; [|done]. exfalso.
    apply andb_true_iff in Ht as [Ht _].
    apply andb_true_iff in Ht as [Hx Hy].
    apply Z.eqb_eq in Hx, Hy. apply Hnz.
    unfold zeroDir. destruct (flowAt (grid f) p); simpl in *. by subst. }
  specialize (Hstored He Hne).
  destruct (GetFlowDirection f p) as [d e]. cbn [fst snd] in *. by subst.
Qed.

Lemma reach_inv cfg g goalPos p L :
  reach cfg g goalPos p L →
  (p = goalPos ∧ L = 0) ∨
  ∃ u L' dir, reach cfg g goalPos u L' ∧ dir ∈ Directions cfg ∧
    IsPassable g (stepPos u dir) = true ∧ p = stepPos u dir ∧
    L = L' + moveCost cfg dir (costAt g (stepPos u dir)).
Proof.
  destruct 1 as [|u L' dir Hr Hdir Hp]; [by left|right].
  by exists u, L', dir.
Qed.

(** A reached cell other than the goal has a neighbour of smaller
    distance along a configured direction. *)
Lemma reached_cell_has_descent f' p :
  recomputed f' → stepCostsPositive (config f') (grid f') →
  symmetricDirections (config f') → intDims (grid f') →
  inBounds (grid f') p → p ≠ goal f' → distAt (grid f') p < MaxInt32 →
  ∃ dir, dir ∈ Directions (config f') ∧ inBounds (grid f') (stepPos p dir) ∧
         distAt (grid f') (stepPos p dir) < distAt (grid f') p.
Proof.
  intros Hrec Hpos Hsym Hint Hp Hne Hlt.
  destruct (recomputed_walks f' Hrec (stepCostsPositive_OK _ _ Hpos))
    as (Hg0 & Hnn & Hreach & Hleast).
  destruct (recomputed_field f' Hrec) as (_ & _ & Hgoal & _).
  specialize (Hreach p Hp Hlt).
  apply reach_inv in Hreach
    as [[Hpg _]|(u & L & dir & Hr & Hdir & Hpass & Hpu & HL)]; [done|].
  assert (Hub : inBounds (grid f') u).
  { eapply reach_inBounds; [|exact Hr]. by apply IsPassable_inBounds. }
  destruct (inBounds_int _ _ Hint Hub) as [Hux Huy].
  exists (oppositeDir dir). rewrite Hpu at 1 2. rewrite stepPos_opposite by done.
  split_and!; [by apply Hsym|done|].
  specialize (Hleast u L Hr). specialize (Hpos dir _ Hdir Hpass). lia.
Qed.

(** One move from a reached cell other than the goal. *)
Lemma flowStep_descends f' p :
  recomputed f' → stepCostsPositive (config f') (grid f') →
  symmetricDirections (config f') → intDims (grid f') →
  inBounds (grid f') p → p ≠ goal f' → distAt (grid f') p < MaxInt32 →
  GetFlowDirection f' p = (flowAt (grid f') p, None) ∧
  flowAt (grid f') p ∈ Directions (config f') ∧
  inBounds (grid f') (flowStep f' p) ∧
  distAt (grid f') (flowStep f' p) < distAt (grid f') p.
Proof.
  intros Hrec Hpos Hsym Hint Hp Hne Hlt.
  destruct (reached_cell_has_descent f' p Hrec Hpos Hsym Hint Hp Hne Hlt)
    as (dir & Hdir & Hb & Hd).
  destruct (recomputed_field f' Hrec) as (Hgs & _ & _ & _ & Himp & Hflow).
  assert (Hpass : IsPassable (grid f') p = true).
  { destruct (IsPassable (grid f') p) eqn:E; [done|].
    rewrite (Himp p Hp E) in Hlt. lia. }
  assert (Hfl : flowAt (grid f') p = bestDirection (config f') (grid f') p).
  { rewrite (Hflow p Hp), Hpass, bool_decide_false by done. done. }
  destruct (bestDirection_first_min (config f') (grid f') p)
    as [[_ Hall]|(l1 & l2 & Hl & Hb' & Hlt' & _)].
  { specialize (Hall dir Hdir Hb). lia. }
  rewrite <- Hfl in *.
  assert (Hnz : flowAt (grid f') p ≠ zeroDir).
  { intros Hz. rewrite Hz in Hlt'.
    destruct (inBounds_int _ _ Hint Hp) as [Hx Hy].
    rewrite stepPos_zeroDir in Hlt' by done. lia. }
  pose proof (GetFlowDirection_stored f' p Hgs Hp Hne Hnz) as Hget.
  split; [done|]. split; [rewrite Hl; set_solver|].
  unfold flowStep. rewrite Hget. done.
Qed.

Lemma flowStep_goal f' :
  isGoalSet f' = true → inBounds (grid f') (goal f') → intDims (grid f') →
  flowStep f' (goal f') = goal f'.
Proof.
  intros Hgs Hg Hint. unfold flowStep, GetFlowDirection.
  rewrite Hgs. cbn [negb].
  rewrite (proj2 (IsValidPosition_inBounds _ _) Hg). cbn [negb].
  rewrite !Z.eqb_refl. cbn [andb].
  destruct (inBounds_int _ _ Hint Hg). by apply stepPos_zeroDir.
Qed.

Lemma followFlow_succ f n p :
  followFlow f (S n) p = followFlow f n (flowStep f p).
Proof. unfold followFlow. by rewrite Nat.iter_succ_r. Qed.

Lemma followFlow_reaches f' :
  recomputed f' → stepCostsPositive (config f') (grid f') →
  symmetricDirections (config f') → intDims (grid f') →
  ∀ n p, inBounds (grid f') p → distAt (grid f') p < MaxInt32 →
    distAt (grid f') p <= Z.of_nat n →
    followFlow f' n p = goal f'.
Proof.
  intros Hrec Hpos Hsym Hint.
  destruct (recomputed_walks f' Hrec (stepCostsPositive_OK _ _ Hpos))
    as (_ & Hnn & _).
  destruct (recomputed_field f' Hrec) as (Hgs & _ & Hgoal & _).
  pose proof (IsPassable_inBounds _ _ Hgoal) as Hgb.
  assert (Hfix : ∀ n, followFlow f' n (goal f') = goal f').
  { induction n as [|n IH]; [done|].
    by rewrite followFlow_succ, flowStep_goal. }
  induction n as [|n IH]; intros p Hp Hlt Hle.
  - destruct (decide (p = goal f')) as [->|Hne]; [done|].
    destruct (flowStep_descends f' p Hrec Hpos Hsym Hint Hp Hne Hlt)
      as (_ & _ & Hb & Hd).
    specialize (Hnn _ Hb). lia.
  - destruct (decide (p = goal f')) as [->|Hne]; [apply Hfix|].
    destruct (flowStep_descends f' p Hrec Hpos Hsym Hint Hp Hne Hlt)
      as (_ & _ & Hb & Hd).
    rewrite followFlow_succ. apply IH; [done|lia|lia].
Qed.

Lemma followFlow_stays f' :
  recomputed f' → stepCostsPositive (config f') (grid f') →
  symmetricDirections (config f') → intDims (grid f') →
  ∀ n p, inBounds (grid f') p → distAt (grid f') p < MaxInt32 →
    inBounds (grid f') (followFlow f' n p) ∧
    distAt (grid f') (followFlow f' n p) <= distAt (grid f') p.
Proof.
  intros Hrec Hpos Hsym Hint.
  destruct (recomputed_field f' Hrec) as (Hgs & _ & Hgoal & _).
  pose proof (IsPassable_inBounds _ _ Hgoal) as Hgb.
  induction n as [|n IH]; intros p Hp Hlt; [by split|].
  rewrite followFlow_succ.
  destruct (decide (p = goal f')) as [->|Hne].
  - rewrite flowStep_goal by done. by apply IH.
  - destruct (flowStep_descends f' p Hrec Hpos Hsym Hint Hp Hne Hlt)
      as (_ & _ & Hb & Hd).
    destruct (IH _ Hb ltac:(lia)) as [Hb' Hd']. split; [done|lia].
Qed.

(** X8: when every step into a passable cell costs at least 1 (and no
    addition overflows) and the configured directions come with their
    opposites, an agent that starts on a cell the propagation has
    reached and moves as [GetFlowDirection] says arrives at the goal
    after at most as many moves as the cell's recorded distance, stays
    there, and passes only through passable cells whose distance never
    exceeds that of the start. *)
Theorem following_the_flow_reaches_the_goal f' p :
  recomputed f' → stepCostsPositive (config f') (grid f') →
  symmetricDirections (config f') → intDims (grid f') →
  inBounds (grid f') p → distAt (grid f') p < MaxInt32 →
  (∀ n, (Z.to_nat (distAt (grid f') p) <= n)%nat →
        followFlow f' n p = goal f') ∧
  (∀ n, IsPassable (grid f') (followFlow f' n p) = true ∧
        distAt (grid f') (followFlow f' n p) <= distAt (grid f') p).
Proof.
  intros Hrec Hpos Hsym Hint Hp Hlt.
  destruct (recomputed_field f' Hrec) as (_ & _ & _ & _ & Himp & _).
  split.
  - intros n Hn. apply followFlow_reaches; try done. lia.
  - intros n.
    destruct (followFlow_stays f' Hrec Hpos Hsym Hint n p Hp Hlt)
      as [Hb Hd].
    split; [|done].
    destruct (IsPassable (grid f') _) eqn:E; [done|].
    rewrite (Himp _ Hb E) in Hd. lia.
Qed.

Lemma symmetric_EightWay w h : symmetricDirections (EightWayConfig w h).
Proof.
  intros dir Hdir. cbn [Directions EightWayConfig] in *.
  unfold EightWayDirections in *.
  repeat (apply elem_of_cons in Hdir as [->|Hdir];
          [vm_compute; set_solver|]).
  by apply elem_of_nil in Hdir.
Qed.

Lemma following_the_flow_reaches_the_goal_witness :
  recomputed nav2Set ∧
  stepCostsPositive (config nav2Set) (grid nav2Set) ∧
  symmetricDirections (config nav2Set) ∧ intDims (grid nav2Set) ∧
  inBounds (grid nav2Set) (mkPos 1 0) ∧
  distAt (grid nav2Set) (mkPos 1 0) < MaxInt32 ∧
  (∀ n, (Z.to_nat (distAt (grid nav2Set) (mkPos 1 0)) <= n)%nat →
        followFlow nav2Set n (mkPos 1 0) = goal nav2Set) ∧
  (∀ n, IsPassable (grid nav2Set) (followFlow nav2Set n (mkPos 1 0)) = true ∧
        distAt (grid nav2Set) (followFlow nav2Set n (mkPos 1 0))
          <= distAt (grid nav2Set) (mkPos 1 0)).
Proof.
  assert (Hpos : stepCostsPositive (config nav2Set) (grid nav2Set))
    by (apply stepCostsPositiveb_sound; vm_compute; reflexivity).
  assert (Hsym : symmetricDirections (config nav2Set))
    by apply (symmetric_EightWay 2 1).
  assert (Hint : intDims (grid nav2Set))
    by (vm_compute; intuition discriminate).
  assert (Hp : inBounds (grid nav2Set) (mkPos 1 0))
    by (vm_compute; intuition discriminate).
  assert (Hlt : distAt (grid nav2Set) (mkPos 1 0) < MaxInt32)
    by (vm_compute; reflexivity).
  split; [exact recomputed_nav2Set|]. split; [exact Hpos|].
  split; [exact Hsym|]. split; [exact Hint|]. split; [exact Hp|].
  split; [exact Hlt|].
  exact (following_the_flow_reaches_the_goal nav2Set (mkPos 1 0)
           recomputed_nav2Set Hpos Hsym Hint Hp Hlt).
Defined.

(** ** [UpdateCosts]: its answers and what it leaves alone *)

Lemma copyRows_frame costs rows :
  ∀ g, let g' := fst (copyRows g costs rows) in
    Width g' = Width g ∧ Height g' = Height g ∧
    FlowField g' = FlowField g ∧ Distances g' = Distances g ∧
    CellTypes g' = CellTypes g.
Proof.
  induction rows as [|y rows IH]; intros g; cbn [copyRows]; [done|].
  cbv zeta. destruct (negb _); [done|].
  destruct (IH (withCosts g
                  (<[Z.to_nat y := copy (default [] (Costs g !! Z.to_nat y))
                                        (default [] (costs !! Z.to_nat y))]>
                     (Costs g)))) as (HW & HH & HF & HD & HT).
  by rewrite HW, HH, HF, HD, HT.
Qed.

Lemma dimsMatch_dec g costs :
  Z.of_nat (length costs) = Height g →
  dimsMatch g costs ∨
  ¬ Forall (λ row, Z.of_nat (length row) = Width g) costs.
Proof.
  intros Hl.
  destruct (decide (Forall (λ row, Z.of_nat (length row) = Width g) costs))
    as [Hall|Hn]; [left; by split|by right].
Qed.

Lemma copyRows_None_widths costs rows :
  ∀ g, snd (copyRows g costs rows) = None →
    ∀ y, y ∈ rows →
      Z.of_nat (length (default [] (costs !! Z.to_nat y))) = Width g.
Proof.
  induction rows as [|y rows IH]; intros g Hn y' Hy'.
  { by apply elem_of_nil in Hy'. }
  cbn [copyRows] in Hn. cbv zeta in Hn.
  destruct (Z.eqb_spec (Z.of_nat (length (default [] (costs !! Z.to_nat y))))
              (Width g)) as [Hw|Hw]; cbn [negb] in Hn; [|done].
  apply elem_of_cons in Hy' as [->|Hy']; [done|].
  by apply (IH _ Hn).
Qed.

Lemma copyRows_None g costs :
  wf_grid g → Z.of_nat (length costs) = Height g →
  snd (copyRows g costs (seqZ 0 (Height g))) = None ↔ dimsMatch g costs.
Proof.
  intros Hwf Hl. split.
  - intros Hn. split; [done|]. apply Forall_lookup. intros i row Hrow.
    pose proof (copyRows_None_widths costs _ g Hn (Z.of_nat i)) as Hw.
    rewrite Nat2Z.id, Hrow in Hw. apply Hw.
    apply elem_of_seqZ. apply lookup_lt_Some in Hrow. lia.
  - intros Hdm. by rewrite (copyRows_dimsMatch g costs Hwf Hdm).
Qed.

(** The navigator [UpdateCosts] works on once the rows are copied. *)
Lemma UpdateCosts_cases f costs :
  wf_grid (grid f) →
  (Z.of_nat (length costs) ≠ Height (grid f) ∧
   UpdateCosts f costs
     = (f, Some (ErrNew "cost grid height doesn't match navigator grid"))) ∨
  (Z.of_nat (length costs) = Height (grid f) ∧
   ¬ Forall (λ row, Z.of_nat (length row) = Width (grid f)) costs ∧
   UpdateCosts f costs
     = (withGrid f (fst (copyRows (grid f) costs (seqZ 0 (Height (grid f))))),
        Some (ErrNew "cost grid width doesn't match navigator grid"))) ∨
  (dimsMatch (grid f) costs ∧
   UpdateCosts f costs =
     let f1 := withGrid f (withCosts (grid f) costs) in
     if isGoalSet f1 then
       if negb (IsPassable (grid f1) (goal f1))
       then (mkNav (config f1) (grid f1) (goal f1) false, Some ErrInvalidGoal)
       else computeFlowField f1
     else (f1, None)).
Proof.
  intros Hwf.
  destruct (decide (Z.of_nat (length costs) = Height (grid f))) as [Hl|Hl].
  2:{ left. split; [done|]. by apply UpdateCosts_height_mismatch. }
  right. destruct (dimsMatch_dec (grid f) costs Hl) as [Hdm|Hn].
  { right. split; [done|]. by apply UpdateCosts_dimsMatch. }
  left. split; [done|]. split; [done|].
  unfold UpdateCosts. rewrite (proj2 (Z.eqb_eq _ _) Hl). cbn [negb].
  destruct (copyRows (grid f) costs (seqZ 0 (Height (grid f))))
    as [g [e|]] eqn:Hc.
  - cbn [fst]. do 2 f_equal.
    apply (copyRows_error (grid f) costs (seqZ 0 (Height (grid f)))).
    by rewrite Hc.
  - exfalso. apply Hn.
    assert (Hnone : snd (copyRows (grid f) costs (seqZ 0 (Height (grid f))))
                    = None) by (by rewrite Hc).
    by apply copyRows_None in Hnone as [_ Hall].
Qed.

(** X9: [UpdateCosts] answers the height error exactly when the matrix
    has not as many rows as the grid, the width error exactly when it has
    but some row has not the grid's width, [ErrInvalidGoal] exactly when
    the dimensions match, a goal is set and the new cost of the goal cell
    is -1, and succeeds otherwise.  Whatever the answer, the
    configuration, the goal position, the dimensions and the cell types
    stay as they were; on an error the distances and the directions stay
    too, and on the height error the whole navigator. *)
Theorem UpdateCosts_answers f costs :
  wf_grid (grid f) →
  let r := UpdateCosts f costs in
  let blocked := negb (IsPassable (withCosts (grid f) costs) (goal f)) in
  (snd r = Some (ErrNew "cost grid height doesn't match navigator grid")
     ↔ Z.of_nat (length costs) ≠ Height (grid f)) ∧
  (snd r = Some (ErrNew "cost grid width doesn't match navigator grid")
     ↔ Z.of_nat (length costs) = Height (grid f) ∧
       ¬ Forall (λ row, Z.of_nat (length row) = Width (grid f)) costs) ∧
  (snd r = Some ErrInvalidGoal
     ↔ dimsMatch (grid f) costs ∧ isGoalSet f = true ∧ blocked = true) ∧
  (snd r = None
     ↔ dimsMatch (grid f) costs ∧ (isGoalSet f = true → blocked = false)) ∧
  (config (fst r) = config f ∧ goal (fst r) = goal f ∧
   Width (grid (fst r)) = Width (grid f) ∧
   Height (grid (fst r)) = Height (grid f) ∧
   CellTypes (grid (fst r)) = CellTypes (grid f)) ∧
  (snd r ≠ None →
     Distances (grid (fst r)) = Distances (grid f) ∧
     FlowField (grid (fst r)) = FlowField (grid f)) ∧
  (Z.of_nat (length costs) ≠ Height (grid f) → fst r = f).
Proof.
  intros Hwf. cbv zeta.
  destruct (UpdateCosts_cases f costs Hwf)
    as [[Hl ->]|[(Hl & Hn & ->)|[Hdm ->]]]; cbn [fst snd].
  - split_and!; try done; try (split; [done|]).
    + intros [? _]. done.
    + intros [[? _] _]. done.
    + intros [[? _] _]. done.
  - pose proof (copyRows_frame costs (seqZ 0 (Height (grid f))) (grid f))
      as (HW & HH & HF & HD & HT). cbv zeta in *.
    cbn [withGrid config goal grid].
    split_and!; try done; try (split; [done|]).
    + intros [[_ ?] _]. done.
    + intros [[_ ?] _]. done.
  - cbv zeta. cbn [withGrid isGoalSet grid goal config].
    assert (Hnw : ¬ (Z.of_nat (length costs) = Height (grid f) ∧
                     ¬ Forall (λ row, Z.of_nat (length row) = Width (grid f))
                         costs))
      by (intros [_ Hn]; by destruct Hdm).
    pose proof (proj1 Hdm) as Hl.
    destruct (isGoalSet f) eqn:Hgs.
    + destruct (IsPassable (withCosts (grid f) costs) (goal f)) eqn:Hp;
        cbn [negb fst snd].
      * assert (Hwf1 : wf_grid (withCosts (grid f) costs))
          by (apply wf_withCosts; [done|by apply dimsMatch_shape2]).
        destruct (computeFlowField_spec
                    (withGrid f (withCosts (grid f) costs)) Hwf1 Hp)
          as (g' & Heq & _ & HW & HH & _ & HT & _).
        rewrite Heq. cbn [fst snd config goal grid withGrid] in *.
        split_and!; try done; try (split; [done|]); try tauto.
        intros [_ [_ ?]]. done.
      * cbn [config goal grid].
        split_and!; try done; try (split; [done|]); try tauto.
        intros [_ H]. by specialize (H eq_refl).
    + cbn [fst snd config goal grid].
      split_and!; try done; try (split; [done|]); try tauto.
      intros [_ [? _]]. done.
Qed.

Lemma UpdateCosts_answers_witness :
  wf_grid (grid nav22) ∧
  let f := nav22 in
  let costs := [[5; 5]; [7]] in
  let r := UpdateCosts f costs in
  let blocked := negb (IsPassable (withCosts (grid f) costs) (goal f)) in
  (snd r = Some (ErrNew "cost grid height doesn't match navigator grid")
     ↔ Z.of_nat (length costs) ≠ Height (grid f)) ∧
  (snd r = Some (ErrNew "cost grid width doesn't match navigator grid")
     ↔ Z.of_nat (length costs) = Height (grid f) ∧
       ¬ Forall (λ row, Z.of_nat (length row) = Width (grid f)) costs) ∧
  (snd r = Some ErrInvalidGoal
     ↔ dimsMatch (grid f) costs ∧ isGoalSet f = true ∧ blocked = true) ∧
  (snd r = None
     ↔ dimsMatch (grid f) costs ∧ (isGoalSet f = true → blocked = false)) ∧
  (config (fst r) = config f ∧ goal (fst r) = goal f ∧
   Width (grid (fst r)) = Width (grid f) ∧
   Height (grid (fst r)) = Height (grid f) ∧
   CellTypes (grid (fst r)) = CellTypes (grid f)) ∧
  (snd r ≠ None →
     Distances (grid (fst r)) = Distances (grid f) ∧
     FlowField (grid (fst r)) = FlowField (grid f)) ∧
  (Z.of_nat (length costs) ≠ Height (grid f) → fst r = f).
Proof.
  assert (Hwf : wf_grid (grid nav22)) by apply wf_NewGrid.
  split; [exact Hwf|].
  exact (UpdateCosts_answers nav22 [[5; 5]; [7]] Hwf).
Defined.

(** X10: a successful [UpdateCosts] stores exactly the matrix it was
    given; with no goal set it leaves the distances and the directions
    as they were, and with a goal set the navigator it returns is a
    recomputed one. *)
Theorem UpdateCosts_installs_the_costs f costs f' :
  wf_grid (grid f) → UpdateCosts f costs = (f', None) →
  Costs (grid f') = costs ∧ wf_grid (grid f') ∧
  isGoalSet f' = isGoalSet f ∧
  (isGoalSet f = false →
     Distances (grid f') = Distances (grid f) ∧
     FlowField (grid f') = FlowField (grid f)) ∧
  (isGoalSet f = true → recomputed f').
Proof.
  intros Hwf Hupd. pose proof Hupd as Hupd'.
  apply UpdateCosts_ok in Hupd; [|done]. cbv zeta in Hupd.
  destruct Hupd as [Hwf1 Hrest].
  destruct (isGoalSet f) eqn:Hgs.
  - destruct Hrest as [Hp Hc].
    destruct (computeFlowField_spec _ Hwf1 Hp)
      as (g' & Heq & Hwf' & _ & _ & HC & _).
    rewrite Hc in Heq. injection Heq as ->.
    cbn [grid isGoalSet withGrid] in *.
    split_and!; try done.
    intros _. exists f. split; [done|]. right. split; [done|by exists costs].
  - subst f'. cbn [grid isGoalSet withGrid withCosts Costs Distances
                   FlowField].
    split_and!; done.
Qed.

Lemma UpdateCosts_installs_the_costs_witness :
  wf_grid (grid nav2Set) ∧
  UpdateCosts nav2Set [[1; 7]]
    = (fst (UpdateCosts nav2Set [[1; 7]]), None) ∧
  let f' := fst (UpdateCosts nav2Set [[1; 7]]) in
  Costs (grid f') = [[1; 7]] ∧ wf_grid (grid f') ∧
  isGoalSet f' = isGoalSet nav2Set ∧
  (isGoalSet nav2Set = false →
     Distances (grid f') = Distances (grid nav2Set) ∧
     FlowField (grid f') = FlowField (grid nav2Set)) ∧
  (isGoalSet nav2Set = true → recomputed f').
Proof.
  assert (Hwf : wf_grid (grid nav2Set)).
  { unfold wf_grid, shape2. vm_compute.
    split_and!; try reflexivity; by repeat constructor. }
  assert (Hupd : UpdateCosts nav2Set [[1; 7]]
                 = (fst (UpdateCosts nav2Set [[1; 7]]), None))
    by (vm_compute; reflexivity).
  split; [exact Hwf|]. split; [exact Hupd|].
  exact (UpdateCosts_installs_the_costs nav2Set [[1; 7]] _ Hwf Hupd).
Defined.

(** When [UpdateCosts] makes the goal cell impassable it stores the
    new costs, answers [ErrInvalidGoal] and unsets the goal, leaving the
    old distances and directions in the grid.  From then on
    [GetFlowDirection] answers [ErrInvalidGoal] everywhere, and a later
    [UpdateCosts] stores its costs without recomputing anything, even
    one that reopens the goal cell; [GetGoal] still returns the old
    goal. *)
Lemma UpdateCosts_goal_blocked f costs :
  wf_grid (grid f) → dimsMatch (grid f) costs → isGoalSet f = true →
  IsPassable (withCosts (grid f) costs) (goal f) = false →
  let f' := fst (UpdateCosts f costs) in
  snd (UpdateCosts f costs) = Some ErrInvalidGoal ∧
  isGoalSet f' = false ∧ GetGoal f' = goal f ∧
  Costs (grid f') = costs ∧
  Distances (grid f') = Distances (grid f) ∧
  FlowField (grid f') = FlowField (grid f) ∧
  (∀ p, GetFlowDirection f' p = (zeroDir, Some ErrInvalidGoal)) ∧
  (∀ costs2, dimsMatch (grid f) costs2 →
     UpdateCosts f' costs2 = (withGrid f' (withCosts (grid f') costs2), None)).
Proof.
  intros Hwf Hdm Hgs Hp. cbv zeta.
  rewrite (UpdateCosts_dimsMatch f costs Hwf Hdm). cbv zeta.
  cbn [withGrid isGoalSet grid goal config]. rewrite Hgs, Hp.
  cbn [negb fst snd isGoalSet GetGoal goal grid withCosts Costs Distances
       FlowField].
  split_and!; try done.
  intros costs2 Hdm2.
  rewrite UpdateCosts_dimsMatch.
  - done.
  - cbn [grid]. apply wf_withCosts; [done|by apply dimsMatch_shape2].
  - done.
Qed.

(** X11: when [UpdateCosts] makes the goal cell impassable it stores the
    new costs, answers [ErrInvalidGoal] and unsets the goal, leaving the
    old distances and directions in the grid.  From then on
    [GetFlowDirection] answers [ErrInvalidGoal] everywhere, and a later
    [UpdateCosts] stores its costs without recomputing anything, even
    one that reopens the goal cell; [GetGoal] still returns the old
    goal. *)
Theorem UpdateCosts_blocking_the_goal f costs :
  wf_grid (grid f) → dimsMatch (grid f) costs → isGoalSet f = true →
  IsPassable (withCosts (grid f) costs) (goal f) = false →
  let f' := fst (UpdateCosts f costs) in
  snd (UpdateCosts f costs) = Some ErrInvalidGoal ∧
  isGoalSet f' = false ∧ GetGoal f' = goal f ∧
  Costs (grid f') = costs ∧
  Distances (grid f') = Distances (grid f) ∧
  FlowField (grid f') = FlowField (grid f) ∧
  (∀ p, GetFlowDirection f' p = (zeroDir, Some ErrInvalidGoal)) ∧
  (∀ costs2, dimsMatch (grid f) costs2 →
     UpdateCosts f' costs2 = (withGrid f' (withCosts (grid f') costs2), None)).
Proof. exact (UpdateCosts_goal_blocked f costs). Qed.

Lemma UpdateCosts_blocking_the_goal_witness :
  wf_grid (grid nav2Set) ∧ dimsMatch (grid nav2Set) [[-1; 1]] ∧
  isGoalSet nav2Set = true ∧
  IsPassable (withCosts (grid nav2Set) [[-1; 1]]) (goal nav2Set) = false ∧
  let f' := fst (UpdateCosts nav2Set [[-1; 1]]) in
  snd (UpdateCosts nav2Set [[-1; 1]]) = Some ErrInvalidGoal ∧
  isGoalSet f' = false ∧ GetGoal f' = goal nav2Set ∧
  Costs (grid f') = [[-1; 1]] ∧
  Distances (grid f') = Distances (grid nav2Set) ∧
  FlowField (grid f') = FlowField (grid nav2Set) ∧
  (∀ p, GetFlowDirection f' p = (zeroDir, Some ErrInvalidGoal)) ∧
  (∀ costs2, dimsMatch (grid nav2Set) costs2 →
     UpdateCosts f' costs2 = (withGrid f' (withCosts (grid f') costs2), None)).
Proof.
  assert (Hwf : wf_grid (grid nav2Set)).
  { unfold wf_grid, shape2. vm_compute.
    split_and!; try reflexivity; by repeat constructor. }
  assert (Hdm : dimsMatch (grid nav2Set) [[-1; 1]]).
  { split; [reflexivity|]. by repeat constructor. }
  assert (Hgs : isGoalSet nav2Set = true) by reflexivity.
  assert (Hp : IsPassable (withCosts (grid nav2Set) [[-1; 1]])
                 (goal nav2Set) = false) by (vm_compute; reflexivity).
  split; [exact Hwf|]. split; [exact Hdm|]. split; [exact Hgs|].
  split; [exact Hp|].
  exact (UpdateCosts_blocking_the_goal nav2Set [[-1; 1]] Hwf Hdm Hgs Hp).
Defined.

(** ** The setters of [Grid] *)

Lemma IsPassable_setCost_ne g pos c q :
  inBounds g pos → q ≠ pos →
  IsPassable (setCost g pos c) q = IsPassable g q.
Proof.
  intros Hpos Hne. unfold IsPassable.
  change (IsValidPosition (setCost g pos c) q) with (IsValidPosition g q).
  destruct (IsValidPosition g q) eqn:Hv; [|done]. cbn [negb].
  apply IsValidPosition_inBounds in Hv.
  by rewrite costAt_setCost_ne.
Qed.

(** X12: [SetCost] answers [ErrInvalidPosition] exactly outside the
    grid and [ErrInvalidCost] exactly for a negative cost on a cell of
    the grid; in both cases the grid is left as it was.  When it
    succeeds the cell holds the new cost and is passable, whatever it
    was before, every other cell keeps its cost, and the cell types, the
    distances and the directions are not touched. *)
Theorem SetCost_answers g pos cost :
  wf_grid g →
  let r := SetCost g pos cost in
  (snd r = Some ErrInvalidPosition ↔ ¬ inBounds g pos) ∧
  (snd r = Some ErrInvalidCost ↔ inBounds g pos ∧ cost < 0) ∧
  (snd r = None ↔ inBounds g pos ∧ 0 <= cost) ∧
  (snd r ≠ None → fst r = g) ∧
  (snd r = None →
     wf_grid (fst r) ∧ costAt (fst r) pos = cost ∧
     IsPassable (fst r) pos = true ∧
     (∀ q, inBounds g q → q ≠ pos → costAt (fst r) q = costAt g q) ∧
     CellTypes (fst r) = CellTypes g ∧ Distances (fst r) = Distances g ∧
     FlowField (fst r) = FlowField g).
Proof.
  intros Hwf. cbv zeta. unfold SetCost.
  destruct (IsValidPosition g pos) eqn:Hv; cbn [negb].
  2:{ apply IsValidPosition_false in Hv. cbn [fst snd].
      split; [done|]. split; [split; [done|tauto]|].
      split; [split; [done|tauto]|]. done. }
  apply IsValidPosition_inBounds in Hv.
  destruct (Z.ltb_spec cost 0) as [Hc|Hc]; cbn [fst snd].
  { split; [split; [done|tauto]|]. split; [done|].
    split; [split; [done|lia]|]. done. }
  split; [split; [done|tauto]|]. split; [split; [done|lia]|].
  split; [done|]. split; [done|]. intros _.
  split; [by apply wf_setCost|]. split; [by apply costAt_setCost_eq|].
  split.
  { apply IsPassable_spec. split; [done|].
    rewrite costAt_setCost_eq by done. lia. }
  split; [|done]. intros q Hq Hne. by apply costAt_setCost_ne.
Qed.

Lemma SetCost_answers_witness :
  wf_grid (NewGrid 2 1) ∧
  let g := NewGrid 2 1 in
  let pos := mkPos 1 0 in
  let cost := 5 in
  let r := SetCost g pos cost in
  (snd r = Some ErrInvalidPosition ↔ ¬ inBounds g pos) ∧
  (snd r = Some ErrInvalidCost ↔ inBounds g pos ∧ cost < 0) ∧
  (snd r = None ↔ inBounds g pos ∧ 0 <= cost) ∧
  (snd r ≠ None → fst r = g) ∧
  (snd r = None →
     wf_grid (fst r) ∧ costAt (fst r) pos = cost ∧
     IsPassable (fst r) pos = true ∧
     (∀ q, inBounds g q → q ≠ pos → costAt (fst r) q = costAt g q) ∧
     CellTypes (fst r) = CellTypes g ∧ Distances (fst r) = Distances g ∧
     FlowField (fst r) = FlowField g).
Proof.
  split; [apply wf_NewGrid|].
  exact (SetCost_answers (NewGrid 2 1) (mkPos 1 0) 5 (wf_NewGrid 2 1)).
Defined.

(** What [SetObstacle] and [SetBuilding] do, for the type [t] they
    write. *)
Lemma block_cell_spec g pos t :
  wf_grid g → inBounds g pos →
  let g' := setCellType (setCost g pos (-1)) pos t in
  wf_grid g' ∧ costAt g' pos = -1 ∧ typeAt g' pos = t ∧
  IsPassable g' pos = false ∧
  (∀ q, inBounds g q → q ≠ pos →
     costAt g' q = costAt g q ∧ typeAt g' q = typeAt g q ∧
     IsPassable g' q = IsPassable g q) ∧
  Distances g' = Distances g ∧ FlowField g' = FlowField g.
Proof.
  intros Hwf Hpos g'.
  assert (Hc : costAt g' pos = -1).
  { unfold g'. rewrite costAt_setCellType. by apply costAt_setCost_eq. }
  split_and!; try done.
  - by apply wf_setCellType, wf_setCost.
  - unfold g'. apply typeAt_setCellType_eq; [by apply wf_setCost|done].
  - destruct (IsPassable g' pos) eqn:Hp; [|done].
    apply IsPassable_spec in Hp as [_ Hne]. done.
  - intros q Hq Hne. split_and!.
    + unfold g'. rewrite costAt_setCellType. by apply costAt_setCost_ne.
    + unfold g'. rewrite typeAt_setCellType_ne by done. apply typeAt_setCost.
    + etrans; [|by apply (IsPassable_setCost_ne g pos (-1))].
      by apply IsPassable_frame.
Qed.

(** X13: [SetObstacle] and [SetBuilding] fail, with
    [ErrInvalidPosition] and the grid untouched, exactly outside the
    grid.  On a cell of the grid they set the cost to -1 and the type to
    [Obstacle], respectively [Building], which makes the cell
    impassable; every other cell keeps its cost, its type and its
    passability, and the stored distances and directions are left as
    they were. *)
Theorem SetObstacle_SetBuilding_answers g pos :
  wf_grid g →
  let blocks (r : Grid * option error) (t : CellType) :=
    (snd r = Some ErrInvalidPosition ↔ ¬ inBounds g pos) ∧
    (snd r = None ↔ inBounds g pos) ∧
    (¬ inBounds g pos → fst r = g) ∧
    (inBounds g pos →
       wf_grid (fst r) ∧ costAt (fst r) pos = -1 ∧ typeAt (fst r) pos = t ∧
       IsPassable (fst r) pos = false ∧
       (∀ q, inBounds g q → q ≠ pos →
          costAt (fst r) q = costAt g q ∧ typeAt (fst r) q = typeAt g q ∧
          IsPassable (fst r) q = IsPassable g q) ∧
       Distances (fst r) = Distances g ∧ FlowField (fst r) = FlowField g) in
  blocks (SetObstacle g pos) Obstacle ∧ blocks (SetBuilding g pos) Building.
Proof.
  intros Hwf. cbv zeta. unfold SetObstacle, SetBuilding.
  destruct (IsValidPosition g pos) eqn:Hv; cbn [negb fst snd].
  - apply IsValidPosition_inBounds in Hv.
    split; (split_and!; [split; [done|tauto]|done|tauto|]);
      intros _; by apply block_cell_spec.
  - apply IsValidPosition_false in Hv.
    split; (split_and!; [done|split; [done|tauto]|done|tauto]).
Qed.

Lemma SetObstacle_SetBuilding_answers_witness :
  wf_grid (NewGrid 2 1) ∧
  let g := NewGrid 2 1 in
  let pos := mkPos 1 0 in
  let blocks (r : Grid * option error) (t : CellType) :=
    (snd r = Some ErrInvalidPosition ↔ ¬ inBounds g pos) ∧
    (snd r = None ↔ inBounds g pos) ∧
    (¬ inBounds g pos → fst r = g) ∧
    (inBounds g pos →
       wf_grid (fst r) ∧ costAt (fst r) pos = -1 ∧ typeAt (fst r) pos = t ∧
       IsPassable (fst r) pos = false ∧
       (∀ q, inBounds g q → q ≠ pos →
          costAt (fst r) q = costAt g q ∧ typeAt (fst r) q = typeAt g q ∧
          IsPassable (fst r) q = IsPassable g q) ∧
       Distances (fst r) = Distances g ∧ FlowField (fst r) = FlowField g) in
  blocks (SetObstacle g pos) Obstacle ∧ blocks (SetBuilding g pos) Building.
Proof.
  split; [apply wf_NewGrid|].
  exact (SetObstacle_SetBuilding_answers (NewGrid 2 1) (mkPos 1 0)
           (wf_NewGrid 2 1)).
Defined.

(** ** The configuration and the constructor *)

Lemma leb_zero_positiveOrNaN x :
  Float64.leb x Float64.zero = false ↔ positiveOrNaN x.
Proof. destruct x as [[]|[]| |[] m e]; by cbv. Qed.

(** [Validate] reports, in this order, a width or height that is
    not positive, an empty list of directions, and a diagonal cost that
    is [<= 0].  It accepts every other configuration; since a NaN is not
    [<= 0], that includes a NaN diagonal cost, as well as +Inf. *)
Lemma Validate_shape c :
  (Validate c = Some (ErrNew "grid dimensions must be positive")
     ↔ GridWidth c <= 0 ∨ GridHeight c <= 0) ∧
  (Validate c = Some (ErrNew "must have at least one direction")
     ↔ 0 < GridWidth c ∧ 0 < GridHeight c ∧ Directions c = []) ∧
  (Validate c = Some (ErrNew "diagonal cost must be positive")
     ↔ 0 < GridWidth c ∧ 0 < GridHeight c ∧ Directions c ≠ [] ∧
       ¬ positiveOrNaN (DiagonalCost c)) ∧
  (Validate c = None
     ↔ 0 < GridWidth c ∧ 0 < GridHeight c ∧ Directions c ≠ [] ∧
       positiveOrNaN (DiagonalCost c)).
Proof.
  unfold Validate.
  destruct (Z.leb_spec (GridWidth c) 0) as [HW|HW]; cbn [orb].
  { split_and!; (split; [try done|]); intros; first [tauto|lia]. }
  destruct (Z.leb_spec (GridHeight c) 0) as [HH|HH].
  { split_and!; (split; [try done|]); intros; first [tauto|lia]. }
  destruct (Directions c) as [|d ds] eqn:Hd; cbn [length Nat.eqb].
  { split_and!; (split; [try done|]); intros; first [tauto|lia]. }
  pose proof (leb_zero_positiveOrNaN (DiagonalCost c)) as Hleb.
  destruct (Float64.leb (DiagonalCost c) Float64.zero).
  - assert (¬ positiveOrNaN (DiagonalCost c))
      by (intros Hp; by apply Hleb in Hp).
    split_and!; (split; [try done|]); intros;
      first [tauto|lia|intuition congruence].
  - assert (positiveOrNaN (DiagonalCost c)) by (by apply Hleb).
    split_and!; (split; [try done|]); intros;
      first [tauto|lia|intuition congruence].
Qed.

(** X14: [Validate] reports, in this order, a width or height that is
    not positive, an empty list of directions, and a diagonal cost that
    is [<= 0].  It accepts every other configuration; since a NaN is not
    [<= 0], that includes a NaN diagonal cost, as well as +Inf. *)
Theorem Validate_answers c :
  (Validate c = Some (ErrNew "grid dimensions must be positive")
     ↔ GridWidth c <= 0 ∨ GridHeight c <= 0) ∧
  (Validate c = Some (ErrNew "must have at least one direction")
     ↔ 0 < GridWidth c ∧ 0 < GridHeight c ∧ Directions c = []) ∧
  (Validate c = Some (ErrNew "diagonal cost must be positive")
     ↔ 0 < GridWidth c ∧ 0 < GridHeight c ∧ Directions c ≠ [] ∧
       ¬ positiveOrNaN (DiagonalCost c)) ∧
  (Validate c = None
     ↔ 0 < GridWidth c ∧ 0 < GridHeight c ∧ Directions c ≠ [] ∧
       positiveOrNaN (DiagonalCost c)).
Proof. exact (Validate_shape c). Qed.

Lemma NewGrid_cells w h p :
  inBounds (NewGrid w h) p →
  costAt (NewGrid w h) p = 1 ∧ typeAt (NewGrid w h) p = Passable ∧
  distAt (NewGrid w h) p = 0 ∧ flowAt (NewGrid w h) p = zeroDir ∧
  IsPassable (NewGrid w h) p = true.
Proof.
  intros Hp. pose proof Hp as [Hx Hy]. cbn [NewGrid Width Height] in Hx, Hy.
  assert (Hc : costAt (NewGrid w h) p = 1) by (by apply get2_make2).
  split_and!; try (by apply get2_make2).
  apply IsPassable_spec. split; [done|]. by rewrite Hc.
Qed.

(** X15: [NewFlowFieldNavigator] fails exactly when [Validate] does,
    and with its error.  Otherwise it returns a navigator with the
    given configuration, no goal set, and a grid of the configured,
    positive dimensions in which every cell is passable with cost 1 and
    type [Passable]; on it [GetFlowDirection] answers [ErrInvalidGoal]
    at every position. *)
Theorem NewFlowFieldNavigator_answers cfg :
  match NewFlowFieldNavigator cfg with
  | (None, e) => e ≠ None ∧ Validate cfg = e
  | (Some f, e) =>
      e = None ∧ Validate cfg = None ∧
      config f = cfg ∧ isGoalSet f = false ∧ wf_grid (grid f) ∧
      Width (grid f) = GridWidth cfg ∧ Height (grid f) = GridHeight cfg ∧
      0 < Width (grid f) ∧ 0 < Height (grid f) ∧
      (∀ p, inBounds (grid f) p →
         IsPassable (grid f) p = true ∧ costAt (grid f) p = 1 ∧
         typeAt (grid f) p = Passable) ∧
      (∀ p, GetFlowDirection f p = (zeroDir, Some ErrInvalidGoal))
  end.
Proof.
  unfold NewFlowFieldNavigator.
  pose proof (Validate_shape cfg) as (_ & _ & _ & Hnone).
  destruct (Validate cfg) as [e|]; [done|].
  destruct (proj1 Hnone eq_refl) as (HW & HH & _).
  cbn [config isGoalSet grid]. split_and!; try done.
  - apply wf_NewGrid.
  - intros p Hp.
    destruct (NewGrid_cells _ _ p Hp) as (Hc & Ht & _ & _ & Hpass). done.
Qed.

(** X16: [EightWayConfig] is a valid configuration exactly for positive
    dimensions, so [NewFlowFieldNavigator (EightWayConfig w h)] succeeds
    exactly then; its directions are the eight neighbours, each
    configured with its opposite. *)
Theorem EightWayConfig_valid w h :
  (Validate (EightWayConfig w h) = None ↔ 0 < w ∧ 0 < h) ∧
  (snd (NewFlowFieldNavigator (EightWayConfig w h)) = None ↔ 0 < w ∧ 0 < h) ∧
  symmetricDirections (EightWayConfig w h) ∧
  (∀ dx dy, mkDir dx dy ∈ Directions (EightWayConfig w h)
     ↔ -1 <= dx <= 1 ∧ -1 <= dy <= 1 ∧ (dx, dy) ≠ (0, 0)).
Proof.
  pose proof (Validate_shape (EightWayConfig w h)) as (_ & _ & _ & Hnone).
  assert (Hv : Validate (EightWayConfig w h) = None ↔ 0 < w ∧ 0 < h).
  { rewrite Hnone. cbn [EightWayConfig GridWidth GridHeight Directions
                        DiagonalCost].
    unfold EightWayDirections, lit_1_4, positiveOrNaN. intuition done. }
  split_and!; [done| |apply symmetric_EightWay|].
  - rewrite <- Hv. unfold NewFlowFieldNavigator.
    destruct (Validate (EightWayConfig w h)); cbn [snd]; done.
  - intros dx dy. cbn [EightWayConfig Directions]. unfold EightWayDirections.
    rewrite !elem_of_cons, elem_of_nil. split.
    + intros H. repeat destruct H as [H|H]; try done;
        injection H as ? ?; subst; split_and!; try lia; done.
    + intros (Hx & Hy & Hne).
      assert (Hdx : dx = -1 ∨ dx = 0 ∨ dx = 1) by lia.
      assert (Hdy : dy = -1 ∨ dy = 0 ∨ dy = 1) by lia.
      destruct Hdx as [-> | [-> | ->]], Hdy as [-> | [-> | ->]];
        try done; tauto.
Qed.

(** ** Placing buildings *)

Lemma copiedCosts_GetGrid f :
  wf_grid (grid f) → copiedCosts (GetGrid f) = Costs (grid f).
Proof.
  intros Hwf. rewrite (GetGrid_spec f Hwf). unfold copiedCosts.
  cbn [Width Height Costs]. destruct Hwf as ([Hl Hall] & _).
  apply list_eq_same_length with (n := length (Costs (grid f))); [done| |].
  { rewrite length_map, length_seqZ. lia. }
  intros i x y Hi Hx Hy.
  rewrite list_lookup_fmap in Hx.
  destruct (seqZ 0 (Height (grid f)) !! i) as [z|] eqn:Hz; [|done].
  apply lookup_seqZ in Hz as [-> _]. cbn in Hx. injection Hx as <-.
  rewrite Z.add_0_l, Nat2Z.id, Hy. cbn [default].
  apply copy_same_length. rewrite length_replicate.
  rewrite Forall_lookup in Hall. by rewrite (Hall _ _ Hy).
Qed.

Lemma get2_set2 (m : list (list Z)) rows cols y x v y' x' :
  shape2 rows cols m → 0 <= y < rows → 0 <= x < cols →
  0 <= y' → 0 <= x' →
  get2 0 (set2 m y x v) y' x'
    = if (x =? x') && (y =? y') then v else get2 0 m y' x'.
Proof.
  intros Hsh Hy Hx Hy' Hx'.
  destruct (Z.eqb_spec x x') as [->|Hnx]; cbn [andb].
  - destruct (Z.eqb_spec y y') as [->|Hny].
    + by eapply get2_set2_eq.
    + apply get2_set2_ne; try lia. congruence.
  - apply get2_set2_ne; try lia. congruence.
Qed.

Lemma markTurrets_spec W H ts :
  ∀ costs g, Width g = W → Height g = H → shape2 H W costs →
    (∀ t, t ∈ ts → 0 <= PositionX t < W ∧ 0 <= PositionY t < H) →
    ∃ costs' g', markTurrets ts (costs, g) = Some (costs', g') ∧
      shape2 H W costs' ∧
      ∀ y x, 0 <= y < H → 0 <= x < W →
        get2 0 costs' y x = if turretAt ts x y then -1 else get2 0 costs y x.
Proof.
  induction ts as [|t ts IH]; intros costs g HW HH Hsh Hts.
  { exists costs, g. done. }
  assert (Ht : 0 <= PositionX t < W ∧ 0 <= PositionY t < H)
    by (apply Hts; left).
  cbn [markTurrets markTurret]. rewrite HW, HH.
  destruct (Z.ltb_spec (PositionX t) W); [|lia].
  destruct (Z.ltb_spec (PositionY t) H); [|lia].
  destruct (Z.ltb_spec (PositionX t) 0); [lia|].
  destruct (Z.ltb_spec (PositionY t) 0); [lia|]. cbn [andb orb].
  destruct (IH (set2 costs (PositionY t) (PositionX t) (-1))
              (fst (SetBuilding g (mkPos (PositionX t) (PositionY t)))))
    as (costs' & g' & Hm & Hsh' & Hget).
  - unfold SetBuilding. by destruct (negb _).
  - unfold SetBuilding. by destruct (negb _).
  - by apply shape2_set2.
  - intros t' Ht'. apply Hts. by right.
  - exists costs', g'. split; [done|]. split; [done|].
    intros y x Hy Hx. rewrite (Hget y x Hy Hx).
    cbn [turretAt existsb]. fold (turretAt ts x y).
    destruct (turretAt ts x y); [by rewrite orb_true_r|].
    rewrite orb_false_r. eapply get2_set2; [done|lia..].
Qed.

(** What [UpdateCosts] returns for a matrix of the right dimensions,
    whether it succeeds or not. *)
Lemma UpdateCosts_dimsMatch_frame f costs :
  wf_grid (grid f) → dimsMatch (grid f) costs →
  let f' := fst (UpdateCosts f costs) in
  config f' = config f ∧ goal f' = goal f ∧ wf_grid (grid f') ∧
  Width (grid f') = Width (grid f) ∧ Height (grid f') = Height (grid f) ∧
  Costs (grid f') = costs ∧ CellTypes (grid f') = CellTypes (grid f) ∧
  isGoalSet f' = isGoalSet f && IsPassable (withCosts (grid f) costs) (goal f).
Proof.
  intros Hwf Hdm. cbv zeta.
  rewrite (UpdateCosts_dimsMatch f costs Hwf Hdm). cbv zeta.
  cbn [withGrid isGoalSet grid goal config].
  assert (Hwf1 : wf_grid (withCosts (grid f) costs))
    by (apply wf_withCosts; [done|by apply dimsMatch_shape2]).
  destruct (isGoalSet f) eqn:Hgs; cbn [andb]; [|done].
  destruct (IsPassable (withCosts (grid f) costs) (goal f)) eqn:Hp;
    cbn [negb]; [|done].
  destruct (computeFlowField_spec (withGrid f (withCosts (grid f) costs))
              Hwf1 Hp) as (g' & Heq & Hwf' & HW & HH & HC & HT & _).
  rewrite Heq. cbn [fst config goal grid isGoalSet withGrid] in *. done.
Qed.

Lemma IsPassable_GetGrid f p :
  wf_grid (grid f) →
  IsValidPosition (GetGrid f) p = IsValidPosition (grid f) p ∧
  IsPassable (GetGrid f) p = IsPassable (grid f) p.
Proof.
  intros Hwf. rewrite (GetGrid_spec f Hwf). done.
Qed.

(** A successful [PlaceBuilding]: the matrix handed to [UpdateCosts]. *)
Lemma PlaceBuilding_spec bs gridX gridY :
  wf_grid (grid (navigator bs)) → turretsOnGrid bs →
  let nav := navigator bs in
  let ts' := Turrets (turretSystem bs) ++ [mkTurret gridX gridY 3 lit_1_0] in
  IsPassable (grid nav) (mkPos gridX gridY) = true →
  turretAt (Turrets (turretSystem bs)) gridX gridY = false →
  ∃ costs', dimsMatch (grid nav) costs' ∧
    PlaceBuilding bs gridX gridY
      = Some (true, mkBuildingSystem (mkTurretSystem ts')
                      (fst (UpdateCosts nav costs'))) ∧
    (∀ t, t ∈ ts' → inBounds (grid nav) (mkPos (PositionX t) (PositionY t))) ∧
    ∀ q, inBounds (grid nav) q →
      costAt (withCosts (grid nav) costs') q =
        if turretAt ts' (PosX q) (PosY q) then -1 else costAt (grid nav) q.
Proof.
  intros Hwf Hts nav ts' Hpass Hfree.
  pose proof (IsPassable_inBounds _ _ Hpass) as Hpos.
  destruct (IsPassable_GetGrid nav (mkPos gridX gridY) Hwf) as [Hv Hp].
  unfold PlaceBuilding. fold nav.
  rewrite Hv, (proj2 (IsValidPosition_inBounds _ _) Hpos), Hp, Hpass, Hfree.
  cbn [negb]. unfold updateNavigationCosts.
  cbn [navigator turretSystem Turrets]. fold nav ts'.
  rewrite (copiedCosts_GetGrid nav Hwf).
  assert (Hts' : ∀ t, t ∈ ts' →
            inBounds (grid nav) (mkPos (PositionX t) (PositionY t))).
  { intros t Ht. apply elem_of_app in Ht as [Ht|Ht]; [by apply Hts|].
    apply list_elem_of_singleton in Ht as ->. done. }
  destruct (markTurrets_spec (Width (grid nav)) (Height (grid nav)) ts'
              (Costs (grid nav)) (GetGrid nav))
    as (costs' & g' & Hm & Hsh & Hget); try done.
  { by rewrite (GetGrid_spec nav Hwf). }
  { by rewrite (GetGrid_spec nav Hwf). }
  { by destruct Hwf. }
  rewrite Hm. exists costs'.
  destruct Hpos as [Hx Hy]. cbn [PosX PosY] in Hx, Hy.
  split_and!; try done.
  - destruct Hsh as [Hl Hall]. split; [lia|].
    eapply Forall_impl; [exact Hall|]. cbv beta. intros; lia.
  - intros q [Hqx Hqy]. unfold costAt. cbn [withCosts Costs]. by apply Hget.
Qed.

Lemma turretAt_last ts gridX gridY a s :
  turretAt (ts ++ [mkTurret gridX gridY a s]) gridX gridY = true.
Proof.
  unfold turretAt. rewrite existsb_app. cbn [existsb PositionX PositionY].
  by rewrite !Z.eqb_refl, orb_true_r.
Qed.

Lemma turretAt_other ts gridX gridY a s x y :
  mkPos gridX gridY ≠ mkPos x y →
  turretAt (ts ++ [mkTurret gridX gridY a s]) x y = turretAt ts x y.
Proof.
  intros Hne. unfold turretAt. rewrite existsb_app.
  cbn [existsb PositionX PositionY].
  assert ((gridX =? x) && (gridY =? y) = false) as ->.
  { apply andb_false_iff.
    destruct (Z.eqb_spec gridX x) as [->|]; [|by left].
    destruct (Z.eqb_spec gridY y) as [->|]; [|by right]. done. }
  by rewrite !orb_false_r.
Qed.

(** X17: [PlaceBuilding] refuses, returning false and changing
    nothing, when the position is outside the grid, when its cell is
    impassable, or when a turret already stands there.  Otherwise, when
    the turrets placed so far stand on cells of the grid, it does not
    panic and returns true: the turret is appended, the cost of every
    cell that carries a turret is -1 in the navigator's grid and the
    other costs are as before.  The navigator's cell types are not
    changed: the [Building] type is written to a copy of the grid
    only. *)
Theorem PlaceBuilding_answers bs gridX gridY :
  wf_grid (grid (navigator bs)) → turretsOnGrid bs →
  let nav := navigator bs in
  let pos := mkPos gridX gridY in
  let refused :=
    negb (IsPassable (grid nav) pos)
    || turretAt (Turrets (turretSystem bs)) gridX gridY in
  (refused = true → PlaceBuilding bs gridX gridY = Some (false, bs)) ∧
  (refused = false →
   ∃ bs', PlaceBuilding bs gridX gridY = Some (true, bs') ∧
     let nav' := navigator bs' in
     Turrets (turretSystem bs')
       = Turrets (turretSystem bs) ++ [mkTurret gridX gridY 3 lit_1_0] ∧
     turretsOnGrid bs' ∧ wf_grid (grid nav') ∧
     IsPassable (grid nav') pos = false ∧
     (∀ q, inBounds (grid nav) q →
        costAt (grid nav') q =
          if turretAt (Turrets (turretSystem bs')) (PosX q) (PosY q)
          then -1 else costAt (grid nav) q) ∧
     CellTypes (grid nav') = CellTypes (grid nav) ∧
     typeAt (grid nav') pos = typeAt (grid nav) pos).
Proof.
  intros Hwf Hts. cbv zeta. split.
  - intros Href. unfold PlaceBuilding.
    destruct (IsPassable_GetGrid (navigator bs) (mkPos gridX gridY) Hwf)
      as [-> ->].
    destruct (IsValidPosition (grid (navigator bs)) (mkPos gridX gridY))
      eqn:Hv; cbn [negb].
    2:{ assert (Hn : IsPassable (grid (navigator bs)) (mkPos gridX gridY)
                     = false).
        { destruct (IsPassable _ _) eqn:E; [|done].
          apply IsPassable_inBounds, IsValidPosition_inBounds in E.
          congruence. }
        done. }
    destruct (IsPassable (grid (navigator bs)) (mkPos gridX gridY));
      cbn [negb orb] in *; [|done].
    by rewrite Href.
  - intros Href. apply orb_false_iff in Href as [Hp Hfree].
    apply negb_false_iff in Hp.
    destruct (PlaceBuilding_spec bs gridX gridY Hwf Hts Hp Hfree)
      as (costs' & Hdm & Hpl & Hts' & Hcost). cbv zeta in *.
    destruct (UpdateCosts_dimsMatch_frame (navigator bs) costs' Hwf Hdm)
      as (Hc & Hg & Hwf' & HW & HH & HC & HT & Hgs).
    eexists. split; [exact Hpl|]. cbn [navigator turretSystem Turrets].
    pose proof (IsPassable_inBounds _ _ Hp) as Hpos.
    assert (Hcost' : ∀ q, inBounds (grid (navigator bs)) q →
      costAt (grid (fst (UpdateCosts (navigator bs) costs'))) q =
        if turretAt (Turrets (turretSystem bs)
                       ++ [mkTurret gridX gridY 3 lit_1_0]) (PosX q) (PosY q)
        then -1 else costAt (grid (navigator bs)) q).
    { intros q Hq. rewrite <- (Hcost q Hq). unfold costAt.
      by rewrite HC. }
    split_and!; try done.
    + intros t Ht. cbn [navigator turretSystem Turrets] in *.
      unfold inBounds. rewrite HW, HH. by apply Hts'.
    + destruct (IsPassable (grid (fst (UpdateCosts (navigator bs) costs')))
                  (mkPos gridX gridY)) eqn:E; [|done].
      apply IsPassable_spec in E as [_ Hne].
      rewrite (Hcost' _ Hpos) in Hne. cbn [PosX PosY] in Hne.
      by rewrite turretAt_last in Hne.
    + unfold typeAt. by rewrite HT.
Qed.

Lemma wf_nav2Set : wf_grid (grid nav2Set).
Proof.
  unfold wf_grid, shape2. vm_compute.
  split_and!; try reflexivity; by repeat constructor.
Qed.

Lemma turretsOnGrid_bsFresh : turretsOnGrid bsFresh.
Proof. intros t Ht. by apply elem_of_nil in Ht. Qed.

Lemma PlaceBuilding_answers_witness :
  wf_grid (grid (navigator bsFresh)) ∧ turretsOnGrid bsFresh ∧
  let bs := bsFresh in
  let gridX := 1 in
  let gridY := 0 in
  let nav := navigator bs in
  let pos := mkPos gridX gridY in
  let refused :=
    negb (IsPassable (grid nav) pos)
    || turretAt (Turrets (turretSystem bs)) gridX gridY in
  (refused = true → PlaceBuilding bs gridX gridY = Some (false, bs)) ∧
  (refused = false →
   ∃ bs', PlaceBuilding bs gridX gridY = Some (true, bs') ∧
     let nav' := navigator bs' in
     Turrets (turretSystem bs')
       = Turrets (turretSystem bs) ++ [mkTurret gridX gridY 3 lit_1_0] ∧
     turretsOnGrid bs' ∧ wf_grid (grid nav') ∧
     IsPassable (grid nav') pos = false ∧
     (∀ q, inBounds (grid nav) q →
        costAt (grid nav') q =
          if turretAt (Turrets (turretSystem bs')) (PosX q) (PosY q)
          then -1 else costAt (grid nav) q) ∧
     CellTypes (grid nav') = CellTypes (grid nav) ∧
     typeAt (grid nav') pos = typeAt (grid nav) pos).
Proof.
  split; [exact wf_nav2Set|]. split; [exact turretsOnGrid_bsFresh|].
  exact (PlaceBuilding_answers bsFresh 1 0 wf_nav2Set turretsOnGrid_bsFresh).
Defined.

(** X18: a building placed on the goal cell is accepted like any other:
    [PlaceBuilding] returns true, but the navigator it leaves has no
    goal any more, so that [GetFlowDirection] answers [ErrInvalidGoal]
    at every position, and the distances and directions stored are
    those from before the building.  Placed elsewhere while the goal is
    set and no turret stands on it, the building makes the navigator
    recompute its field. *)
Theorem PlaceBuilding_on_the_goal bs gridX gridY :
  wf_grid (grid (navigator bs)) → turretsOnGrid bs →
  let nav := navigator bs in
  let pos := mkPos gridX gridY in
  isGoalSet nav = true → IsPassable (grid nav) (goal nav) = true →
  IsPassable (grid nav) pos = true →
  turretAt (Turrets (turretSystem bs)) gridX gridY = false →
  ∃ bs', PlaceBuilding bs gridX gridY = Some (true, bs') ∧
    let nav' := navigator bs' in
    (pos = goal nav →
       isGoalSet nav' = false ∧ GetGoal nav' = goal nav ∧
       Distances (grid nav') = Distances (grid nav) ∧
       FlowField (grid nav') = FlowField (grid nav) ∧
       ∀ p, GetFlowDirection nav' p = (zeroDir, Some ErrInvalidGoal)) ∧
    (pos ≠ goal nav →
       turretAt (Turrets (turretSystem bs)) (PosX (goal nav)) (PosY (goal nav))
         = false →
       recomputed nav' ∧ GetGoal nav' = goal nav).
Proof.
  intros Hwf Hts nav pos Hgs Hgoal Hpass Hfree.
  destruct (PlaceBuilding_spec bs gridX gridY Hwf Hts Hpass Hfree)
    as (costs' & Hdm & Hpl & Hts' & Hcost).
  cbv zeta in Hdm, Hpl, Hts', Hcost. fold nav in Hdm, Hpl, Hts', Hcost.
  eexists. split; [exact Hpl|]. cbn [navigator].
  pose proof (IsPassable_inBounds _ _ Hgoal) as Hgb.
  split.
  - intros Hpg.
    assert (Hblocked : IsPassable (withCosts (grid nav) costs') (goal nav)
                       = false).
    { destruct (IsPassable (withCosts (grid nav) costs') (goal nav)) eqn:E;
        [|done].
      apply IsPassable_spec in E as [_ Hne].
      rewrite (Hcost _ Hgb), <- Hpg in Hne. cbn [pos PosX PosY] in Hne.
      by rewrite turretAt_last in Hne. }
    destruct (UpdateCosts_goal_blocked nav costs' Hwf Hdm Hgs Hblocked)
      as (_ & Hunset & Hgg & _ & HD & HF & Hget & _).
    done.
  - intros Hne Hnot.
    assert (Hopen : IsPassable (withCosts (grid nav) costs') (goal nav) = true).
    { apply IsPassable_spec. split; [done|].
      rewrite (Hcost _ Hgb), turretAt_other, Hnot.
      - by apply IsPassable_spec in Hgoal as [_ ?].
      - intros Heq. apply Hne. unfold pos. rewrite Heq. by destruct (goal nav). }
    split; [|unfold GetGoal;
             by destruct (UpdateCosts_dimsMatch_frame nav costs' Hwf Hdm)
               as (_ & ? & _)].
    exists nav. split; [done|]. right. split; [done|]. exists costs'.
    rewrite (UpdateCosts_dimsMatch nav costs' Hwf Hdm). cbv zeta.
    cbn [withGrid isGoalSet grid goal config]. rewrite Hgs, Hopen.
    cbn [negb].
    assert (Hwf1 : wf_grid (withCosts (grid nav) costs'))
      by (apply wf_withCosts; [done|by apply dimsMatch_shape2]).
    destruct (computeFlowField_spec (withGrid nav (withCosts (grid nav) costs'))
                Hwf1 Hopen) as (g' & Heq & _).
    cbn [withGrid isGoalSet grid goal config] in Heq.
    rewrite Hgs in Heq. by rewrite Heq.
Qed.

Lemma PlaceBuilding_on_the_goal_witness :
  wf_grid (grid (navigator bsFresh)) ∧ turretsOnGrid bsFresh ∧
  isGoalSet (navigator bsFresh) = true ∧
  IsPassable (grid (navigator bsFresh)) (goal (navigator bsFresh)) = true ∧
  IsPassable (grid (navigator bsFresh)) (mkPos 0 0) = true ∧
  turretAt (Turrets (turretSystem bsFresh)) 0 0 = false ∧
  let bs := bsFresh in
  let nav := navigator bs in
  let pos := mkPos 0 0 in
  ∃ bs', PlaceBuilding bs 0 0 = Some (true, bs') ∧
    let nav' := navigator bs' in
    (pos = goal nav →
       isGoalSet nav' = false ∧ GetGoal nav' = goal nav ∧
       Distances (grid nav') = Distances (grid nav) ∧
       FlowField (grid nav') = FlowField (grid nav) ∧
       ∀ p, GetFlowDirection nav' p = (zeroDir, Some ErrInvalidGoal)) ∧
    (pos ≠ goal nav →
       turretAt (Turrets (turretSystem bs)) (PosX (goal nav)) (PosY (goal nav))
         = false →
       recomputed nav' ∧ GetGoal nav' = goal nav).
Proof.
  assert (Hgs : isGoalSet (navigator bsFresh) = true) by reflexivity.
  assert (Hgoal : IsPassable (grid (navigator bsFresh))
                    (goal (navigator bsFresh)) = true)
    by (vm_compute; reflexivity).
  assert (Hp : IsPassable (grid (navigator bsFresh)) (mkPos 0 0) = true)
    by (vm_compute; reflexivity).
  assert (Hfree : turretAt (Turrets (turretSystem bsFresh)) 0 0 = false)
    by reflexivity.
  split; [exact wf_nav2Set|]. split; [exact turretsOnGrid_bsFresh|].
  split; [exact Hgs|]. split; [exact Hgoal|]. split; [exact Hp|].
  split; [exact Hfree|].
  exact (PlaceBuilding_on_the_goal bsFresh 0 0 wf_nav2Set
           turretsOnGrid_bsFresh Hgs Hgoal Hp Hfree).
Defined.

(** ** When [updateNavigationCosts] panics *)

Lemma markTurret_dims st t st' :
  markTurret st t = Some st' →
  Width (snd st') = Width (snd st) ∧ Height (snd st') = Height (snd st).
Proof.
  destruct st as [costs g]. unfold markTurret.
  destruct (_ && _); [|by intros [= <-]].
  destruct (_ || _); [done|]. intros [= <-]. cbn [snd].
  unfold SetBuilding. by destruct (negb _).
Qed.

Lemma markTurrets_None ts :
  ∀ st, markTurrets ts st = None ↔
    ∃ t, t ∈ ts ∧
      PositionX t < Width (snd st) ∧ PositionY t < Height (snd st) ∧
      (PositionX t < 0 ∨ PositionY t < 0).
Proof.
  induction ts as [|t ts IH]; intros st; cbn [markTurrets].
  { split; [done|]. intros (t & Ht & _). by apply elem_of_nil in Ht. }
  destruct (markTurret st t) as [st'|] eqn:Hm.
  - destruct (markTurret_dims _ _ _ Hm) as [HW HH].
    rewrite IH, HW, HH. split.
    + intros (t' & Ht' & H). exists t'. split; [by right|done].
    + intros (t' & Ht' & HX & HY & Hneg).
      apply elem_of_cons in Ht' as [->|Ht']; [|by exists t'].
      exfalso. destruct st as [costs g]. unfold markTurret in Hm.
      cbn [snd] in *.
      destruct (Z.ltb_spec (PositionX t) (Width g)); [|lia].
      destruct (Z.ltb_spec (PositionY t) (Height g)); [|lia].
      cbn [andb] in Hm.
      destruct (Z.ltb_spec (PositionX t) 0); [done|].
      destruct (Z.ltb_spec (PositionY t) 0); [done|]. lia.
  - split; [intros _|done]. exists t. split; [left|].
    destruct st as [costs g]. unfold markTurret in Hm. cbn [snd].
    destruct (Z.ltb_spec (PositionX t) (Width g)); [|done].
    destruct (Z.ltb_spec (PositionY t) (Height g)); [|done].
    cbn [andb] in Hm.
    destruct (Z.ltb_spec (PositionX t) 0); [lia|].
    destruct (Z.ltb_spec (PositionY t) 0); [lia|]. done.
Qed.

(** X19: [updateNavigationCosts] tests a turret's coordinates against
    the width and the height only, so it panics exactly when some turret
    has a negative coordinate while its coordinates are below the width
    and the height; a turret at or beyond the width or the height is
    skipped. *)
Theorem updateNavigationCosts_panics bs :
  wf_grid (grid (navigator bs)) →
  updateNavigationCosts bs = None ↔
    ∃ t, t ∈ Turrets (turretSystem bs) ∧
      PositionX t < Width (grid (navigator bs)) ∧
      PositionY t < Height (grid (navigator bs)) ∧
      (PositionX t < 0 ∨ PositionY t < 0).
Proof.
  intros Hwf. unfold updateNavigationCosts.
  pose proof (markTurrets_None (Turrets (turretSystem bs))
                (copiedCosts (GetGrid (navigator bs)), GetGrid (navigator bs)))
    as Hn.
  cbn [snd] in Hn.
  assert (HW : Width (GetGrid (navigator bs)) = Width (grid (navigator bs)))
    by (by rewrite (GetGrid_spec _ Hwf)).
  assert (HH : Height (GetGrid (navigator bs)) = Height (grid (navigator bs)))
    by (by rewrite (GetGrid_spec _ Hwf)).
  rewrite HW, HH in Hn. rewrite <- Hn.
  destruct (markTurrets _ _) as [[costs g]|]; done.
Qed.

Lemma updateNavigationCosts_panics_witness :
  wf_grid (grid (navigator bsNegative)) ∧
  (updateNavigationCosts bsNegative = None ↔
    ∃ t, t ∈ Turrets (turretSystem bsNegative) ∧
      PositionX t < Width (grid (navigator bsNegative)) ∧
      PositionY t < Height (grid (navigator bsNegative)) ∧
      (PositionX t < 0 ∨ PositionY t < 0)).
Proof.
  split; [exact wf_nav2Set|].
  exact (updateNavigationCosts_panics bsNegative wf_nav2Set).
Defined.

(** ** The start of [main] *)

Lemma elem_of_wallCells p : p ∈ wallCells ↔ inWall p = true.
Proof.
  unfold wallCells, inWall. rewrite list_elem_of_bind.
  rewrite !andb_true_iff, !Z.leb_le. split.
  - intros (x & Hp & Hx). apply list_elem_of_bind in Hp as (y & Hp & Hy).
    apply list_elem_of_singleton in Hp as ->. cbn [PosX PosY].
    apply elem_of_seqZ in Hx, Hy. lia.
  - intros Hr. exists (PosX p). split; [|apply elem_of_seqZ; lia].
    apply list_elem_of_bind. exists (PosY p).
    split; [|apply elem_of_seqZ; lia].
    apply list_elem_of_singleton. by destruct p.
Qed.

Lemma markCells_spec W H ps :
  (∀ p, p ∈ ps → 0 <= PosX p ∧ 0 <= PosY p) →
  ∀ costs, shape2 H W costs →
    let costs' :=
      fold_left (λ costs p,
                   if (PosX p <? W) && (PosY p <? H)
                   then set2 costs (PosY p) (PosX p) (-1) else costs)
                ps costs in
    shape2 H W costs' ∧
    ∀ y x, 0 <= y < H → 0 <= x < W →
      get2 0 costs' y x
        = if bool_decide (mkPos x y ∈ ps) then -1 else get2 0 costs y x.
Proof.
  induction ps as [|p ps IH]; intros Hps costs Hsh; cbn [fold_left].
  { split; [done|]. intros y x _ _. rewrite bool_decide_false; [done|].
    apply not_elem_of_nil. }
  assert (Hp : 0 <= PosX p ∧ 0 <= PosY p) by (apply Hps; left).
  set (c1 := if (PosX p <? W) && (PosY p <? H)
             then set2 costs (PosY p) (PosX p) (-1) else costs).
  assert (Hsh1 : shape2 H W c1).
  { unfold c1. destruct (_ && _); [by apply shape2_set2|done]. }
  assert (Hget1 : ∀ y x, 0 <= y < H → 0 <= x < W →
    get2 0 c1 y x = if bool_decide (mkPos x y = p) then -1
                    else get2 0 costs y x).
  { intros y x Hy Hx. unfold c1.
    destruct (Z.ltb_spec (PosX p) W); cbn [andb].
    - destruct (Z.ltb_spec (PosY p) H).
      + rewrite (get2_set2 costs H W) by (done || lia).
        case_bool_decide as Heq.
        * subst p. cbn [PosX PosY]. by rewrite !Z.eqb_refl.
        * destruct (Z.eqb_spec (PosX p) x) as [Hx'|]; [|done].
          destruct (Z.eqb_spec (PosY p) y) as [Hy'|]; [|done].
          destruct Heq. destruct p; simpl in *. by subst.
      + rewrite bool_decide_false; [done|]. intros <-. cbn in *. lia.
    - rewrite bool_decide_false; [done|]. intros <-. cbn in *. lia. }
  destruct (IH (λ q Hq, Hps q (list_elem_of_further _ _ _ Hq)) c1 Hsh1)
    as [Hsh' Hget'].
  split; [done|]. intros y x Hy Hx. rewrite (Hget' y x Hy Hx).
  rewrite (Hget1 y x Hy Hx).
  destruct (decide (mkPos x y = p)) as [Heq|Hne].
  - rewrite (bool_decide_true (mkPos x y ∈ p :: ps)) by (rewrite Heq; left).
    rewrite (bool_decide_true (mkPos x y = p)) by done.
    by destruct (bool_decide _).
  - rewrite (bool_decide_false (mkPos x y = p)) by done.
    destruct (decide (mkPos x y ∈ ps)) as [Hin|Hnin].
    + rewrite !bool_decide_true; [done|by right|done].
    + rewrite !bool_decide_false; [done| |done].
      intros Hin. apply elem_of_cons in Hin as [?|?]; done.
Qed.

(** [setupObstacles] on a navigator whose grid has the dimensions of the
    package variables. *)
Lemma setupObstacles_spec W H nav :
  wf_grid (grid nav) → Width (grid nav) = W → Height (grid nav) = H →
  0 <= W → 0 <= H →
  ∃ costs', dimsMatch (grid nav) costs' ∧
    setupObstacles W H nav = Some (fst (UpdateCosts nav costs')) ∧
    ∀ p, inBounds (grid nav) p →
      costAt (withCosts (grid nav) costs') p
        = if inWall p then -1 else costAt (grid nav) p.
Proof.
  intros Hwf HW HH HW0 HH0. unfold setupObstacles.
  destruct (Z.ltb_spec H 0); [lia|]. destruct (Z.ltb_spec W 0); [lia|].
  rewrite andb_false_r. cbn [orb].
  pose proof (copiedCosts_GetGrid nav Hwf) as Hcopy.
  unfold copiedCosts in Hcopy.
  rewrite (GetGrid_spec nav Hwf) in Hcopy |- *. cbn [Width Height Costs] in *.
  rewrite HW, HH in Hcopy. rewrite Hcopy.
  pose proof Hwf as ([Hl Hall] & _). rewrite HW, HH in *.
  destruct (Z.ltb_spec (Z.of_nat (length (Costs (grid nav)))) H); [lia|].
  destruct (markCells_spec W H wallCells) with (costs := Costs (grid nav))
    as [Hsh Hget].
  { intros p Hp. apply elem_of_wallCells in Hp. unfold inWall in Hp.
    rewrite !andb_true_iff, !Z.leb_le in Hp. lia. }
  { done. }
  eexists. split; [|split; [reflexivity|]].
  - destruct Hsh as [Hl' Hall']. split; [lia|].
    eapply Forall_impl; [exact Hall'|]. cbv beta. intros; lia.
  - intros p [Hx Hy]. unfold costAt at 1. cbn [withCosts Costs].
    rewrite Hget by lia.
    replace (mkPos (PosX p) (PosY p)) with p by (by destruct p).
    destruct (inWall p) eqn:Hw.
    + by rewrite bool_decide_true by (by apply elem_of_wallCells).
    + rewrite bool_decide_false; [done|].
      intros Hin. apply elem_of_wallCells in Hin. congruence.
Qed.

(** X20: [setupObstacles], on a navigator whose grid has the dimensions
    of the package variables, does not panic: it sets the cost of the
    cells (4..6, 4..6) that lie in the grid to -1, leaves every other
    cost, the cell types and the configuration as they are, and, when no
    goal is set, the distances and the directions too. *)
Theorem setupObstacles_answers W H nav :
  wf_grid (grid nav) → Width (grid nav) = W → Height (grid nav) = H →
  0 <= W → 0 <= H →
  ∃ nav', setupObstacles W H nav = Some nav' ∧
    config nav' = config nav ∧ goal nav' = goal nav ∧ wf_grid (grid nav') ∧
    Width (grid nav') = W ∧ Height (grid nav') = H ∧
    CellTypes (grid nav') = CellTypes (grid nav) ∧
    (∀ p, inBounds (grid nav) p →
       costAt (grid nav') p = if inWall p then -1 else costAt (grid nav) p) ∧
    (isGoalSet nav = false →
       isGoalSet nav' = false ∧
       Distances (grid nav') = Distances (grid nav) ∧
       FlowField (grid nav') = FlowField (grid nav)).
Proof.
  intros Hwf HW HH HW0 HH0.
  destruct (setupObstacles_spec W H nav Hwf HW HH HW0 HH0)
    as (costs' & Hdm & Hset & Hcost).
  destruct (UpdateCosts_dimsMatch_frame nav costs' Hwf Hdm)
    as (Hc & Hg & Hwf' & HW' & HH' & HC & HT & Hgs).
  eexists. split; [exact Hset|]. split_and!; try done; try congruence.
  - intros p Hp. rewrite <- (Hcost p Hp). unfold costAt. by rewrite HC.
  - intros Hno. rewrite Hno in Hgs. split; [done|].
    rewrite (UpdateCosts_dimsMatch nav costs' Hwf Hdm). cbv zeta.
    cbn [withGrid isGoalSet]. by rewrite Hno.
Qed.

Lemma setupObstacles_answers_witness :
  wf_grid (grid nav5) ∧ Width (grid nav5) = 5 ∧ Height (grid nav5) = 5 ∧
  0 <= 5 ∧ 0 <= 5 ∧
  ∃ nav', setupObstacles 5 5 nav5 = Some nav' ∧
    config nav' = config nav5 ∧ goal nav' = goal nav5 ∧
    wf_grid (grid nav') ∧
    Width (grid nav') = 5 ∧ Height (grid nav') = 5 ∧
    CellTypes (grid nav') = CellTypes (grid nav5) ∧
    (∀ p, inBounds (grid nav5) p →
       costAt (grid nav') p = if inWall p then -1 else costAt (grid nav5) p) ∧
    (isGoalSet nav5 = false →
       isGoalSet nav' = false ∧
       Distances (grid nav') = Distances (grid nav5) ∧
       FlowField (grid nav') = FlowField (grid nav5)).
Proof.
  assert (Hwf : wf_grid (grid nav5)) by apply wf_NewGrid.
  assert (H5 : 0 <= 5) by lia.
  split; [exact Hwf|]. split; [reflexivity|]. split; [reflexivity|].
  split; [exact H5|]. split; [exact H5|].
  exact (setupObstacles_answers 5 5 nav5 Hwf eq_refl eq_refl H5 H5).
Defined.

Lemma moveCost_unit w h dir : moveCost (EightWayConfig w h) dir 1 = 1.
Proof. unfold moveCost. by destruct (isDiagonal dir). Qed.

(** The start of [main] never panics.  It ends in [log.Fatal]
    exactly when a package dimension is not positive (the error of
    [Validate]) or when the initial goal (7,2) is outside the grid
    ([ErrInvalidPosition]).  Otherwise the main loop starts on a
    navigator with a computed field for the goal (7,2), on a grid where
    the cells (4..6, 4..6) cost -1 and all others 1; every cell is still
    typed [Passable], the wall included, and every step into a passable
    cell costs 1. *)
Lemma startup_spec W H :
  match startup W H with
  | Fatal e =>
      (e = ErrNew "grid dimensions must be positive" ∧ (W <= 0 ∨ H <= 0)) ∨
      (e = ErrInvalidPosition ∧ 0 < W ∧ 0 < H ∧ (W <= 7 ∨ H <= 2))
  | Panicked => False
  | Running nav =>
      7 < W ∧ 2 < H ∧ recomputed nav ∧
      config nav = EightWayConfig W H ∧ GetGoal nav = mkPos 7 2 ∧
      Width (grid nav) = W ∧ Height (grid nav) = H ∧
      (∀ p, inBounds (grid nav) p →
         costAt (grid nav) p = (if inWall p then -1 else 1) ∧
         typeAt (grid nav) p = Passable) ∧
      stepCostsPositive (config nav) (grid nav)
  end.
Proof.
  unfold startup, NewFlowFieldNavigator.
  pose proof (Validate_shape (EightWayConfig W H)) as (Hdims & _ & _ & Hnone).
  cbn [EightWayConfig GridWidth GridHeight Directions DiagonalCost]
    in Hdims, Hnone.
  destruct (decide (0 < W ∧ 0 < H)) as [[HW HH]|Hneg].
  2:{ rewrite (proj2 Hdims) by lia. left. split; [done|lia]. }
  rewrite (proj2 Hnone)
    by (unfold EightWayDirections, lit_1_4, positiveOrNaN; intuition done).
  set (nav0 := {| config := EightWayConfig W H;
                  grid := NewGrid (GridWidth (EightWayConfig W H))
                                  (GridHeight (EightWayConfig W H));
                  goal := mkPos 0 0; isGoalSet := false |}).
  assert (Hwf0 : wf_grid (grid nav0)) by apply wf_NewGrid.
  destruct (setupObstacles_spec W H nav0 Hwf0 eq_refl eq_refl
              ltac:(lia) ltac:(lia)) as (costs' & Hdm & Hset & Hcost).
  rewrite Hset, (UpdateCosts_dimsMatch nav0 costs' Hwf0 Hdm). cbv zeta.
  change (isGoalSet (withGrid nav0 (withCosts (grid nav0) costs')))
    with false. cbn [fst].
  set (nav1 := withGrid nav0 (withCosts (grid nav0) costs')).
  assert (Hwf1 : wf_grid (grid nav1))
    by (apply wf_withCosts; [done|by apply dimsMatch_shape2]).
  assert (Hc1 : ∀ p, inBounds (grid nav1) p →
            costAt (grid nav1) p = if inWall p then -1 else 1).
  { intros p Hp.
    change (costAt (grid nav1) p)
      with (costAt (withCosts (grid nav0) costs') p).
    rewrite (Hcost p Hp).
    destruct (NewGrid_cells W H p Hp) as (Hc & _).
    change (costAt (grid nav0) p) with (costAt (NewGrid W H) p).
    by rewrite Hc. }
  destruct (decide (7 < W ∧ 2 < H)) as [[H7 H2]|Hout].
  - assert (Hgb : inBounds (grid nav1) (mkPos 7 2))
      by (unfold inBounds; cbn; lia).
    assert (Hp : IsPassable (grid nav1) (mkPos 7 2) = true).
    { apply IsPassable_spec. split; [done|]. by rewrite (Hc1 _ Hgb). }
    pose proof (SetGoal_passable nav1 (mkPos 7 2) Hp) as Hsg.
    destruct (computeFlowField_spec
                (mkNav (config nav1) (grid nav1) (mkPos 7 2) true) Hwf1 Hp)
      as (g' & Heq & Hwf' & HW' & HH' & HC & HT & _).
    rewrite Heq in Hsg. rewrite Hsg.
    cbn [config grid goal isGoalSet GetGoal nav1 nav0 withGrid] in *.
    assert (Hcost' : ∀ p, inBounds g' p →
              costAt g' p = if inWall p then -1 else 1).
    { intros p Hp'. unfold costAt. rewrite HC. apply Hc1.
      unfold inBounds in *. by rewrite <- HW', <- HH'. }
    split_and!; try done.
    + exists nav1. split; [done|]. left. by exists (mkPos 7 2).
    + intros p Hp'. split; [by apply Hcost'|].
      unfold typeAt. rewrite HT. cbn [withCosts CellTypes NewGrid].
      destruct Hp' as [Hx Hy]. rewrite HW' in Hx. rewrite HH' in Hy.
      by apply get2_make2.
    + intros dir pos Hdir Hpass.
      apply IsPassable_spec in Hpass as [Hb Hne].
      rewrite (Hcost' _ Hb) in *. destruct (inWall pos); [done|].
      rewrite moveCost_unit. unfold max_int64, MaxInt32. lia.
  - assert (Hv : IsValidPosition (grid nav1) (mkPos 7 2) = false).
    { apply IsValidPosition_false. unfold inBounds. cbn. lia. }
    unfold SetGoal. rewrite Hv. cbn [negb]. right.
    split_and!; try done. lia.
Qed.

(** X21: the start of [main] never panics.  It ends in [log.Fatal]
    exactly when a package dimension is not positive (the error of
    [Validate]) or when the initial goal (7,2) is outside the grid
    ([ErrInvalidPosition]).  Otherwise the main loop starts on a
    navigator with a computed field for the goal (7,2), on a grid where
    the cells (4..6, 4..6) cost -1 and all others 1; every cell is still
    typed [Passable], the wall included, and every step into a passable
    cell costs 1. *)
Theorem startup_answers W H :
  match startup W H with
  | Fatal e =>
      (e = ErrNew "grid dimensions must be positive" ∧ (W <= 0 ∨ H <= 0)) ∨
      (e = ErrInvalidPosition ∧ 0 < W ∧ 0 < H ∧ (W <= 7 ∨ H <= 2))
  | Panicked => False
  | Running nav =>
      7 < W ∧ 2 < H ∧ recomputed nav ∧
      config nav = EightWayConfig W H ∧ GetGoal nav = mkPos 7 2 ∧
      Width (grid nav) = W ∧ Height (grid nav) = H ∧
      (∀ p, inBounds (grid nav) p →
         costAt (grid nav) p = (if inWall p then -1 else 1) ∧
         typeAt (grid nav) p = Passable) ∧
      stepCostsPositive (config nav) (grid nav)
  end.
Proof. exact (startup_spec W H). Qed.

(** X22: with the package variables as the source sets them ([Width,
    Height = 10, 10]), the main loop starts on a field in which every
    cell outside the wall has a distance of at most 9, and from every
    such cell an agent that moves as [GetFlowDirection] says is on the
    goal (7,2) after 9 moves, having passed through passable cells
    only. *)
Theorem shipped_field_leads_to_the_goal :
  startup 10 10 = Running navShipped ∧
  ∀ p, inBounds (grid navShipped) p → inWall p = false →
    distAt (grid navShipped) p <= 9 ∧
    followFlow navShipped 9 p = mkPos 7 2 ∧
    ∀ n, IsPassable (grid navShipped) (followFlow navShipped n p) = true.
Proof.
  assert (Hs : startup 10 10 = Running navShipped) by (vm_compute; reflexivity).
  split; [done|]. intros p Hp Hw.
  pose proof (startup_spec 10 10) as Hspec. rewrite Hs in Hspec.
  destruct Hspec as (_ & _ & Hrec & Hcfg & Hgoal & _ & _ & _ & Hpos).
  assert (Hsym : symmetricDirections (config navShipped))
    by (rewrite Hcfg; apply symmetric_EightWay).
  assert (Hint : intDims (grid navShipped))
    by (vm_compute; intuition discriminate).
  assert (Hall : forallb (λ q, inWall q || (distAt (grid navShipped) q <=? 9))
                   (allPositions (Width (grid navShipped))
                                 (Height (grid navShipped))) = true)
    by (vm_compute; reflexivity).
  rewrite forallb_forall in Hall.
  specialize (Hall p (proj1 (list_elem_of_In _ _)
                        (proj2 (inBounds_allPositions _ _) Hp))).
  rewrite Hw in Hall. cbn [orb] in Hall. apply Z.leb_le in Hall.
  assert (Hlt : distAt (grid navShipped) p < MaxInt32)
    by (unfold MaxInt32; lia).
  split; [done|]. split.
  - rewrite (followFlow_reaches navShipped Hrec Hpos Hsym Hint 9%nat p Hp Hlt);
      [done|lia].
  - intros n.
    destruct (followFlow_stays navShipped Hrec Hpos Hsym Hint n p Hp Hlt)
      as [Hb Hd].
    destruct (recomputed_field navShipped Hrec) as (_ & _ & _ & _ & Himp & _).
    destruct (IsPassable (grid navShipped) _) eqn:E; [done|].
    rewrite (Himp _ Hb E) in Hd. unfold MaxInt32 in *. lia.
Qed.

(** ** The diagonal cost of [EightWayConfig] *)

Lemma round_aux_finite (m : positive) e :
  dle (Z.pos m) e 9007199254740992 0 →
  binary_round_aux prec emax false (Z.pos m) e loc_Exact
    ≠ S754_infinity false.
Proof.
  intros Hle Hinf. pose proof (round_aux_spec m e) as H.
  rewrite Hinf in H. destruct H as [_ Hbig].
  pose proof (magnitude_mono m e 9007199254740992 0 Hle) as Hmag.
  change (magnitude 9007199254740992 0) with 54 in Hmag.
  assert (HE : roundExp m e <= 1) by (unfold roundExp, fexp64; lia).
  assert (He : e <= 53).
  { destruct (Z_le_gt_dec e 53) as [|Hgt]; [done|exfalso].
    apply (dle_iff 0) in Hle; [|lia..].
    rewrite !Z.sub_0_r, Z.pow_0_r in Hle.
    assert (2 ^ 54 <= 2 ^ e) by (apply Z.pow_le_mono_r; lia).
    assert (2 ^ 54 = 18014398509481984) by reflexivity. nia. }
  lia.
Qed.

Lemma round_exact_int (k : positive) :
  Z.pos k < 2 ^ 53 →
  dle (Z.pos k) 0 (roundMant k 0) (roundExp k 0) ∧
  dle (roundMant k 0) (roundExp k 0) (Z.pos k) 0.
Proof.
  intros Hk. pose proof (size_bounds k) as [Hlo _].
  assert (Hsz : Z.pos (Pos.size k) <= 53).
  { destruct (Z_le_gt_dec (Z.pos (Pos.size k)) 53) as [|Hgt]; [done|exfalso].
    assert (2 ^ 53 <= 2 ^ (Z.pos (Pos.size k) - 1))
      by (apply Z.pow_le_mono_r; lia). lia. }
  assert (HE : roundExp k 0 <= 0)
    by (unfold roundExp, magnitude, fexp64; lia).
  assert (HN : roundMant k 0 = Z.pos k * 2 ^ (- roundExp k 0)).
  { unfold roundMant, rneAt. fold (roundExp k 0).
    destruct (Z.leb_spec (roundExp k 0) 0); [|lia]. by rewrite Z.sub_0_l. }
  rewrite HN.
  pose proof (dle_scaled (Z.pos k) 0 (- roundExp k 0) ltac:(lia)) as [H1 H2].
  replace (0 - - roundExp k 0) with (roundExp k 0) in H1, H2 by lia. done.
Qed.

Lemma to_int_in_range x m e :
  represents x m e → min_int64 <= dfloor m e <= max_int64 →
  Float64.to_int x = dfloor m e.
Proof.
  intros Hr Hrange.
  destruct x as [[]|[]| |[] mr er]; try done.
  - simpl in Hr. subst m. by rewrite dfloor_zero.
  - apply represents_finite in Hr as [H1 H2].
    assert (Hfl : dfloor m e = dfloor (Z.pos mr) er)
      by (apply Z.le_antisymm; by apply dfloor_mono).
    rewrite Hfl in *. unfold Float64.to_int, dfloor in *.
    destruct (Z.leb_spec 0 er).
    + rewrite Z.shiftl_mul_pow2 by done.
      destruct (Z.leb_spec min_int64 (Z.pos mr * 2 ^ er)); [|lia].
      destruct (Z.leb_spec (Z.pos mr * 2 ^ er) max_int64); [done|lia].
    + rewrite Z.shiftr_div_pow2 by lia.
      destruct (Z.leb_spec min_int64 (Z.pos mr / 2 ^ (- er))); [|lia].
      destruct (Z.leb_spec (Z.pos mr / 2 ^ (- er)) max_int64); [done|lia].
Qed.

(** [float64(c)] is [c] itself below [2 ^ 53]. *)
Lemma of_int_exact (c : positive) :
  Z.pos c < 2 ^ 53 →
  ∃ m1 e1, Float64.of_int (Z.pos c) = S754_finite false m1 e1 ∧
    dle (Z.pos m1) e1 (Z.pos c) 0 ∧ dle (Z.pos c) 0 (Z.pos m1) e1.
Proof.
  intros Hc.
  assert (Hof : ∃ mz ez,
    dle (Z.pos mz) ez (Z.pos c) 0 ∧ dle (Z.pos c) 0 (Z.pos mz) ez ∧
    Float64.of_int (Z.pos c)
      = binary_round_aux prec emax false (Z.pos mz) ez loc_Exact).
  { unfold Float64.of_int, binary_normalize, binary_round.
    pose proof (shl_align_spec c 0
      (fexp Float64.prec Float64.emax (Z.pos (digits2_pos c) + 0))) as H.
    destruct (shl_align _ _ _) as [mz ez]. destruct H as [H1 H2].
    by exists mz, ez. }
  destruct Hof as (mz & ez & Hz1 & Hz2 & Hof).
  destruct (round_exact_int c Hc) as [Hx1 Hx2].
  assert (Hc53 : dle (Z.pos c) 0 9007199254740992 0)
    by (apply dle_same_exp; change 9007199254740992 with (2 ^ 53); lia).
  destruct (round_aux_cases mz ez) as [Hinf|Hr].
  { exfalso. apply (round_aux_finite mz ez); [|done].
    eapply dle_trans; [exact Hz1|exact Hc53]. }
  rewrite <- Hof in Hr.
  pose proof (round_mono _ _ _ _ Hz1) as Hr1.
  pose proof (round_mono _ _ _ _ Hz2) as Hr2.
  destruct (Float64.of_int (Z.pos c)) as [[]|[]| |[] m1 e1] eqn:Hv; try done.
  - exfalso. simpl in Hr. rewrite Hr in Hr2.
    apply (dle_pos_zero (Z.pos c) 0 (roundExp mz ez)); [lia|].
    eapply dle_trans; [exact Hx1|exact Hr2].
  - apply represents_finite in Hr as [Hf1 Hf2].
    exists m1, e1. split; [done|]. split.
    + eapply dle_trans; [exact Hf2|].
      eapply dle_trans; [exact Hr1|exact Hx2].
    + eapply dle_trans; [|exact Hf1].
      eapply dle_trans; [exact Hx1|exact Hr2].
Qed.

Lemma scaleCost_lit_1_4_bounds c :
  0 <= c < 2 ^ 52 → c <= scaleCost lit_1_4 c <= 2 * c.
Proof.
  intros [Hc0 Hc]. destruct c as [|c|c]; [by vm_compute| |lia].
  assert (H52 : 2 ^ 52 = 4503599627370496) by reflexivity.
  assert (H53 : 2 ^ 53 = 9007199254740992) by reflexivity.
  destruct (of_int_exact c ltac:(lia)) as (m1 & e1 & Hof & Hm1 & Hm2).
  unfold scaleCost. rewrite Hof. unfold Float64.mul, SFmul, lit_1_4.
  cbn [xorb].
  set (ml := 6305039478318694%positive).
  (* the exact product lies between [c] and [2 * c] *)
  assert (Hlo : dle (Z.pos c) 0 (Z.pos (m1 * ml)) (e1 + -52)).
  { eapply dle_trans; [exact Hm2|].
    assert (Hl : dle 1 0 (Z.pos ml) (-52)) by (unfold dle; by vm_compute).
    pose proof (dle_mul _ _ _ _ (Z.pos m1) e1 ltac:(lia) Hl) as H.
    rewrite Pos2Z.inj_mul.
    replace (1 * Z.pos m1) with (Z.pos m1) in H by lia.
    replace (0 + e1) with e1 in H by lia.
    replace (Z.pos m1 * Z.pos ml) with (Z.pos ml * Z.pos m1) by lia.
    by replace (e1 + -52) with (-52 + e1) by lia. }
  assert (Hhi : dle (Z.pos (m1 * ml)) (e1 + -52) (Z.pos c~0) 0).
  { assert (Hl : dle (Z.pos ml) (-52) 2 0) by (unfold dle; by vm_compute).
    pose proof (dle_mul _ _ _ _ (Z.pos m1) e1 ltac:(lia) Hl) as H.
    pose proof (dle_mul _ _ _ _ 2 0 ltac:(lia) Hm1) as H'.
    rewrite Pos2Z.inj_mul.
    replace (Z.pos m1 * Z.pos ml) with (Z.pos ml * Z.pos m1) by lia.
    replace (e1 + -52) with (-52 + e1) by lia.
    eapply dle_trans; [exact H|].
    replace (2 * Z.pos m1) with (Z.pos m1 * 2) by lia.
    replace (0 + e1) with (e1 + 0) by lia.
    replace (Z.pos c~0) with (Z.pos c * 2) by lia. exact H'. }
  assert (Hc2 : Z.pos c~0 < 2 ^ 53) by lia.
  destruct (round_exact_int c ltac:(lia)) as [Hx1 _].
  destruct (round_exact_int (c~0) Hc2) as [_ Hy2].
  destruct (round_aux_cases (m1 * ml) (e1 + -52)) as [Hinf|Hr].
  { exfalso. apply (round_aux_finite (m1 * ml) (e1 + -52)); [|done].
    eapply dle_trans; [exact Hhi|]. apply dle_same_exp. lia. }
  change Float64.prec with prec. change Float64.emax with emax.
  set (x := binary_round_aux prec emax false (Z.pos (m1 * ml)) (e1 + -52)
              loc_Exact) in *.
  assert (Hge : dle (Z.pos c) 0 (roundMant (m1 * ml) (e1 + -52))
                    (roundExp (m1 * ml) (e1 + -52))).
  { eapply dle_trans; [exact Hx1|]. by apply round_mono. }
  assert (Hle : dle (roundMant (m1 * ml) (e1 + -52))
                    (roundExp (m1 * ml) (e1 + -52)) (Z.pos c~0) 0).
  { eapply dle_trans; [|exact Hy2]. by apply round_mono. }
  apply dfloor_mono in Hge, Hle.
  change (dfloor (Z.pos c) 0) with (Z.pos c * 1) in Hge.
  change (dfloor (Z.pos c~0) 0) with (Z.pos c~0 * 1) in Hle.
  rewrite (to_int_in_range x _ _ Hr);
    [|unfold min_int64, max_int64; lia].
  lia.
Qed.

(** X23: with the diagonal cost 1.4 of [EightWayConfig], a step into a
    cell of cost [c], for [0 <= c < 2 ^ 52], costs between [c] and
    [2 * c] along every direction.  So no addition of the propagation
    overflows on a grid whose passable cells have costs in that range,
    and every step costs at least 1 when those costs are at least 1. *)
Theorem EightWay_step_costs_are_safe w h :
  (∀ dir c, 0 <= c < 2 ^ 52 →
     c <= moveCost (EightWayConfig w h) dir c <= 2 * c) ∧
  (∀ g, (∀ p, IsPassable g p = true → 0 <= costAt g p < 2 ^ 52) →
        stepCostsOK (EightWayConfig w h) g) ∧
  (∀ g, (∀ p, IsPassable g p = true → 1 <= costAt g p < 2 ^ 52) →
        stepCostsPositive (EightWayConfig w h) g).
Proof.
  assert (Hb : ∀ dir c, 0 <= c < 2 ^ 52 →
    c <= moveCost (EightWayConfig w h) dir c <= 2 * c).
  { intros dir c Hc. unfold moveCost. destruct (isDiagonal dir); [|lia].
    by apply scaleCost_lit_1_4_bounds. }
  assert (H52 : 2 ^ 52 = 4503599627370496) by reflexivity.
  split; [done|]. split.
  - intros g Hg dir pos _ Hp. specialize (Hg pos Hp).
    specialize (Hb dir (costAt g pos) Hg).
    unfold max_int64, MaxInt32. lia.
  - intros g Hg dir pos _ Hp. specialize (Hg pos Hp).
    specialize (Hb dir (costAt g pos) ltac:(lia)).
    unfold max_int64, MaxInt32. lia.
Qed.

(** X24: the cost of a step never decreases when the cost of the cell
    entered grows, for any diagonal cost and along any direction, as
    long as the conversion [int(float64(c) * DiagonalCost)] stays
    non-negative, that is, does not leave the range of [int]. *)
Theorem step_cost_grows_with_cell_cost cfg dir c c' :
  0 <= c <= c' →
  0 <= moveCost cfg dir c → 0 <= moveCost cfg dir c' →
  moveCost cfg dir c <= moveCost cfg dir c'.
Proof. apply moveCost_mono. Qed.

Lemma step_cost_grows_with_cell_cost_witness :
  0 <= 45 <= 46 ∧
  0 <= moveCost (EightWayConfig 1 1) (mkDir 1 1) 45 ∧
  0 <= moveCost (EightWayConfig 1 1) (mkDir 1 1) 46 ∧
  moveCost (EightWayConfig 1 1) (mkDir 1 1) 45
    <= moveCost (EightWayConfig 1 1) (mkDir 1 1) 46.
Proof.
  assert (H1 : 0 <= 45 <= 46) by lia.
  assert (H2 : 0 <= moveCost (EightWayConfig 1 1) (mkDir 1 1) 45)
    by (vm_compute; discriminate).
  assert (H3 : 0 <= moveCost (EightWayConfig 1 1) (mkDir 1 1) 46)
    by (vm_compute; discriminate).
  split; [exact H1|]. split; [exact H2|]. split; [exact H3|].
  exact (step_cost_grows_with_cell_cost (EightWayConfig 1 1) (mkDir 1 1)
           45 46 H1 H2 H3).
Defined.

(** ** A recomputation starts afresh *)

Lemma computeFlowField_same_costs f1 f2 :
  wf_grid (grid f1) → wf_grid (grid f2) →
  config f1 = config f2 → goal f1 = goal f2 → isGoalSet f1 = isGoalSet f2 →
  Width (grid f1) = Width (grid f2) → Height (grid f1) = Height (grid f2) →
  Costs (grid f1) = Costs (grid f2) → CellTypes (grid f1) = CellTypes (grid f2) →
  computeFlowField f1 = computeFlowField f2.
Proof.
  intros Hwf1 Hwf2 Hc Hg Hs HW HH HC HT.
  apply computeFlowField_reset; try done.
  rewrite !resetField_spec by done. by rewrite HW, HH, HC, HT.
Qed.

(** X25: the field [SetGoal] computes depends on the configuration, the
    dimensions, the costs and the goal only: two navigators that agree
    on these (and on the cell types, which are carried along) get the
    same answer and, on success, become equal, whatever distances,
    directions or goal they held before. *)
Theorem SetGoal_forgets_the_old_field f1 f2 goalPos :
  wf_grid (grid f1) → wf_grid (grid f2) → config f1 = config f2 →
  Width (grid f1) = Width (grid f2) → Height (grid f1) = Height (grid f2) →
  Costs (grid f1) = Costs (grid f2) → CellTypes (grid f1) = CellTypes (grid f2) →
  snd (SetGoal f1 goalPos) = snd (SetGoal f2 goalPos) ∧
  (snd (SetGoal f1 goalPos) = None →
   fst (SetGoal f1 goalPos) = fst (SetGoal f2 goalPos)).
Proof.
  intros Hwf1 Hwf2 Hc HW HH HC HT.
  assert (Hv : IsValidPosition (grid f1) goalPos
               = IsValidPosition (grid f2) goalPos)
    by (unfold IsValidPosition; by rewrite HW, HH).
  assert (Hp : IsPassable (grid f1) goalPos = IsPassable (grid f2) goalPos)
    by (by apply IsPassable_frame).
  unfold SetGoal. rewrite Hv, Hp.
  destruct (IsValidPosition (grid f2) goalPos); cbn [negb]; [|done].
  destruct (IsPassable (grid f2) goalPos); cbn [negb]; [|done].
  rewrite (computeFlowField_same_costs
             (mkNav (config f1) (grid f1) goalPos true)
             (mkNav (config f2) (grid f2) goalPos true)); done.
Qed.

Lemma SetGoal_forgets_the_old_field_witness :
  wf_grid (grid nav2) ∧ wf_grid (grid nav2Set) ∧
  config nav2 = config nav2Set ∧
  Width (grid nav2) = Width (grid nav2Set) ∧
  Height (grid nav2) = Height (grid nav2Set) ∧
  Costs (grid nav2) = Costs (grid nav2Set) ∧
  CellTypes (grid nav2) = CellTypes (grid nav2Set) ∧
  snd (SetGoal nav2 (mkPos 1 0)) = snd (SetGoal nav2Set (mkPos 1 0)) ∧
  (snd (SetGoal nav2 (mkPos 1 0)) = None →
   fst (SetGoal nav2 (mkPos 1 0)) = fst (SetGoal nav2Set (mkPos 1 0))).
Proof.
  assert (Hwf : wf_grid (grid nav2)) by apply wf_NewGrid.
  assert (Hc : config nav2 = config nav2Set) by reflexivity.
  assert (HW : Width (grid nav2) = Width (grid nav2Set)) by reflexivity.
  assert (HH : Height (grid nav2) = Height (grid nav2Set)) by reflexivity.
  assert (HC : Costs (grid nav2) = Costs (grid nav2Set))
    by (vm_compute; reflexivity).
  assert (HT : CellTypes (grid nav2) = CellTypes (grid nav2Set))
    by (vm_compute; reflexivity).
  split; [exact Hwf|]. split; [exact wf_nav2Set|]. split; [exact Hc|].
  split; [exact HW|]. split; [exact HH|]. split; [exact HC|].
  split; [exact HT|].
  exact (SetGoal_forgets_the_old_field nav2 nav2Set (mkPos 1 0)
           Hwf wf_nav2Set Hc HW HH HC HT).
Defined.

(** X26: [SetGoal] is idempotent: setting again the goal just set
    succeeds and leaves the navigator exactly as it is. *)
Theorem SetGoal_twice f goalPos f' :
  wf_grid (grid f) → SetGoal f goalPos = (f', None) →
  SetGoal f' goalPos = (f', None).
Proof.
  intros Hwf Hset. pose proof Hset as Hset'.
  apply SetGoal_ok in Hset as [Hp Hf'].
  destruct (computeFlowField_spec (mkNav (config f) (grid f) goalPos true)
              Hwf Hp) as (g' & Heq & Hwf' & HW & HH & HC & HT & _).
  rewrite Heq in Hf'. cbn [fst config grid goal isGoalSet] in *. subst f'.
  assert (Hp' : IsPassable g' goalPos = true)
    by (by rewrite (IsPassable_frame (grid f) g')).
  rewrite (SetGoal_passable (mkNav (config f) g' goalPos true) goalPos Hp').
  cbn [config grid].
  rewrite (computeFlowField_same_costs
             (mkNav (config f) g' goalPos true)
             (mkNav (config f) (grid f) goalPos true)) by done.
  exact Heq.
Qed.

Lemma SetGoal_twice_witness :
  wf_grid (grid nav2) ∧ SetGoal nav2 (mkPos 0 0) = (nav2Set, None) ∧
  SetGoal nav2Set (mkPos 0 0) = (nav2Set, None).
Proof.
  assert (Hwf : wf_grid (grid nav2)) by apply wf_NewGrid.
  assert (Hset : SetGoal nav2 (mkPos 0 0) = (nav2Set, None))
    by (vm_compute; reflexivity).
  split; [exact Hwf|]. split; [exact Hset|].
  exact (SetGoal_twice nav2 (mkPos 0 0) nav2Set Hwf Hset).
Defined.

(** ** Corner cutting *)

Lemma relaxLoop_cornerCutting cfg b n :
  ∀ st,
    relaxLoop (mkConfig (GridWidth cfg) (GridHeight cfg) (Directions cfg)
                        (DiagonalCost cfg) b) n st
    = relaxLoop cfg n st.
Proof.
  induction n as [|n IH]; intros st; cbn [relaxLoop];
    destruct (queueEmpty st); try done.
  by rewrite !IH.
Qed.

Lemma computeFlowField_cornerCutting f b :
  grid (fst (computeFlowField (withCornerCutting f b)))
    = grid (fst (computeFlowField f)).
Proof.
  unfold computeFlowField, propagate.
  cbn [withCornerCutting withGrid config grid goal fst].
  by rewrite relaxLoop_cornerCutting.
Qed.

(** X27: the field [AllowCornerCutting] of the configuration is never
    read: [SetGoal] and [UpdateCosts] answer the same and compute the
    same grid whatever its value.  In particular, with corner cutting
    switched off, the field still takes the diagonal between two
    impassable cells: on the costs [[1, -1], [-1, 1]] with the goal
    (0,0), cell (1,1) gets distance 1 and the direction (-1,-1). *)
Theorem AllowCornerCutting_is_ignored f b goalPos costs :
  (snd (SetGoal (withCornerCutting f b) goalPos) = snd (SetGoal f goalPos) ∧
   grid (fst (SetGoal (withCornerCutting f b) goalPos))
     = grid (fst (SetGoal f goalPos))) ∧
  (snd (UpdateCosts (withCornerCutting f b) costs) = snd (UpdateCosts f costs) ∧
   grid (fst (UpdateCosts (withCornerCutting f b) costs))
     = grid (fst (UpdateCosts f costs))) ∧
  (AllowCornerCutting (config navCorner) = false ∧
   Costs (grid navCorner) = [[1; -1]; [-1; 1]] ∧
   let f' := fst (SetGoal navCorner (mkPos 0 0)) in
   snd (SetGoal navCorner (mkPos 0 0)) = None ∧
   distAt (grid f') (mkPos 1 1) = 1 ∧
   GetFlowDirection f' (mkPos 1 1) = (mkDir (-1) (-1), None)).
Proof.
  split; [|split].
  - unfold SetGoal. cbn [withCornerCutting grid config].
    destruct (negb (IsValidPosition (grid f) goalPos)); [split; reflexivity|].
    destruct (negb (IsPassable (grid f) goalPos)); [split; reflexivity|].
    split; [reflexivity|].
    apply (computeFlowField_cornerCutting
             (mkNav (config f) (grid f) goalPos true) b).
  - unfold UpdateCosts. cbn [withCornerCutting grid config].
    destruct (negb _); [split; reflexivity|].
    destruct (copyRows _ _ _) as [g [e|]]; [split; reflexivity|].
    cbn [withGrid withCornerCutting isGoalSet grid goal config].
    destruct (isGoalSet f); [|split; reflexivity].
    destruct (negb _); [split; reflexivity|]. split; [reflexivity|].
    apply (computeFlowField_cornerCutting
             (mkNav (config f) g (goal f) true) b).
  - cbv zeta. split_and!; vm_compute; reflexivity.
Qed.

(** ** The two queries for a direction *)

(** X28: on the copy returned by [GetGrid] of a recomputed navigator,
    the method [GetFlowDirection] of [Grid] succeeds at every cell of
    the grid and returns the direction the navigator's
    [GetFlowDirection] returns there; it does so also where the
    navigator answers [ErrNoPath].  Outside the grid it fails with
    [ErrInvalidPosition]. *)
Theorem Grid_GetFlowDirection_on_the_copy f' p :
  recomputed f' →
  (inBounds (grid f') p →
     snd (Grid_GetFlowDirection (GetGrid f') p) = None ∧
     fst (Grid_GetFlowDirection (GetGrid f') p)
       = fst (GetFlowDirection f' p)) ∧
  (¬ inBounds (grid f') p →
     Grid_GetFlowDirection (GetGrid f') p
       = (zeroDir, Some ErrInvalidPosition)).
Proof.
  intros Hrec.
  destruct (recomputed_field f' Hrec) as (Hgs & Hwf & Hgoal & _ & _ & Hflow).
  unfold Grid_GetFlowDirection.
  destruct (IsPassable_GetGrid f' p Hwf) as [-> _].
  assert (Hfl : flowAt (GetGrid f') p = flowAt (grid f') p)
    by (by rewrite (GetGrid_spec f' Hwf)).
  split.
  - intros Hp. rewrite (proj2 (IsValidPosition_inBounds _ _) Hp).
    cbn [negb fst snd]. split; [done|]. rewrite Hfl.
    destruct (decide (p = goal f')) as [->|Hne].
    + rewrite (Hflow _ Hp), bool_decide_true, andb_false_r by done.
      unfold GetFlowDirection. rewrite Hgs. cbn [negb].
      rewrite (proj2 (IsValidPosition_inBounds _ _) Hp). cbn [negb].
      by rewrite !Z.eqb_refl.
    + destruct (decide (flowAt (grid f') p = zeroDir)) as [Hz|Hnz].
      * pose proof (GetFlowDirection_shape f' p) as (_ & _ & Hnp & Hzero & _).
        cbv zeta in *. rewrite Hz. symmetry. apply Hzero.
        rewrite (proj2 Hnp); done.
      * by rewrite (GetFlowDirection_stored f' p Hgs Hp Hne Hnz).
  - intros Hp. by rewrite (proj2 (IsValidPosition_false _ _) Hp).
Qed.

Lemma Grid_GetFlowDirection_on_the_copy_witness :
  recomputed navWallGoal ∧
  (inBounds (grid navWallGoal) (mkPos 2 0) →
     snd (Grid_GetFlowDirection (GetGrid navWallGoal) (mkPos 2 0)) = None ∧
     fst (Grid_GetFlowDirection (GetGrid navWallGoal) (mkPos 2 0))
       = fst (GetFlowDirection navWallGoal (mkPos 2 0))) ∧
  (¬ inBounds (grid navWallGoal) (mkPos 2 0) →
     Grid_GetFlowDirection (GetGrid navWallGoal) (mkPos 2 0)
       = (zeroDir, Some ErrInvalidPosition)).
Proof.
  split; [exact recomputed_navWallGoal|].
  exact (Grid_GetFlowDirection_on_the_copy navWallGoal (mkPos 2 0)
           recomputed_navWallGoal).
Defined.

(** ** Cells that cost nothing to enter *)

(** X29: a step of cost 0 strands the cell it ends on.  After a
    recomputation without overflow, a passable cell other than the goal
    whose recorded distance is 0, although a walk from the goal reaches
    it, has the direction (0,0) stored, and [GetFlowDirection] answers
    [ErrNoPath] for it: the direction loop looks for a neighbour of
    strictly smaller distance. *)
Theorem zero_distance_cell_answers_NoPath f' p :
  recomputed f' → stepCostsOK (config f') (grid f') →
  IsPassable (grid f') p = true → p ≠ goal f' →
  distAt (grid f') p = 0 →
  reach (config f') (grid f') (goal f') p 0 ∧
  flowAt (grid f') p = zeroDir ∧
  GetFlowDirection f' p = (zeroDir, Some ErrNoPath).
Proof.
  intros Hrec Hok Hp Hne Hd.
  destruct (recomputed_walks f' Hrec Hok) as (_ & Hnn & Hreach & _).
  destruct (recomputed_field f' Hrec) as (Hgs & _ & _ & _ & _ & Hflow).
  pose proof (IsPassable_inBounds _ _ Hp) as Hb.
  assert (Hz : flowAt (grid f') p = zeroDir).
  { rewrite (Hflow p Hb), Hp, bool_decide_false by done. cbn [andb negb].
    apply bestDirection_none. intros dir Hdir Hn.
    rewrite Hd. by apply Hnn. }
  split_and!; [|done|].
  - rewrite <- Hd. apply Hreach; [done|]. rewrite Hd. unfold MaxInt32. lia.
  - pose proof (GetFlowDirection_shape f' p) as (_ & _ & Hnp & Hzero & _).
    cbv zeta in *.
    assert (He : snd (GetFlowDirection f' p) = Some ErrNoPath)
      by (by apply Hnp).
    destruct (GetFlowDirection f' p) as [d e]. cbn [fst snd] in *.
    subst e. by rewrite Hzero.
Qed.

Lemma recomputed_navFree : recomputed navFree.
Proof.
  exists (fst (UpdateCosts nav2 [[1; 0]])). split.
  - unfold wf_grid, shape2. vm_compute.
    split_and!; try reflexivity; by repeat constructor.
  - left. exists (mkPos 0 0). vm_compute. reflexivity.
Qed.

Lemma zero_distance_cell_answers_NoPath_witness :
  recomputed navFree ∧ stepCostsOK (config navFree) (grid navFree) ∧
  IsPassable (grid navFree) (mkPos 1 0) = true ∧
  mkPos 1 0 ≠ goal navFree ∧
  distAt (grid navFree) (mkPos 1 0) = 0 ∧
  reach (config navFree) (grid navFree) (goal navFree) (mkPos 1 0) 0 ∧
  flowAt (grid navFree) (mkPos 1 0) = zeroDir ∧
  GetFlowDirection navFree (mkPos 1 0) = (zeroDir, Some ErrNoPath).
Proof.
  assert (Hok : stepCostsOK (config navFree) (grid navFree))
    by (apply stepCostsOKb_sound; vm_compute; reflexivity).
  assert (Hp : IsPassable (grid navFree) (mkPos 1 0) = true)
    by (vm_compute; reflexivity).
  assert (Hne : mkPos 1 0 ≠ goal navFree) by (vm_compute; discriminate).
  assert (Hd : distAt (grid navFree) (mkPos 1 0) = 0)
    by (vm_compute; reflexivity).
  split; [exact recomputed_navFree|]. split; [exact Hok|].
  split; [exact Hp|]. split; [exact Hne|]. split; [exact Hd|].
  exact (zero_distance_cell_answers_NoPath navFree (mkPos 1 0)
           recomputed_navFree Hok Hp Hne Hd).
Defined.
